(** * Convoso Insight Lens (content.js): column injection and aggregation

    A shallow embedding of the table logic of
    [src/components/chrome/chrome-api-bridge/content.js]:
    [parseNum], [formatPct], [findColumnIndex], [processTable],
    [extractAllTableData], [renderMetricCells] and [exportCSV]; then the
    settings ([loadSettings], [saveSettings], the checkboxes of the panel),
    [escapeHtml], [getAllColumnHeaders], the pivot of [populateOverlay], the
    column visibility ([applyColumnVisibility] and the two immediate
    variants) and the passes over the page ([scanAndInject],
    [removeInjectedColumns], [toggleInsightLens], the action refresh and
    [applySettingsFromPanel]).

    Conventions of the embedding.
    - A JavaScript string is a [string]; [toLowerCase] and [trim] act on the
      ASCII letters and the ASCII white space.
    - A JavaScript number is a [number]: NaN, the two infinities, or a finite
      value held as a rational ([Qc]).  The value read by [parseFloat] and
      the result of an addition, a subtraction, a product or a quotient is
      rounded as binary64 rounds it ([round64]): to the nearest value of 53
      bits, the even one of two equally near, with gradual underflow and
      overflow to infinity.  The sign of a zero is not represented.
    - A table is the text of its header cells and of its body cells; a row's
      children are its cells.
    - A JavaScript [Map] is an association list in insertion order, a [Set] a
      duplicate-free list in insertion order.
    - Where the class or the display of a cell matters, a cell is an
      [element]: whether it has the class [insight-calc-col], its text, and
      whether its display is none.  Other styles, titles, the buttons and
      the panel as page elements are not represented.
    - The overlay is its table, which the document holds after the tables of
      the page once the overlay is open; [populateOverlay] and [exportCSV]
      read it with them. *)

From Stdlib Require Import Bool List String Ascii ZArith NArith QArith Qcanon Lia Lqa.
From Stdlib Require Import Qabs Qround DecimalString DecimalPos DecimalN.
From Stdlib Require Import Permutation Sorted.
Import ListNotations.

Local Open Scope string_scope.
Local Open Scope Z_scope.

(* ================================================================== *)
(** ** The JavaScript built-ins the script calls *)
(* ================================================================== *)

Module JS.

(** *** Strings *)

(** [String.prototype.toLowerCase] on the ASCII letters. *)
Definition lower_char (c : ascii) : ascii :=
  let n := N_of_ascii c in
  if ((65 <=? n) && (n <=? 90))%N then ascii_of_N (n + 32) else c.

Fixpoint toLowerCase (s : string) : string :=
  match s with
  | EmptyString => EmptyString
  | String c s' => String (lower_char c) (toLowerCase s')
  end.

(** White space removed by [trim] and skipped by [parseFloat]:
    TAB, LF, VT, FF, CR and the space. *)
Definition isWhite (c : ascii) : bool :=
  let n := N_of_ascii c in
  (((9 <=? n) && (n <=? 13)) || (n =? 32))%N.

Fixpoint trimStart (s : string) : string :=
  match s with
  | EmptyString => EmptyString
  | String c s' => if isWhite c then trimStart s' else s
  end.

(** [trimEnd]: a character is dropped when it is white and everything after
    it has been dropped. *)
Fixpoint trimEnd (s : string) : string :=
  match s with
  | EmptyString => EmptyString
  | String c s' =>
      match trimEnd s' with
      | EmptyString => if isWhite c then EmptyString else String c EmptyString
      | r => String c r
      end
  end.

Definition trim (s : string) : string := trimEnd (trimStart s).

(** [s.includes(t)]: [t] occurs in [s] as a contiguous substring. *)
Fixpoint includes (s t : string) : bool :=
  prefix t s ||
  match s with
  | EmptyString => false
  | String _ s' => includes s' t
  end.

(** [s.replace(/[cs]/g, '')] for a character class: every character of the
    class is removed. *)
Fixpoint removeChars (cls : ascii -> bool) (s : string) : string :=
  match s with
  | EmptyString => EmptyString
  | String c s' =>
      if cls c then removeChars cls s' else String c (removeChars cls s')
  end.

(** [s.slice(0, n)]. *)
Definition slice0 (n : nat) (s : string) : string := substring 0 n s.

(** Truthiness of a string: only the empty string is falsy. *)
Definition nonEmpty (s : string) : bool :=
  match s with EmptyString => false | _ => true end.

(** *** Numbers *)

Inductive number : Type :=
| NaN
| Inf (negative : bool)
| Fin (q : Qc).

Definition zero : number := Fin 0%Qc.
Definition ofZ (z : Z) : number := Fin (Q2Qc (inject_Z z)).

Definition isNaN (x : number) : bool :=
  match x with NaN => true | _ => false end.

Definition isFinite (x : number) : bool :=
  match x with Fin _ => true | _ => false end.

Definition Qc_eqb (a b : Qc) : bool := Qeq_bool a b.
Definition Qc_ltb (a b : Qc) : bool := negb (Qle_bool b a).

(** [x > y]; every comparison with NaN is false. *)
Definition gt (x y : number) : bool :=
  match x, y with
  | NaN, _ | _, NaN => false
  | Inf nx, Inf ny => negb nx && ny
  | Inf nx, Fin _ => negb nx
  | Fin _, Inf ny => ny
  | Fin a, Fin b => Qc_ltb b a
  end.

(** *** binary64

    The integer nearest to [n / d], the even one of two equally near
    ([0 <= n], [0 < d]). *)
Definition nearest_even (n d : Z) : Z :=
  let f := n / d in
  let r := n mod d in
  match (2 * r ?= d) with
  | Lt => f
  | Gt => f + 1
  | Eq => if Z.even f then f else f + 1
  end.

(** The integer part of the binary logarithm of [n / d] ([0 < n], [0 < d]). *)
Definition floor_log2 (n d : Z) : Z :=
  let e := Z.log2 n - Z.log2 d in
  if (if e <? 0 then d <=? n * 2 ^ (- e) else d * 2 ^ e <=? n) then e else e - 1.

(** The Number value for a rational: with [e] the binary exponent of its
    magnitude, not below -1022, the nearest multiple of [2^(e-52)], the even
    one of two equally near; infinite from [2^1024] on. *)
Definition round64 (q : Q) : number :=
  let n := Z.abs (Qnum q) in
  let d := Zpos (Qden q) in
  if n =? 0 then Fin 0%Qc
  else
    let e := Z.max (floor_log2 n d) (-1022) in
    let k := 52 - e in
    let m := if k <? 0 then nearest_even n (d * 2 ^ (- k))
             else nearest_even (n * 2 ^ k) d in
    let neg := Qnum q <? 0 in
    if k <? 0 then
      let v := m * 2 ^ (- k) in
      if 2 ^ 1024 <=? v then Inf neg
      else Fin (Q2Qc (inject_Z (if neg then - v else v)))
    else Fin (Q2Qc ((if neg then - m else m) # Z.to_pos (2 ^ k))).

Definition add (x y : number) : number :=
  match x, y with
  | NaN, _ | _, NaN => NaN
  | Inf nx, Inf ny => if Bool.eqb nx ny then Inf nx else NaN
  | Inf nx, Fin _ => Inf nx
  | Fin _, Inf ny => Inf ny
  | Fin a, Fin b => round64 (a + b)%Qc
  end.

(** [x - y]. *)
Definition sub (x y : number) : number :=
  match x, y with
  | NaN, _ | _, NaN => NaN
  | Inf nx, Inf ny => if Bool.eqb nx ny then NaN else Inf nx
  | Inf nx, Fin _ => Inf nx
  | Fin _, Inf ny => Inf (negb ny)
  | Fin a, Fin b => round64 (a - b)%Qc
  end.

Definition mul (x y : number) : number :=
  match x, y with
  | NaN, _ | _, NaN => NaN
  | Inf nx, Inf ny => Inf (xorb nx ny)
  | Inf nx, Fin b =>
      if Qc_eqb b 0%Qc then NaN else Inf (xorb nx (Qc_ltb b 0%Qc))
  | Fin a, Inf ny =>
      if Qc_eqb a 0%Qc then NaN else Inf (xorb (Qc_ltb a 0%Qc) ny)
  | Fin a, Fin b => round64 (a * b)%Qc
  end.

(** Division; a finite zero divisor is taken as positive zero. *)
Definition div (x y : number) : number :=
  match x, y with
  | NaN, _ | _, NaN => NaN
  | Inf _, Inf _ => NaN
  | Inf nx, Fin b => Inf (xorb nx (Qc_ltb b 0%Qc))
  | Fin _, Inf _ => Fin 0%Qc
  | Fin a, Fin b =>
      if Qc_eqb b 0%Qc
      then (if Qc_eqb a 0%Qc then NaN else Inf (Qc_ltb a 0%Qc))
      else round64 (a / b)%Qc
  end.

(** [x || 0] on a number: 0 and NaN are falsy. *)
Definition orZero (x : number) : number :=
  match x with
  | NaN => zero
  | Inf _ => x
  | Fin q => if Qc_eqb q 0%Qc then zero else x
  end.

(** *** Decimal digits *)

Definition digits (n : N) : string := NilEmpty.string_of_uint (N.to_uint n).

Definition isDigit (c : ascii) : bool :=
  let n := N_of_ascii c in ((48 <=? n) && (n <=? 57))%N.

Definition digitVal (c : ascii) : Z := Z.of_N (N_of_ascii c) - 48.

Fixpoint zeros (n : nat) : string :=
  match n with O => EmptyString | S n' => String "0" (zeros n') end.

(** *** [Number::toString], as used by a template literal

    For a finite value other than 0: the digits [s], [k] of them, and the
    exponent [n] with [k] as small as possible such that [s * 10^(n-k)]
    reads back as the value, and the [s] nearest to the value for that [k];
    they are written without an exponent when [n] is from -5 to 21. *)
Definition pow10 (e : Z) : Q :=
  if e <? 0 then 1 # Z.to_pos (10 ^ (- e)) else inject_Z (10 ^ e).

(** The least [n] from [n0] on with [a < 10^n]. *)
Fixpoint decimalExponent (fuel : nat) (n0 : Z) (a : Q) : Z :=
  match fuel with
  | O => n0
  | S fuel' =>
      if Qle_bool (pow10 n0) a then decimalExponent fuel' (n0 + 1) a else n0
  end.

(** [(s, k, n)], trying [k], [k + 1], ...; seventeen digits always read
    back. *)
Fixpoint shortest (fuel : nat) (k : Z) (n : Z) (a : Qc) : Z * Z * Z :=
  let scale := pow10 (n - k) in
  let lo := Qfloor (a / scale) in
  let hi := lo + 1 in
  let reads s := match round64 (Qred (inject_Z s * scale)) with
                 | Fin v => Qc_eqb v a
                 | _ => false
                 end in
  let nearer_hi :=
    match Qcompare (a - inject_Z lo * scale)%Q (inject_Z hi * scale - a)%Q with
    | Lt => false
    | Gt => true
    | Eq => Z.odd lo
    end in
  let pick s := if s =? 10 ^ k then (1, 1, n + 1) else (s, k, n) in
  match fuel with
  | O => pick (if nearer_hi then hi else lo)
  | S fuel' =>
      match reads lo, reads hi with
      | true, true => pick (if nearer_hi then hi else lo)
      | true, false => pick lo
      | false, true => pick hi
      | false, false => shortest fuel' (k + 1) n a
      end
  end.

Definition writeDigits (s k n : Z) : string :=
  let d := digits (Z.to_N s) in
  if (k <=? n) && (n <=? 21) then d ++ zeros (Z.to_nat (n - k))
  else if (0 <? n) && (n <=? 21) then
    substring 0 (Z.to_nat n) d ++ "." ++ substring (Z.to_nat n) (Z.to_nat (k - n)) d
  else if (-6 <? n) && (n <=? 0) then "0." ++ zeros (Z.to_nat (- n)) ++ d
  else
    let e := n - 1 in
    let es := (if e <? 0 then "-" else "+") ++ digits (Z.to_N (Z.abs e)) in
    if k =? 1 then d ++ "e" ++ es
    else substring 0 1 d ++ "." ++ substring 1 (Z.to_nat (k - 1)) d ++ "e" ++ es.

Definition Number_toString (x : number) : string :=
  match x with
  | NaN => "NaN"
  | Inf false => "Infinity"
  | Inf true => "-Infinity"
  | Fin q =>
      if Qc_eqb q 0%Qc then "0"
      else
        let a := Q2Qc (Qabs q) in
        let n0 := (floor_log2 (Qnum a) (Zpos (Qden a)) * 30103) / 100000 - 1 in
        let n := decimalExponent 8 n0 a in
        let '(s, k, n') := shortest 16 1 n a in
        (if Qc_ltb q 0%Qc then "-" else EmptyString) ++ writeDigits s k n'
  end.

(** *** [Number.prototype.toFixed]

    For a finite [x]: the sign, then, for [|x|] below 10^21, the integer [n]
    for which [n / 10^f] is closest to [|x|] (the larger one when two are
    equally close), written with [f] digits after the point; from 10^21 on,
    the digits of [Number::toString]. *)
Definition roundScaled (f : nat) (x : Qc) : N :=
  let q : Q := (Qabs x * inject_Z (10 ^ Z.of_nat f) + (1 # 2))%Q in
  Z.to_N (Qfloor q).

Definition positional (f : nat) (n : N) : string :=
  let m := digits n in
  match f with
  | O => m
  | _ =>
      let k := String.length m in
      let m' := if (k <=? f)%nat then zeros (f + 1 - k) ++ m else m in
      let k' := String.length m' in
      substring 0 (k' - f) m' ++ "." ++ substring (k' - f) f m'
  end.

Definition isLarge (q : Qc) : bool := Qle_bool (inject_Z (10 ^ 21)) (Qabs q).

Definition toFixed (f : nat) (x : number) : string :=
  match x with
  | NaN => "NaN"
  | Inf false => "Infinity"
  | Inf true => "-Infinity"
  | Fin q =>
      (if Qc_ltb q 0%Qc then "-" else EmptyString) ++
      (if isLarge q then Number_toString (Fin (Q2Qc (Qabs q)))
       else positional f (roundScaled f q))
  end.

(** *** [parseFloat]

    Leading white space is skipped; the longest prefix that is a decimal
    literal is read: an optional sign, then [Infinity], or digits with an
    optional fraction and an optional exponent.  NaN when there is no such
    prefix.  The value of a literal is rounded by [round64]. *)
Fixpoint spanDigits (s : string) : string * string :=
  match s with
  | EmptyString => (EmptyString, EmptyString)
  | String c s' =>
      if isDigit c
      then let (d, r) := spanDigits s' in (String c d, r)
      else (EmptyString, s)
  end.

Fixpoint digitsValue (acc : Z) (d : string) : Z :=
  match d with
  | EmptyString => acc
  | String c d' => digitsValue (10 * acc + digitVal c) d'
  end.

Definition splitSign (s : string) : bool * string :=
  match s with
  | String "+" r => (false, r)
  | String "-" r => (true, r)
  | _ => (false, s)
  end.

(** The exponent part, when it is well formed; 0 otherwise. *)
Definition parseExponent (s : string) : Z :=
  match s with
  | String c s' =>
      if (Ascii.eqb c "e" || Ascii.eqb c "E")%bool then
        let (neg, s'') := splitSign s' in
        let (d, _) := spanDigits s'' in
        match d with
        | EmptyString => 0
        | _ => if neg then - digitsValue 0 d else digitsValue 0 d
        end
      else 0
  | EmptyString => 0
  end.

Definition parseFloat (s : string) : number :=
  let (neg, s1) := splitSign (trimStart s) in
  if prefix "Infinity" s1 then Inf neg
  else
    let (ip, s2) := spanDigits s1 in
    let (fp, s3) :=
      match s2 with
      | String "." r => spanDigits r
      | _ => (EmptyString, s2)
      end in
    match ip ++ fp with
    | EmptyString => NaN
    | m =>
        let e := parseExponent s3 - Z.of_nat (String.length fp) in
        let v := (inject_Z (digitsValue 0 m) * Qpower (inject_Z 10) e)%Q in
        round64 (Q2Qc (if neg then Qopp v else v))
    end.

(** *** Values

    What a JavaScript expression may hold where the script expects the text
    of a cell. *)
Inductive value : Type :=
| Undefined
| Null
| Boolean (b : bool)
| Num (n : number)
| Text (s : string)
| Object.

(** *** [Map] and [Set], in insertion order *)

Fixpoint Map_get {V : Type} (m : list (string * V)) (k : string) : option V :=
  match m with
  | [] => None
  | (k', v) :: m' => if String.eqb k' k then Some v else Map_get m' k
  end.

Definition Map_has {V : Type} (m : list (string * V)) (k : string) : bool :=
  match Map_get m k with Some _ => true | None => false end.

(** [m.set(k, v)]: the entry keeps its place when the key is present and is
    appended otherwise. *)
Fixpoint Map_set {V : Type} (m : list (string * V)) (k : string) (v : V)
  : list (string * V) :=
  match m with
  | [] => [(k, v)]
  | (k', v') :: m' =>
      if String.eqb k' k then (k, v) :: m' else (k', v') :: Map_set m' k v
  end.

Definition Set_has (s : list string) (k : string) : bool :=
  existsb (String.eqb k) s.

Definition Set_add (s : list string) (k : string) : list string :=
  if Set_has s k then s else s ++ [k].

(** [a.findIndex(p)], counting from [i]. *)
Fixpoint findIndex_from {A : Type} (i : Z) (p : A -> bool) (a : list A) : Z :=
  match a with
  | [] => -1
  | x :: a' => if p x then i else findIndex_from (i + 1) p a'
  end.

Definition findIndex {A : Type} (p : A -> bool) (a : list A) : Z :=
  findIndex_from 0 p a.

(** [a[i]]: the element, or nothing ([undefined]) out of range. *)
Definition at_index {A : Type} (a : list A) (i : Z) : option A :=
  if i <? 0 then None else nth_error a (Z.to_nat i).

End JS.

Import JS.

(* ================================================================== *)
(** ** content.js *)
(* ================================================================== *)

(** *** Configuration ([INSIGHT_CONFIG]) *)

Module INSIGHT_CONFIG.

(** [INSIGHT_CONFIG.columns]: the names looked for, per role. *)
Module columns.
Definition contacts : list string := ["contacts"; "contact"].
Definition appt : list string :=
  ["appt"; "status 'appt"; "status 'appt - appointment scheduled'";
   "appointment"].
Definition lxfer : list string :=
  ["lxfer"; "status 'lxfer"; "status 'lxfer - live transfer'";
   "live transfer"].
Definition success : list string := ["success"; "all success"; "total success"].
Definition dialed : list string := ["dialed"].
End columns.

(** [INSIGHT_CONFIG.lensedColumns]: one switch per derived column. *)
Record lensedColumns : Type := {
  apptContacts : bool;
  apptCalls : bool;
  lxferContacts : bool;
  lxferCalls : bool;
  successContacts : bool;
  successCalls : bool
}.

(** The switches the script starts with. *)
Definition defaults : lensedColumns :=
  {| apptContacts := true; apptCalls := true;
     lxferContacts := true; lxferCalls := true;
     successContacts := true; successCalls := true |}.

End INSIGHT_CONFIG.

(** *** Tables

    [thead] is the text of the cells of the first header row ([None] when
    [table.querySelector('thead tr')] finds nothing), [tbody] the text of the
    cells of each body row. *)
Record table : Type := {
  thead : option (list string);
  tbody : list (list string)
}.

(** *** Utilities *)

(** The class [[%$,]] of line 100. *)
Definition percent_dollar_comma (c : ascii) : bool :=
  Ascii.eqb c "%" || Ascii.eqb c "$" || Ascii.eqb c ",".

(** [str.replace(/[%$,]/g, '').trim()]. *)
Definition clean_text (str : string) : string :=
  trim (removeChars percent_dollar_comma str).

(** [parseNum] (lines 98-103).  The first test lets through a string that is
    not empty and nothing else. *)
Definition parseNum (str : value) : number :=
  match str with
  | Text s =>
      if negb (nonEmpty s) then zero
      else
        let clean := clean_text s in
        let num := parseFloat clean in
        if isNaN num then zero else num
  | _ => zero
  end.

(** [formatPct] (lines 108-111). *)
Definition formatPct (num : number) : string :=
  if isNaN num || negb (isFinite num) then "—"
  else toFixed 2 num ++ "%".

Inductive metricType : Type := appt | lxfer | success.

(** [findColumnIndex] (lines 125-135): the outer loop runs over the headers,
    the inner one over the search terms. *)
Fixpoint findColumnIndex_from (i : Z) (headers searchTerms : list string) : Z :=
  match headers with
  | [] => -1
  | h :: headers' =>
      let headerText := trim (toLowerCase h) in
      if existsb (fun term => includes headerText (toLowerCase term)) searchTerms
      then i
      else findColumnIndex_from (i + 1) headers' searchTerms
  end.

Definition findColumnIndex (headers searchTerms : list string) : Z :=
  findColumnIndex_from 0 headers searchTerms.

(** *** Column injection *)

(** [cells[i]?.innerText]. *)
Definition innerTextAt (cells : list string) (i : Z) : value :=
  match at_index cells i with
  | Some s => Text s
  | None => Undefined
  end.

(** One entry of the [insertions] array. *)
Record insertion : Type := {
  afterIdx : Z;
  headerText : string;
  headerTitle : string;
  metric : metricType;
  calculate : list string -> number;
  lensedKey : string
}.

(** A cell of a live row: [origin] is its index in the array taken from the
    row before the insertions ([None] for a cell the script created). *)
Record cell : Type := {
  origin : option Z;
  innerText : string
}.

Fixpoint snapshot_from (i : Z) (texts : list string) : list cell :=
  match texts with
  | [] => []
  | t :: texts' =>
      {| origin := Some i; innerText := t |} :: snapshot_from (i + 1) texts'
  end.

Definition snapshot (texts : list string) : list cell := snapshot_from 0 texts.

Definition is_origin (k : Z) (c : cell) : bool :=
  match origin c with
  | Some j => j =? k
  | None => false
  end.

(** Lines 303-308 and 326-331: with [afterCell] the [k]-th cell of the
    array, the new cell goes before [afterCell.nextSibling], and to the end of
    the row when there is no such cell or it is the last one. *)
Fixpoint insertAfter (k : Z) (new : cell) (row : list cell) : list cell :=
  match row with
  | [] => [new]
  | c :: row' =>
      if is_origin k c then c :: new :: row' else c :: insertAfter k new row'
  end.

(** [insertions.sort((a, b) => b.afterIdx - a.afterIdx)]: descending, and
    stable. *)
Fixpoint sort_insert (x : insertion) (l : list insertion) : list insertion :=
  match l with
  | [] => [x]
  | y :: l' =>
      if afterIdx y <=? afterIdx x then x :: l else y :: sort_insert x l'
  end.

Definition sort_desc (l : list insertion) : list insertion :=
  fold_right sort_insert [] l.

(** The six entries pushed at lines 178-283, in the order of the pushes. *)
Definition build_insertions (cfg : INSIGHT_CONFIG.lensedColumns)
    (contactsIdx apptIdx lxferIdx successIdx dialedIdx : Z) : list insertion :=
  (if negb (successIdx =? -1) then
     (if negb (dialedIdx =? -1) && INSIGHT_CONFIG.successCalls cfg then
        [{| afterIdx := successIdx;
            headerText := "SUCCESS%(D)";
            headerTitle := "All Success % of Dialed (Calls)";
            metric := success;
            calculate := fun cells =>
              let dialed := parseNum (innerTextAt cells dialedIdx) in
              let success := parseNum (innerTextAt cells successIdx) in
              if gt dialed zero then mul (div success dialed) (ofZ 100) else zero;
            lensedKey := "successCalls" |}]
      else []) ++
     (if negb (contactsIdx =? -1) && INSIGHT_CONFIG.successContacts cfg then
        [{| afterIdx := successIdx;
            headerText := "SUCCESS%(C)";
            headerTitle := "All Success % of Contacts";
            metric := success;
            calculate := fun cells =>
              let contacts := parseNum (innerTextAt cells contactsIdx) in
              let success := parseNum (innerTextAt cells successIdx) in
              if gt contacts zero then mul (div success contacts) (ofZ 100) else zero;
            lensedKey := "successContacts" |}]
      else [])
   else []) ++
  (if negb (lxferIdx =? -1) then
     (if negb (dialedIdx =? -1) && INSIGHT_CONFIG.lxferCalls cfg then
        [{| afterIdx := lxferIdx;
            headerText := "LXFER%(D)";
            headerTitle := "LXFER % of Dialed (Calls)";
            metric := lxfer;
            calculate := fun cells =>
              let dialed := parseNum (innerTextAt cells dialedIdx) in
              let lxfer := parseNum (innerTextAt cells lxferIdx) in
              if gt dialed zero then mul (div lxfer dialed) (ofZ 100) else zero;
            lensedKey := "lxferCalls" |}]
      else []) ++
     (if negb (contactsIdx =? -1) && INSIGHT_CONFIG.lxferContacts cfg then
        [{| afterIdx := lxferIdx;
            headerText := "LXFER%(C)";
            headerTitle := "LXFER % of Contacts";
            metric := lxfer;
            calculate := fun cells =>
              let contacts := parseNum (innerTextAt cells contactsIdx) in
              let lxfer := parseNum (innerTextAt cells lxferIdx) in
              if gt contacts zero then mul (div lxfer contacts) (ofZ 100) else zero;
            lensedKey := "lxferContacts" |}]
      else [])
   else []) ++
  (if negb (apptIdx =? -1) then
     (if negb (dialedIdx =? -1) && INSIGHT_CONFIG.apptCalls cfg then
        [{| afterIdx := apptIdx;
            headerText := "APPT%(D)";
            headerTitle := "APPT % of Dialed (Calls)";
            metric := appt;
            calculate := fun cells =>
              let dialed := parseNum (innerTextAt cells dialedIdx) in
              let appt := parseNum (innerTextAt cells apptIdx) in
              if gt dialed zero then mul (div appt dialed) (ofZ 100) else zero;
            lensedKey := "apptCalls" |}]
      else []) ++
     (if negb (contactsIdx =? -1) && INSIGHT_CONFIG.apptContacts cfg then
        [{| afterIdx := apptIdx;
            headerText := "APPT%(C)";
            headerTitle := "APPT % of Contacts";
            metric := appt;
            calculate := fun cells =>
              let contacts := parseNum (innerTextAt cells contactsIdx) in
              let appt := parseNum (innerTextAt cells apptIdx) in
              if gt contacts zero then mul (div appt contacts) (ofZ 100) else zero;
            lensedKey := "apptContacts" |}]
      else [])
   else []).

(** Lines 295-309: one header cell per insertion. *)
Definition inject_header_live (insertions : list insertion)
    (headerCells : list string) : list cell :=
  fold_left
    (fun headerRow ins =>
       insertAfter (afterIdx ins)
         {| origin := None; innerText := headerText ins |} headerRow)
    insertions (snapshot headerCells).

Definition inject_header (insertions : list insertion) (headerCells : list string)
  : list string :=
  map innerText (inject_header_live insertions headerCells).

(** Lines 317-332: one data cell per insertion; the values are read from the
    array taken before the insertions. *)
Definition inject_row_live (insertions : list insertion) (cells : list string)
  : list cell :=
  fold_left
    (fun row ins =>
       let value := calculate ins cells in
       insertAfter (afterIdx ins)
         {| origin := None; innerText := formatPct value |} row)
    insertions (snapshot cells).

(** Lines 313-333: a row without cells is left as it is. *)
Definition inject_row (insertions : list insertion) (cells : list string)
  : list string :=
  if (List.length cells =? 0)%nat then cells
  else map innerText (inject_row_live insertions cells).

(** The guard of lines 154-157. *)
Definition already_injected (headers : list string) : bool :=
  existsb
    (fun h => includes h "APPT%(C)" || includes h "LXFER%(C)"
              || includes h "SUCCESS%(C)")
    headers.

(** [processTable] (lines 146-337).  The second component is the value of the
    global [columnsInjected] after the call. *)
Definition processTable (cfg : INSIGHT_CONFIG.lensedColumns)
    (t : table) (columnsInjected : bool) : table * bool :=
  match thead t with
  | None => (t, columnsInjected)
  | Some headerCells =>
      let headers := map trim headerCells in
      if already_injected headers then (t, columnsInjected)
      else
        let contactsIdx := findColumnIndex headers INSIGHT_CONFIG.columns.contacts in
        let apptIdx := findColumnIndex headers INSIGHT_CONFIG.columns.appt in
        let lxferIdx := findColumnIndex headers INSIGHT_CONFIG.columns.lxfer in
        let successIdx := findColumnIndex headers INSIGHT_CONFIG.columns.success in
        let dialedIdx := findColumnIndex headers INSIGHT_CONFIG.columns.dialed in
        if (contactsIdx =? -1) && (dialedIdx =? -1) then (t, columnsInjected)
        else
          let insertions :=
            build_insertions cfg contactsIdx apptIdx lxferIdx successIdx dialedIdx in
          if (List.length insertions =? 0)%nat then (t, columnsInjected)
          else
            let insertions := sort_desc insertions in
            ({| thead := Some (inject_header insertions headerCells);
                tbody := map (inject_row insertions) (tbody t) |},
             true)
  end.

(** The entries of [insertions] for a table with these header cells, before
    the sort: lines 160-283. *)
Definition table_insertions (cfg : INSIGHT_CONFIG.lensedColumns)
    (headerCells : list string) : list insertion :=
  let headers := map trim headerCells in
  build_insertions cfg
    (findColumnIndex headers INSIGHT_CONFIG.columns.contacts)
    (findColumnIndex headers INSIGHT_CONFIG.columns.appt)
    (findColumnIndex headers INSIGHT_CONFIG.columns.lxfer)
    (findColumnIndex headers INSIGHT_CONFIG.columns.success)
    (findColumnIndex headers INSIGHT_CONFIG.columns.dialed).

(** *** Aggregation *)

(** A counter tuple: [{ dialed, contacts, appt, lxfer, success }]. *)
Module counters.
Record t : Type := make {
  dialed : number;
  contacts : number;
  appt : number;
  lxfer : number;
  success : number
}.
Definition zeros : t := make zero zero zero zero zero.
End counters.

(** The value held by [agents] for one agent. *)
Record agentData : Type := {
  lists : list (string * counters.t);
  totals : counters.t
}.

(** What [extractAllTableData] returns: [{ agents, lists }].  The set of the
    list names is the field [allLists]. *)
Record aggregation : Type := {
  agents : list (string * agentData);
  allLists : list string
}.

Definition empty_aggregation : aggregation :=
  {| agents := []; allLists := [] |}.

(** The column indices of lines 1343-1349. *)
Record roles : Type := {
  userIdx : Z;
  listIdx : Z;
  dialedIdx : Z;
  contactsIdx : Z;
  apptIdx : Z;
  lxferIdx : Z;
  successIdx : Z
}.

Definition resolve_roles (headers : list string) : roles :=
  {| userIdx := findIndex (fun h => String.eqb h "user" || String.eqb h "agent") headers;
     listIdx := findIndex (fun h => includes h "list") headers;
     dialedIdx := findColumnIndex headers ["dialed"];
     contactsIdx := findColumnIndex headers ["contacts"; "contact"];
     apptIdx := findColumnIndex headers ["appt"; "appointment"];
     lxferIdx := findColumnIndex headers ["lxfer"; "live transfer"];
     successIdx := findColumnIndex headers ["success"; "all success"; "total success"] |}.

(** [cells[i]?.innerText.trim() || fallback]. *)
Definition trimmedOr (cells : list string) (i : Z) (fallback : string) : string :=
  match at_index cells i with
  | Some s => if nonEmpty (trim s) then trim s else fallback
  | None => fallback
  end.

(** [idx !== -1 ? parseNum(cells[idx]?.innerText) : 0]. *)
Definition counterAt (cells : list string) (idx : Z) : number :=
  if negb (idx =? -1) then parseNum (innerTextAt cells idx) else zero.

Definition agentNameOf (r : roles) (cells : list string) : string :=
  trimmedOr cells (userIdx r) "Unknown".

Definition listNameOf (r : roles) (cells : list string) : string :=
  if negb (listIdx r =? -1) then trimmedOr cells (listIdx r) "Default" else "All".

(** The counters read from one row (lines 1370-1374). *)
Definition rowCounters (r : roles) (cells : list string) : counters.t :=
  counters.make (counterAt cells (dialedIdx r)) (counterAt cells (contactsIdx r))
    (counterAt cells (apptIdx r)) (counterAt cells (lxferIdx r))
    (counterAt cells (successIdx r)).

(** The five [+=] of lines 1381-1385 and of lines 1388-1392. *)
Definition accumulate (acc row : counters.t) : counters.t :=
  counters.make
    (add (counters.dialed acc) (counters.dialed row))
    (add (counters.contacts acc) (counters.contacts row))
    (add (counters.appt acc) (counters.appt row))
    (add (counters.lxfer acc) (counters.lxfer row))
    (add (counters.success acc) (counters.success row)).

(** Lines 1360-1392: the row of [agentName] and [listName] is added to the
    tuple of the list and to the totals of the agent.  The entry of an agent
    and the tuple of a list are objects held by the maps: they are created
    when absent and updated in place. *)
Definition recordRow (agentName listName : string) (row : counters.t)
    (data : aggregation) : aggregation :=
  let lists' := Set_add (allLists data) listName in
  let agentData0 :=
    match Map_get (agents data) agentName with
    | Some d => d
    | None => {| lists := []; totals := counters.zeros |}
    end in
  let listData0 :=
    match Map_get (lists agentData0) listName with
    | Some l => l
    | None => counters.zeros
    end in
  let listData := accumulate listData0 row in
  let agentData1 :=
    {| lists := Map_set (lists agentData0) listName listData;
       totals := accumulate (totals agentData0) row |} in
  {| agents := Map_set (agents data) agentName agentData1;
     allLists := lists' |}.

(** The body of the loop over the rows (lines 1354-1392). *)
Definition extractRow (r : roles) (data : aggregation) (cells : list string)
  : aggregation :=
  if (List.length cells <? 3)%nat then data
  else recordRow (agentNameOf r cells) (listNameOf r cells) (rowCounters r cells) data.

(** The body of the loop over the tables (lines 1336-1393). *)
Definition extractTable (data : aggregation) (t : table) : aggregation :=
  match thead t with
  | None => data
  | Some headerCells =>
      let headers := map (fun th => toLowerCase (trim th)) headerCells in
      let r := resolve_roles headers in
      if userIdx r =? -1 then data
      else fold_left (extractRow r) (tbody t) data
  end.

(** [extractAllTableData] (lines 1331-1397), over the tables of the page. *)
Definition extractAllTableData (page : list table) : aggregation :=
  fold_left extractTable page empty_aggregation.

(** *** Pivot and CSV *)

(** [renderMetricCells] (lines 1294-1326): the text of the twelve cells.
    The class and the style of a cell are not represented; [addDivider] only
    chooses a class. *)
Definition renderMetricCells (data : counters.t) (addDivider : bool) : list string :=
  let dialed := counters.dialed data in
  let contacts := counters.contacts data in
  let contactPct := if gt dialed zero then mul (div contacts dialed) (ofZ 100) else zero in
  let apptPctC := if gt contacts zero then mul (div (counters.appt data) contacts) (ofZ 100) else zero in
  let lxferPctC := if gt contacts zero then mul (div (counters.lxfer data) contacts) (ofZ 100) else zero in
  let successPctC := if gt contacts zero then mul (div (orZero (counters.success data)) contacts) (ofZ 100) else zero in
  let apptPctD := if gt dialed zero then mul (div (counters.appt data) dialed) (ofZ 100) else zero in
  let lxferPctD := if gt dialed zero then mul (div (counters.lxfer data) dialed) (ofZ 100) else zero in
  let successPctD := if gt dialed zero then mul (div (orZero (counters.success data)) dialed) (ofZ 100) else zero in
  [ Number_toString dialed;
    Number_toString contacts;
    toFixed 1 contactPct ++ "%";
    Number_toString (counters.appt data);
    toFixed 1 apptPctC ++ "%";
    toFixed 1 apptPctD ++ "%";
    Number_toString (counters.lxfer data);
    toFixed 1 lxferPctC ++ "%";
    toFixed 1 lxferPctD ++ "%";
    Number_toString (orZero (counters.success data));
    toFixed 1 successPctC ++ "%";
    toFixed 1 successPctD ++ "%" ].

Definition csv_header : string :=
  "Agent,List,Dialed,Contacts,Contact%,APPT,APPT%(C),APPT%(D),LXFER,LXFER%(C),LXFER%(D),Success,SUCCESS%(C),SUCCESS%(D)".

Definition newline : string := String (ascii_of_N 10) EmptyString.
Definition dquote : string := String (ascii_of_N 34) EmptyString.

(** The fourteen fields of the line written at line 1435. *)
Definition csv_fields (agentName listName : string) (listData : counters.t)
  : list string :=
  let dialed := counters.dialed listData in
  let contacts := counters.contacts listData in
  let contactPct := if gt dialed zero then mul (div contacts dialed) (ofZ 100) else zero in
  let apptPctC := if gt contacts zero then mul (div (counters.appt listData) contacts) (ofZ 100) else zero in
  let lxferPctC := if gt contacts zero then mul (div (counters.lxfer listData) contacts) (ofZ 100) else zero in
  let successPctC := if gt contacts zero then mul (div (orZero (counters.success listData)) contacts) (ofZ 100) else zero in
  let apptPctD := if gt dialed zero then mul (div (counters.appt listData) dialed) (ofZ 100) else zero in
  let lxferPctD := if gt dialed zero then mul (div (counters.lxfer listData) dialed) (ofZ 100) else zero in
  let successPctD := if gt dialed zero then mul (div (orZero (counters.success listData)) dialed) (ofZ 100) else zero in
  [ dquote ++ agentName ++ dquote;
    dquote ++ listName ++ dquote;
    Number_toString dialed;
    Number_toString contacts;
    toFixed 2 contactPct ++ "%";
    Number_toString (counters.appt listData);
    toFixed 2 apptPctC ++ "%";
    toFixed 2 apptPctD ++ "%";
    Number_toString (counters.lxfer listData);
    toFixed 2 lxferPctC ++ "%";
    toFixed 2 lxferPctD ++ "%";
    Number_toString (orZero (counters.success listData));
    toFixed 2 successPctC ++ "%";
    toFixed 2 successPctD ++ "%" ].

Definition csv_line (agentName listName : string) (listData : counters.t) : string :=
  String.concat "," (csv_fields agentName listName listData) ++ newline.

(** [listName.toLowerCase() === 'all']. *)
Definition is_all (listName : string) : bool :=
  String.eqb (toLowerCase listName) "all".

(** The lines appended by the two nested [forEach] (lines 1420-1437). *)
Definition csv_lines_of_agent (agentName : string) (d : agentData) : list string :=
  flat_map
    (fun '(listName, listData) =>
       if is_all listName then [] else [csv_line agentName listName listData])
    (lists d).

Definition csv_lines (data : aggregation) : list string :=
  flat_map (fun '(agentName, d) => csv_lines_of_agent agentName d) (agents data).

(** [exportCSV] (lines 1411-1448): the text of the file and its name.  [now]
    is [new Date().toISOString()]. *)
Definition exportCSV (page : list table) (now : string) : string * string :=
  let data := extractAllTableData page in
  let csv := csv_header ++ newline ++ String.concat EmptyString (csv_lines data) in
  (csv, "convoso-insight-" ++ slice0 10 now ++ ".csv").

(* ================================================================== *)
(** ** The properties, as the specification words them *)
(* ================================================================== *)

Module Spec.

(** The Metric Computer:
    [pct(numerator, denominator) = denominator > 0 ? (numerator / denominator) * 100 : 0]. *)
Definition pct (numerator denominator : number) : number :=
  if gt denominator zero then mul (div numerator denominator) (ofZ 100) else zero.

(** The seven ratios of a counter tuple, in the order of the columns:
    Contact%, APPT%(C), APPT%(D), LXFER%(C), LXFER%(D), SUCCESS%(C),
    SUCCESS%(D). *)
Definition ratios (data : counters.t) : list number :=
  [ pct (counters.contacts data) (counters.dialed data);
    pct (counters.appt data) (counters.contacts data);
    pct (counters.appt data) (counters.dialed data);
    pct (counters.lxfer data) (counters.contacts data);
    pct (counters.lxfer data) (counters.dialed data);
    pct (orZero (counters.success data)) (counters.contacts data);
    pct (orZero (counters.success data)) (counters.dialed data) ].

(** The Header Matcher as section 4.2 words it: each candidate is tried on
    all the headers before the next candidate. *)
Fixpoint findColumnIndex_by_candidate (headers candidates : list string) : Z :=
  match candidates with
  | [] => -1
  | term :: candidates' =>
      let i := findIndex
                 (fun h => includes (trim (toLowerCase h)) (toLowerCase term))
                 headers in
      if i =? -1 then findColumnIndex_by_candidate headers candidates' else i
  end.

(** The elementwise sum of the tuples of the lists of an agent. *)
Definition sum_of_lists (ls : list (string * counters.t)) : counters.t :=
  fold_right (fun entry acc => accumulate (snd entry) acc) counters.zeros ls.

(** [N.NN]: an optional minus sign, one digit or more, a point, two digits. *)
Fixpoint all_digits (s : string) : bool :=
  match s with
  | EmptyString => true
  | String c s' => isDigit c && all_digits s'
  end.

Definition unsigned_fixed (f : nat) (s : string) : bool :=
  let k := String.length s in
  (f + 1 <? k)%nat
  && all_digits (substring 0 (k - f - 1) s)
  && String.eqb (substring (k - f - 1) 1 s) "."
  && all_digits (substring (k - f) f s).

Definition is_fixed (f : nat) (s : string) : bool :=
  match s with
  | String "-" s' => unsigned_fixed f s'
  | _ => unsigned_fixed f s
  end.

(** [N.NN%]. *)
Definition is_percent2 (s : string) : bool :=
  let k := String.length s in
  (0 <? k)%nat
  && String.eqb (substring (k - 1) 1 s) "%"
  && is_fixed 2 (substring 0 (k - 1) s).

End Spec.

(** The cells of a row at the given positions. *)
Definition cellsAt (positions : list nat) (row : list string) : list string :=
  map (fun i => nth i row EmptyString) positions.

(** The positions of the seven ratios among the cells of
    [renderMetricCells] and among the fields of a line of the CSV. *)
Definition pivot_ratio_cells : list nat := [2; 4; 5; 7; 8; 10; 11]%nat.
Definition csv_ratio_fields : list nat := [4; 6; 7; 9; 10; 12; 13]%nat.

(* ================================================================== *)
(** ** Notions used to state the properties *)
(* ================================================================== *)

(** A header matches the search terms when its lowercased, trimmed text
    contains one of them, lowercased. *)
Definition header_matches (searchTerms : list string) (h : string) : bool :=
  existsb (fun term => includes (trim (toLowerCase h)) (toLowerCase term))
          searchTerms.

(** The totals of every agent are the sum of the tuples of its lists. *)
Definition totals_are_sums (data : aggregation) : Prop :=
  forall agentName d, In (agentName, d) (agents data) ->
                      totals d = Spec.sum_of_lists (lists d).

(** A cell that the row had before the insertions. *)
Definition is_original (c : cell) : bool :=
  match origin c with Some _ => true | None => false end.

(** *** The place of the derived cells

    The cells of a row after the insertions, by position: each cell that the
    row had is followed by the derived cells inserted after it, the latest
    inserted first; the derived cells whose anchor the row does not have
    come at the end of the row, in the order of their insertion. *)
Definition derived_after (mk : insertion -> string) (insertions : list insertion)
    (i : Z) : list string :=
  map mk (rev (filter (fun ins => afterIdx ins =? i) insertions)).

Fixpoint placed_from (i : Z) (mk : insertion -> string)
    (insertions : list insertion) (cells : list string) : list string :=
  match cells with
  | [] => []
  | t :: cells' =>
      (t :: derived_after mk insertions i)
      ++ placed_from (i + 1) mk insertions cells'
  end.

Definition lacks_anchor (cells : list string) (ins : insertion) : bool :=
  (afterIdx ins <? 0) || (Z.of_nat (List.length cells) <=? afterIdx ins).

Definition placed (mk : insertion -> string) (insertions : list insertion)
    (cells : list string) : list string :=
  placed_from 0 mk insertions cells
  ++ map mk (filter (lacks_anchor cells) insertions).

(** The same on the cells, with their origin. *)
Definition derived_cell (mk : insertion -> string) (ins : insertion) : cell :=
  {| origin := None; innerText := mk ins |}.

Fixpoint placed_cells_from (i : Z) (mk : insertion -> string)
    (insertions : list insertion) (cells : list string) : list cell :=
  match cells with
  | [] => []
  | t :: cells' =>
      ({| origin := Some i; innerText := t |}
       :: map (derived_cell mk)
              (rev (filter (fun ins => afterIdx ins =? i) insertions)))
      ++ placed_cells_from (i + 1) mk insertions cells'
  end.

Definition placed_cells (mk : insertion -> string) (insertions : list insertion)
    (cells : list string) : list cell :=
  placed_cells_from 0 mk insertions cells
  ++ map (derived_cell mk) (filter (lacks_anchor cells) insertions).

(** The (agent, list) pairs that the export writes, with their tuples, in
    the order of the maps. *)
Definition exported_rows (data : aggregation)
  : list (string * string * counters.t) :=
  flat_map
    (fun entry =>
       map (fun le => (fst entry, fst le, snd le))
           (filter (fun le => negb (is_all (fst le))) (lists (snd entry))))
    (agents data).

(** The (agent, list) pair of an exported row, and the line written for it. *)
Definition row_key (row : string * string * counters.t) : string * string :=
  (fst (fst row), snd (fst row)).

Definition row_line (row : string * string * counters.t) : string :=
  csv_line (fst (fst row)) (snd (fst row)) (snd row).

(** No agent occurs twice in [agents], no list twice in the lists of an
    agent. *)
Definition keys_distinct (data : aggregation) : Prop :=
  NoDup (map fst (agents data))
  /\ forall agentName d, In (agentName, d) (agents data) ->
                         NoDup (map fst (lists d)).

(** The value of the decimal numeral [ip.fp]. *)
Definition decimal_value (ip fp : string) : Qc :=
  Q2Qc (inject_Z (digitsValue 0 (ip ++ fp))
        * Qpower (inject_Z 10) (- Z.of_nat (String.length fp)))%Q.

(** The first character, if any, is a digit. *)
Definition starts_with_digit (s : string) : bool :=
  match s with
  | String c _ => isDigit c
  | EmptyString => false
  end.

(* ================================================================== *)
(** ** Tables and tuples of the scenarios *)
(* ================================================================== *)

Definition scenario1 : table :=
  {| thead := Some ["User"; "List"; "Dialed"; "Contacts"; "Status 'APPT";
                    "LXFER"; "All Success"];
     tbody := [["Alice"; "Sales"; "100"; "40"; "10"; "5"; "30"]] |}.

Definition table_agent_name : table :=
  {| thead := Some ["Agent Name"; "List"; "Dialed"; "Contacts"];
     tbody := [["Bob"; "A"; "10"; "5"]] |}.


(** One contact out of three calls. *)
Definition table_one_in_three : table :=
  {| thead := Some ["User"; "List"; "Dialed"; "Contacts"];
     tbody := [["Alice"; "Sales"; "3"; "1"]] |}.

Definition table_short_row : table :=
  {| thead := Some ["Dialed"; "Contacts"; "APPT"];
     tbody := [["100"]; ["50"; "20"; "5"]; []] |}.

Definition table_dialed_only : table :=
  {| thead := Some ["Agent"; "Dialed"; "APPT"; "LXFER"; "Success"];
     tbody := [["Bob"; "100"; "10"; "5"; "30"]] |}.

Definition table_infinite_cell : table :=
  {| thead := Some ["Agent"; "List"; "Dialed"; "Contacts"];
     tbody := [["Bob"; "A"; "5"; "Infinity"]] |}.

Definition scenario2_counters : counters.t :=
  counters.make (ofZ 50) zero (ofZ 3) zero zero.

Definition scenario3 : list table :=
  [ {| thead := Some ["User"; "List"; "Dialed"];
       tbody := [["Bob"; "A"; "10"]] |};
    {| thead := Some ["User"; "List"; "Dialed"];
       tbody := [["Bob"; "B"; "20"]] |} ].

Definition scenario1_counters : counters.t :=
  counters.make (ofZ 100) (ofZ 40) (ofZ 10) (ofZ 5) (ofZ 30).

(* ================================================================== *)
(** ** content.js: the settings panel, the pivot and the helpers *)
(* ================================================================== *)

(** *** [escapeHtml] (lines 1402-1405) *)

Definition dquote_char : ascii := ascii_of_N 34.

(** The entry of [map] for a character of the class, the character itself
    otherwise. *)
Definition escapeChar (c : ascii) : string :=
  if Ascii.eqb c "&" then "&amp;"
  else if Ascii.eqb c "<" then "&lt;"
  else if Ascii.eqb c ">" then "&gt;"
  else if Ascii.eqb c dquote_char then "&quot;"
  else if Ascii.eqb c "'" then "&#039;"
  else String c EmptyString.

Fixpoint escapeHtml (text : string) : string :=
  match text with
  | EmptyString => EmptyString
  | String c text' => escapeChar c ++ escapeHtml text'
  end.

(** *** [getAllColumnHeaders] (lines 475-489)

    [headerRows] is [document.querySelectorAll('table thead tr')]: the text
    of the [th] cells of every header row of the page. *)
Definition getAllColumnHeaders (headerRows : list (list string)) : list string :=
  fold_left
    (fun allHeaders cells =>
       fold_left
         (fun allHeaders th =>
            let text := trim th in
            if nonEmpty text then Set_add allHeaders text else allHeaders)
         cells allHeaders)
    headerRows [].

(** *** The settings panel (lines 738-827) *)

(** The two filters of lines 766-771. *)
Definition is_lensed_header (h : string) : bool :=
  includes h "%(C)" || includes h "%(D)".

Definition lensedHeaders (allHeaders : list string) : list string :=
  filter is_lensed_header allHeaders.

Definition originalHeaders (allHeaders : list string) : list string :=
  filter (fun h => negb (includes h "%(C)") && negb (includes h "%(D)")) allHeaders.

(** The change handler of a checkbox of an original column (lines 812-826),
    on [INSIGHT_CONFIG.hiddenColumns]. *)
Definition onOriginalCheckbox (hiddenColumns : list string) (header : string)
    (checked : bool) : list string :=
  if checked then filter (fun h => negb (String.eqb h header)) hiddenColumns
  else if existsb (fun h => String.eqb h header) hiddenColumns then hiddenColumns
  else (hiddenColumns ++ [header])%list.

(** *** Settings in [chrome.storage.local] (lines 53-89)

    What [saveSettings] stores under [insightLens]; a key that an older
    version did not store is absent ([None]). *)
Record stored_lensed : Type := {
  s_apptContacts : option bool;
  s_apptCalls : option bool;
  s_lxferContacts : option bool;
  s_lxferCalls : option bool;
  s_successContacts : option bool;
  s_successCalls : option bool
}.

Record stored_settings : Type := {
  s_hiddenColumns : option (list string);
  s_lensedColumns : option stored_lensed
}.

(** The part of [INSIGHT_CONFIG] that the settings change. *)
Record settings : Type := {
  hiddenColumns : list string;
  lensedColumns : INSIGHT_CONFIG.lensedColumns
}.

Definition saveSettings (cfg : settings) : stored_settings :=
  let l := lensedColumns cfg in
  {| s_hiddenColumns := Some (hiddenColumns cfg);
     s_lensedColumns :=
       Some {| s_apptContacts := Some (INSIGHT_CONFIG.apptContacts l);
               s_apptCalls := Some (INSIGHT_CONFIG.apptCalls l);
               s_lxferContacts := Some (INSIGHT_CONFIG.lxferContacts l);
               s_lxferCalls := Some (INSIGHT_CONFIG.lxferCalls l);
               s_successContacts := Some (INSIGHT_CONFIG.successContacts l);
               s_successCalls := Some (INSIGHT_CONFIG.successCalls l) |} |}.

(** [{ ...a, ...b }] on the six switches. *)
Definition spread (a : INSIGHT_CONFIG.lensedColumns) (b : stored_lensed)
  : INSIGHT_CONFIG.lensedColumns :=
  let pick (stored : option bool) (current : bool) :=
    match stored with Some v => v | None => current end in
  {| INSIGHT_CONFIG.apptContacts := pick (s_apptContacts b) (INSIGHT_CONFIG.apptContacts a);
     INSIGHT_CONFIG.apptCalls := pick (s_apptCalls b) (INSIGHT_CONFIG.apptCalls a);
     INSIGHT_CONFIG.lxferContacts := pick (s_lxferContacts b) (INSIGHT_CONFIG.lxferContacts a);
     INSIGHT_CONFIG.lxferCalls := pick (s_lxferCalls b) (INSIGHT_CONFIG.lxferCalls a);
     INSIGHT_CONFIG.successContacts := pick (s_successContacts b) (INSIGHT_CONFIG.successContacts a);
     INSIGHT_CONFIG.successCalls := pick (s_successCalls b) (INSIGHT_CONFIG.successCalls a) |}.

(** [loadSettings]: [result] is [result.insightLens], [None] when nothing is
    stored or the storage fails. *)
Definition loadSettings (cfg : settings) (result : option stored_settings)
  : settings :=
  match result with
  | None => cfg
  | Some insightLens =>
      {| hiddenColumns :=
           match s_hiddenColumns insightLens with
           | Some h => h
           | None => hiddenColumns cfg
           end;
         lensedColumns :=
           match s_lensedColumns insightLens with
           | Some l => spread (lensedColumns cfg) l
           | None => lensedColumns cfg
           end |}
  end.

(** *** The pivot of [populateOverlay] (lines 1219-1288) *)

(** The default [sort()] of strings: ascending, by character codes.  The
    order is total and two strings that are each below the other are equal,
    so the result does not depend on the algorithm; insertion is used. *)
Fixpoint insertString (x : string) (l : list string) : list string :=
  match l with
  | [] => [x]
  | y :: l' => if String.leb x y then x :: l else y :: insertString x l'
  end.

Definition sortStrings (l : list string) : list string :=
  fold_right insertString [] l.

(** Lines 1238-1240: the list names that get a block of columns. *)
Definition pivot_lists (data : aggregation) : list string :=
  sortStrings (filter (fun listName => negb (is_all listName)) (allLists data)).

(** Line 1248. *)
Definition shortName (list : string) : string :=
  if (25 <? String.length list)%nat then substring 0 25 list ++ "..." else list.

Definition metrics : list string :=
  ["Dialed"; "Contacts"; "Contact%"; "APPT"; "APPT%(C)"; "APPT%(D)"; "LXFER";
   "LXFER%(C)"; "LXFER%(D)"; "Success"; "SUCCESS%(C)"; "SUCCESS%(D)"].

(** [.sort((a, b) => b[1].totals.dialed - a[1].totals.dialed)] (lines
    1265-1266): [a] stays before [b] unless the comparator is positive.  With
    finite totals the comparator is consistent and this is the order
    JavaScript gives; with a NaN difference the order is left to the
    engine. *)
Definition compareAgents (a b : string * agentData) : number :=
  sub (counters.dialed (totals (snd b))) (counters.dialed (totals (snd a))).

Fixpoint insertAgent (x : string * agentData) (l : list (string * agentData))
  : list (string * agentData) :=
  match l with
  | [] => [x]
  | y :: l' =>
      if gt (compareAgents x y) zero then y :: insertAgent x l' else x :: l
  end.

Definition sortAgents (l : list (string * agentData)) : list (string * agentData) :=
  fold_right insertAgent [] l.

(** The tuple shown for a list: that of the agent, or zeros (line 1277). *)
Definition listDataOr (d : agentData) (listName : string) : counters.t :=
  match Map_get (lists d) listName with
  | Some listData => listData
  | None => counters.zeros
  end.

(** The text of the cells of a body row (lines 1268-1282). *)
Definition pivot_row (lists : list string) (agent : string * agentData)
  : list string :=
  escapeHtml (fst agent)
  :: (renderMetricCells (totals (snd agent)) false
      ++ flat_map (fun listName => renderMetricCells (listDataOr (snd agent) listName) true)
                  lists)%list.

(** What [populateOverlay] writes in the table of the overlay: the first
    header row (each name but Agent spans the twelve metrics), the second
    header row and the body rows.  [None] when no agent is found. *)
Record pivot : Type := {
  header1 : list string;
  header2 : list string;
  body : list (list string)
}.

Definition populateOverlay (page : list table) : option pivot :=
  let data := extractAllTableData page in
  if (List.length (agents data) =? 0)%nat then None
  else
    let lists := pivot_lists data in
    Some {| header1 := "Agent" :: "TOTALS"
                       :: map (fun list => escapeHtml (shortName list)) lists;
            header2 := (metrics ++ flat_map (fun _ => metrics) lists)%list;
            body := map (pivot_row lists) (sortAgents (agents data)) |}.

(** *** The document when the overlay is open

    [populateOverlay] runs from [showOverlay] and from the Refresh button of
    the overlay, [exportCSV] from its Export button (line 1008): the document
    that [extractAllTableData] then reads holds the table of the overlay
    after the tables of the page.  [createOverlayDashboard] creates it with
    an empty [thead] (lines 996-999).  Once filled, its first header row is
    Agent, TOTALS and the short names of the lists, and a body row is the
    name of an agent followed by its metric cells.  The text of a cell
    written through [escapeHtml] is taken to read back as the text that was
    escaped. *)
Definition overlay_row (lists : list string) (agent : string * agentData)
  : list string :=
  fst agent
  :: (renderMetricCells (totals (snd agent)) false
      ++ flat_map (fun listName => renderMetricCells (listDataOr (snd agent) listName) true)
                  lists)%list.

Definition overlay_table (data : aggregation) : table :=
  {| thead := Some ("Agent" :: "TOTALS" :: map shortName (pivot_lists data));
     tbody := map (overlay_row (pivot_lists data)) (sortAgents (agents data)) |}.

Definition overlay_created : table := {| thead := None; tbody := [] |}.

(** One call of [populateOverlay] with the overlay in the document: the
    table of the overlay is left as it was when no agent is found (lines
    1232-1235). *)
Definition populateOverlay_on (page : list table) (overlay : table) : table :=
  let data := extractAllTableData (page ++ [overlay]) in
  if (List.length (agents data) =? 0)%nat then overlay else overlay_table data.

(** The table of the overlay after [n] calls of [populateOverlay]. *)
Fixpoint overlay_after (n : nat) (page : list table) : table :=
  match n with
  | O => overlay_created
  | S n' => populateOverlay_on page (overlay_after n' page)
  end.

(** No header of the table resolves the list role. *)
Definition no_list_role (t : table) : Prop :=
  match thead t with
  | Some headerCells =>
      listIdx (resolve_roles (map (fun th => toLowerCase (trim th)) headerCells))
      = -1
  | None => True
  end.

(** No list name, as the header of the pivot shows it, contains the word
    list. *)
Definition no_list_in_names (data : aggregation) : bool :=
  forallb (fun l => negb (includes (toLowerCase (trim (shortName l))) "list"))
          (pivot_lists data).

(** A list whose name contains the word. *)
Definition table_list_a : table :=
  {| thead := Some ["User"; "List"; "Dialed"];
     tbody := [["Alice"; "List A"; "40"]] |}.

(** The four characters that open or close markup or an attribute value. *)
Definition is_markup (c : ascii) : bool :=
  Ascii.eqb c "<" || Ascii.eqb c ">" || Ascii.eqb c dquote_char || Ascii.eqb c "'".

Fixpoint string_forallb (p : ascii -> bool) (s : string) : bool :=
  match s with
  | EmptyString => true
  | String c s' => p c && string_forallb p s'
  end.

(** The five counters of a tuple are finite. *)
Definition counters_finite (c : counters.t) : Prop :=
  isFinite (counters.dialed c) = true
  /\ isFinite (counters.contacts c) = true
  /\ isFinite (counters.appt c) = true
  /\ isFinite (counters.lxfer c) = true
  /\ isFinite (counters.success c) = true.

(** Every tuple of the aggregation is finite. *)
Definition aggregation_finite (data : aggregation) : Prop :=
  forall agentName d, In (agentName, d) (agents data) ->
    counters_finite (totals d)
    /\ forall listName listData, In (listName, listData) (lists d) ->
                                 counters_finite listData.

(** The list names of the set are those of the lists of the agents. *)
Definition lists_are_seen (data : aggregation) : Prop :=
  NoDup (allLists data)
  /\ forall listName,
       In listName (allLists data)
       <-> exists agentName d, In (agentName, d) (agents data)
                               /\ In listName (map fst (lists d)).

(** The twelve cells shown for a list in the row of an agent. *)
Definition pivot_block (d : agentData) (listName : string) : list string :=
  renderMetricCells (listDataOr d listName) true.

(** [a] may stand before [b]: [b] has not dialed more than [a]. *)
Definition dialed_descending (a b : string * agentData) : Prop :=
  exists qa qb,
    counters.dialed (totals (snd a)) = Fin qa
    /\ counters.dialed (totals (snd b)) = Fin qb
    /\ (qb <= qa)%Qc.

Definition table_two_agents : table :=
  {| thead := Some ["User"; "List"; "Dialed"; "Contacts"];
     tbody := [["Alice"; "Sales"; "10"; "4"]; ["Bob"; "Sales"; "30"; "3"];
               ["Alice"; "Renewals"; "5"; "1"]] |}.

(** *** The cells of the page, with their class and their display

    [insight_calc_col] tells whether the class of the cell holds
    [insight-calc-col], [text_of] is its [innerText] and [display_none] tells
    whether its [style.display] is ['none'].  The text of a cell is taken to
    be the same whether the cell is displayed or not. *)
Record element : Type := {
  insight_calc_col : bool;
  text_of : string;
  display_none : bool
}.

(** A table of the page: the [th] of the first header row ([None] when
    [table.querySelector('thead tr')] finds nothing) and the [td] of each
    body row. *)
Record dom_table : Type := {
  dom_thead : option (list element);
  dom_tbody : list (list element)
}.

(** The table of the texts, as [processTable] and [extractAllTableData] read
    it. *)
Definition texts_of_table (t : dom_table) : table :=
  {| thead := option_map (map text_of) (dom_thead t);
     tbody := map (map text_of) (dom_tbody t) |}.

(** The cell of lines 296-301 and 320-325: [document.createElement], then
    [innerText] and [className]; the style that is set has no [display]. *)
Definition createElement (text : string) : element :=
  {| insight_calc_col := true; text_of := text; display_none := false |}.

(** The element that a cell of a live row stands for: the element of the
    array taken before the insertions, or the one the script created. *)
Definition element_of (cells : list element) (c : cell) : element :=
  match origin c with
  | Some i =>
      match at_index cells i with
      | Some e => e
      | None => createElement (innerText c)
      end
  | None => createElement (innerText c)
  end.

Definition inject_header_dom (insertions : list insertion)
    (headerCells : list element) : list element :=
  map (element_of headerCells)
      (inject_header_live insertions (map text_of headerCells)).

Definition inject_row_dom (insertions : list insertion) (cells : list element)
  : list element :=
  if (List.length cells =? 0)%nat then cells
  else map (element_of cells) (inject_row_live insertions (map text_of cells)).

(** [processTable] (lines 146-337) on the cells of the page. *)
Definition processTable_dom (cfg : INSIGHT_CONFIG.lensedColumns)
    (t : dom_table) (columnsInjected : bool) : dom_table * bool :=
  match dom_thead t with
  | None => (t, columnsInjected)
  | Some headerCells =>
      let headers := map (fun th => trim (text_of th)) headerCells in
      if already_injected headers then (t, columnsInjected)
      else
        let contactsIdx := findColumnIndex headers INSIGHT_CONFIG.columns.contacts in
        let apptIdx := findColumnIndex headers INSIGHT_CONFIG.columns.appt in
        let lxferIdx := findColumnIndex headers INSIGHT_CONFIG.columns.lxfer in
        let successIdx := findColumnIndex headers INSIGHT_CONFIG.columns.success in
        let dialedIdx := findColumnIndex headers INSIGHT_CONFIG.columns.dialed in
        if (contactsIdx =? -1) && (dialedIdx =? -1) then (t, columnsInjected)
        else
          let insertions :=
            build_insertions cfg contactsIdx apptIdx lxferIdx successIdx dialedIdx in
          if (List.length insertions =? 0)%nat then (t, columnsInjected)
          else
            let insertions := sort_desc insertions in
            ({| dom_thead := Some (inject_header_dom insertions headerCells);
                dom_tbody := map (inject_row_dom insertions) (dom_tbody t) |},
             true)
  end.

(** *** Column visibility (lines 363-470) *)

(** The names that every object inherits from [Object.prototype]; the value
    found under each of them is a function or an object. *)
Definition Object_prototype : list string :=
  ["constructor"; "__defineGetter__"; "__defineSetter__"; "hasOwnProperty";
   "__lookupGetter__"; "__lookupSetter__"; "isPrototypeOf";
   "propertyIsEnumerable"; "toString"; "valueOf"; "__proto__";
   "toLocaleString"].

(** What [object[name]] finds in an object literal whose own values are
    strings. *)
Inductive property : Type :=
| own (v : string)
| inherited
| absent.

Definition lookup (literal : list (string * string)) (name : string) : property :=
  match Map_get literal name with
  | Some v => own v
  | None =>
      if existsb (String.eqb name) Object_prototype then inherited else absent
  end.

(** Lines 371-378. *)
Definition lensedHeaderMap : list (string * string) :=
  [("APPT%(C)", "apptContacts"); ("APPT%(D)", "apptCalls");
   ("LXFER%(C)", "lxferContacts"); ("LXFER%(D)", "lxferCalls");
   ("SUCCESS%(C)", "successContacts"); ("SUCCESS%(D)", "successCalls")].

(** Lines 413-420. *)
Definition headerMap : list (string * string) :=
  [("apptContacts", "APPT%(C)"); ("apptCalls", "APPT%(D)");
   ("lxferContacts", "LXFER%(C)"); ("lxferCalls", "LXFER%(D)");
   ("successContacts", "SUCCESS%(C)"); ("successCalls", "SUCCESS%(D)")].

(** [INSIGHT_CONFIG.lensedColumns[key]], for the six keys. *)
Definition lensedColumns_get (l : INSIGHT_CONFIG.lensedColumns) (key : string)
  : option bool :=
  if String.eqb key "apptContacts" then Some (INSIGHT_CONFIG.apptContacts l)
  else if String.eqb key "apptCalls" then Some (INSIGHT_CONFIG.apptCalls l)
  else if String.eqb key "lxferContacts" then Some (INSIGHT_CONFIG.lxferContacts l)
  else if String.eqb key "lxferCalls" then Some (INSIGHT_CONFIG.lxferCalls l)
  else if String.eqb key "successContacts" then Some (INSIGHT_CONFIG.successContacts l)
  else if String.eqb key "successCalls" then Some (INSIGHT_CONFIG.successCalls l)
  else None.

(** [INSIGHT_CONFIG.lensedColumns[key] = value], for the six keys; the record
    holds no other key. *)
Definition lensedColumns_set (l : INSIGHT_CONFIG.lensedColumns) (key : string)
    (value : bool) : INSIGHT_CONFIG.lensedColumns :=
  let pick (name : string) (current : bool) :=
    if String.eqb key name then value else current in
  {| INSIGHT_CONFIG.apptContacts := pick "apptContacts" (INSIGHT_CONFIG.apptContacts l);
     INSIGHT_CONFIG.apptCalls := pick "apptCalls" (INSIGHT_CONFIG.apptCalls l);
     INSIGHT_CONFIG.lxferContacts := pick "lxferContacts" (INSIGHT_CONFIG.lxferContacts l);
     INSIGHT_CONFIG.lxferCalls := pick "lxferCalls" (INSIGHT_CONFIG.lxferCalls l);
     INSIGHT_CONFIG.successContacts := pick "successContacts" (INSIGHT_CONFIG.successContacts l);
     INSIGHT_CONFIG.successCalls := pick "successCalls" (INSIGHT_CONFIG.successCalls l) |}.

(** Lines 381-394: [isHidden] for a header text.  A value inherited from
    [Object.prototype] is truthy and, as a key of [lensedColumns], names no
    switch: [!undefined] is [true]. *)
Definition isHidden (cfg : settings) (headerText : string) : bool :=
  match lookup lensedHeaderMap headerText with
  | own lensedKey =>
      match lensedColumns_get (lensedColumns cfg) lensedKey with
      | Some visible => negb visible
      | None => true
      end
  | inherited => true
  | absent => existsb (String.eqb headerText) (hiddenColumns cfg)
  end.

Definition set_display (none : bool) (e : element) : element :=
  {| insight_calc_col := insight_calc_col e;
     text_of := text_of e;
     display_none := none |}.

(** [if (cells[colIndex]) cells[colIndex].style.display = ...]. *)
Fixpoint update_at {A : Type} (colIndex : nat) (f : A -> A) (cells : list A)
  : list A :=
  match cells, colIndex with
  | [], _ => []
  | c :: cells', O => f c :: cells'
  | c :: cells', S i => c :: update_at i f cells'
  end.

(** Lines 396-405, 436-444 and 459-467: the display of the header cell and of
    the cell of each body row at [colIndex]. *)
Definition set_column (colIndex : nat) (none : bool) (t : dom_table) : dom_table :=
  {| dom_thead := option_map (update_at colIndex (set_display none)) (dom_thead t);
     dom_tbody := map (update_at colIndex (set_display none)) (dom_tbody t) |}.

(** The arguments of the callback of [headerCells.forEach]. *)
Fixpoint indexed_from {A : Type} (i : nat) (l : list A) : list (nat * A) :=
  match l with
  | [] => []
  | x :: l' => (i, x) :: indexed_from (S i) l'
  end.

(** [applyColumnVisibility] (lines 363-406). *)
Definition applyColumnVisibility (cfg : settings) (t : dom_table) : dom_table :=
  match dom_thead t with
  | None => t
  | Some headerCells =>
      fold_left
        (fun t' entry =>
           let th := snd entry in
           let headerText := trim (text_of th) in
           set_column (fst entry) (isHidden cfg headerText) t')
        (indexed_from 0 headerCells) t
  end.

(** The loop of lines 425-446 and of lines 451-469 on one table. *)
Definition show_columns (headerText : string) (isVisible : bool) (t : dom_table)
  : dom_table :=
  match dom_thead t with
  | None => t
  | Some headerCells =>
      fold_left
        (fun t' entry =>
           let th := snd entry in
           if String.eqb (trim (text_of th)) headerText
           then set_column (fst entry) (negb isVisible) t'
           else t')
        (indexed_from 0 headerCells) t
  end.

(** [applyLensedColumnVisibility] (lines 411-445).  An inherited value is not
    a string: no header text is [===] to it. *)
Definition applyLensedColumnVisibility (key : string) (isVisible : bool)
    (page : list dom_table) : list dom_table :=
  match lookup headerMap key with
  | own headerText => map (show_columns headerText isVisible) page
  | inherited => page
  | absent => page
  end.

(** [applyOriginalColumnVisibility] (lines 450-470). *)
Definition applyOriginalColumnVisibility (headerText : string) (isVisible : bool)
    (page : list dom_table) : list dom_table :=
  map (show_columns headerText isVisible) page.

(** The change handler of a checkbox of a lensed column (lines 802-809): the
    settings and the page after it. *)
Definition onLensedCheckbox (cfg : settings) (key : string) (checked : bool)
    (page : list dom_table) : settings * list dom_table :=
  ({| hiddenColumns := hiddenColumns cfg;
      lensedColumns := lensedColumns_set (lensedColumns cfg) key checked |},
   applyLensedColumnVisibility key checked page).

(** The change handler of a checkbox of an original column (lines 812-826). *)
Definition onOriginalCheckbox_page (cfg : settings) (header : string)
    (checked : bool) (page : list dom_table) : settings * list dom_table :=
  ({| hiddenColumns := onOriginalCheckbox (hiddenColumns cfg) header checked;
      lensedColumns := lensedColumns cfg |},
   applyOriginalColumnVisibility header checked page).

(** *** Scan, removal and refresh *)

(** The state that the passes change: [INSIGHT_CONFIG.enabled], the settings,
    the global [columnsInjected] and the tables of the page. *)
Record lens : Type := {
  lens_enabled : bool;
  lens_settings : settings;
  lens_columnsInjected : bool;
  lens_tables : list dom_table
}.

(** The loop of [scanAndInject] (lines 348-354). *)
Fixpoint scan_tables (cfg : settings) (page : list dom_table)
    (columnsInjected : bool) : list dom_table * bool :=
  match page with
  | [] => ([], columnsInjected)
  | t :: page' =>
      let processed := processTable_dom (lensedColumns cfg) t columnsInjected in
      let rest := scan_tables cfg page' (snd processed) in
      (applyColumnVisibility cfg (fst processed) :: fst rest, snd rest)
  end.

(** [scanAndInject] (lines 342-358). *)
Definition scanAndInject (st : lens) : lens :=
  if negb (lens_enabled st) then st
  else
    let scanned :=
      scan_tables (lens_settings st) (lens_tables st) (lens_columnsInjected st) in
    {| lens_enabled := lens_enabled st;
       lens_settings := lens_settings st;
       lens_columnsInjected := snd scanned;
       lens_tables := fst scanned |}.

(** The cell is not matched by the selector [.insight-calc-col]. *)
Definition not_calc (e : element) : bool := negb (insight_calc_col e).

(** What the removal of the matched cells leaves of a table. *)
Definition remove_calc (t : dom_table) : dom_table :=
  {| dom_thead := option_map (filter not_calc) (dom_thead t);
     dom_tbody := map (filter not_calc) (dom_tbody t) |}.

(** [removeInjectedColumns] (lines 643-646). *)
Definition removeInjectedColumns (st : lens) : lens :=
  {| lens_enabled := lens_enabled st;
     lens_settings := lens_settings st;
     lens_columnsInjected := false;
     lens_tables := map remove_calc (lens_tables st) |}.

(** [toggleInsightLens] (lines 601-614). *)
Definition toggleInsightLens (st : lens) : lens :=
  let st' := {| lens_enabled := negb (lens_enabled st);
                lens_settings := lens_settings st;
                lens_columnsInjected := lens_columnsInjected st;
                lens_tables := lens_tables st |} in
  if lens_enabled st' then scanAndInject st' else removeInjectedColumns st'.

(** The action [refresh] of the message handler (lines 949-953). *)
Definition refresh (st : lens) : lens :=
  scanAndInject (removeInjectedColumns st).

(** [applySettingsFromPanel] (lines 877-909), from the settings read in the
    panel. *)
Definition applySettingsFromPanel (panel : settings) (st : lens) : lens :=
  let st1 := {| lens_enabled := lens_enabled st;
                lens_settings := panel;
                lens_columnsInjected := lens_columnsInjected st;
                lens_tables := lens_tables st |} in
  let st2 := scanAndInject (removeInjectedColumns st1) in
  {| lens_enabled := lens_enabled st2;
     lens_settings := lens_settings st2;
     lens_columnsInjected := lens_columnsInjected st2;
     lens_tables := map (applyColumnVisibility panel) (lens_tables st2) |}.

(** No cell of the table has the class [insight-calc-col]. *)
Definition pristine (t : dom_table) : Prop :=
  (forall headerCells, dom_thead t = Some headerCells ->
                       forallb not_calc headerCells = true)
  /\ forall cells, In cells (dom_tbody t) -> forallb not_calc cells = true.

(** The display that [applyColumnVisibility] leaves in a row: that of the
    header above the cell, and the one the cell had past the last header. *)
Fixpoint displayed_by (cfg : settings) (headerCells cells : list element)
  : list element :=
  match headerCells, cells with
  | th :: headerCells', c :: cells' =>
      set_display (isHidden cfg (trim (text_of th))) c
      :: displayed_by cfg headerCells' cells'
  | _, _ => cells
  end.

(** The display left in a row by a loop over the header cells that sets the
    display of the column of a header when [decide] gives one for it. *)
Fixpoint displayed_with (decide : element -> option bool)
    (headerCells cells : list element) : list element :=
  match headerCells, cells with
  | th :: headerCells', c :: cells' =>
      match decide th with
      | Some none => set_display none c
      | None => c
      end :: displayed_with decide headerCells' cells'
  | _, _ => cells
  end.

(** The six keys of [INSIGHT_CONFIG.lensedColumns]. *)
Definition lensed_keys : list string := map fst headerMap.

Definition table_hidden_list : dom_table :=
  {| dom_thead :=
       Some [ {| insight_calc_col := false; text_of := "User"; display_none := false |};
              {| insight_calc_col := false; text_of := " List "; display_none := true |};
              {| insight_calc_col := false; text_of := "Dialed"; display_none := true |};
              {| insight_calc_col := false; text_of := "APPT"; display_none := false |} ];
     dom_tbody :=
       [ [ {| insight_calc_col := false; text_of := "Alice"; display_none := false |};
           {| insight_calc_col := false; text_of := "Sales"; display_none := true |};
           {| insight_calc_col := false; text_of := "100"; display_none := true |};
           {| insight_calc_col := false; text_of := "10"; display_none := false |} ];
         [ {| insight_calc_col := false; text_of := "Bob"; display_none := false |};
           {| insight_calc_col := false; text_of := "Sales"; display_none := true |} ] ] |}.

Definition settings_hidden_list : settings :=
  {| hiddenColumns := ["List"]; lensedColumns := INSIGHT_CONFIG.defaults |}.

(** The sorted insertions that [processTable] applies to a table with these
    header texts; [None] when it leaves the table as it is (lines 150-290). *)
Definition injection_plan (cfg : INSIGHT_CONFIG.lensedColumns)
    (headerTexts : list string) : option (list insertion) :=
  let headers := map trim headerTexts in
  if already_injected headers then None
  else
    let contactsIdx := findColumnIndex headers INSIGHT_CONFIG.columns.contacts in
    let apptIdx := findColumnIndex headers INSIGHT_CONFIG.columns.appt in
    let lxferIdx := findColumnIndex headers INSIGHT_CONFIG.columns.lxfer in
    let successIdx := findColumnIndex headers INSIGHT_CONFIG.columns.success in
    let dialedIdx := findColumnIndex headers INSIGHT_CONFIG.columns.dialed in
    if (contactsIdx =? -1) && (dialedIdx =? -1) then None
    else
      let insertions :=
        build_insertions cfg contactsIdx apptIdx lxferIdx successIdx dialedIdx in
      if (List.length insertions =? 0)%nat then None
      else Some (sort_desc insertions).

(** A cell of the class as the script creates it, any other cell as it is. *)
Definition as_created (e : element) : element :=
  if insight_calc_col e then createElement (text_of e) else e.

Definition dom_scenario1 : dom_table :=
  {| dom_thead :=
       Some (map (fun s => {| insight_calc_col := false; text_of := s;
                              display_none := false |})
                 ["User"; "List"; "Dialed"; "Contacts"; "Status 'APPT";
                  "LXFER"; "All Success"]);
     dom_tbody :=
       [map (fun s => {| insight_calc_col := false; text_of := s;
                         display_none := false |})
            ["Alice"; "Sales"; "100"; "40"; "10"; "5"; "30"]] |}.

Definition settings_no_appt_calls : settings :=
  {| hiddenColumns := ["List"];
     lensedColumns :=
       {| INSIGHT_CONFIG.apptContacts := true; INSIGHT_CONFIG.apptCalls := false;
          INSIGHT_CONFIG.lxferContacts := true; INSIGHT_CONFIG.lxferCalls := true;
          INSIGHT_CONFIG.successContacts := true;
          INSIGHT_CONFIG.successCalls := true |} |}.

Definition lens_scenario1 : lens :=
  {| lens_enabled := true;
     lens_settings := settings_no_appt_calls;
     lens_columnsInjected := false;
     lens_tables := [dom_scenario1; table_hidden_list] |}.

Definition table_constructor : dom_table :=
  {| dom_thead :=
       Some [ {| insight_calc_col := false; text_of := "constructor";
                 display_none := false |} ];
     dom_tbody :=
       [ [ {| insight_calc_col := false; text_of := "x"; display_none := false |} ] ] |}.

(** *** The checkboxes of the settings panel (lines 832-895)

    A checkbox: its [data-key] or [data-header] and whether it is checked.
    [dataset.header] is taken to give back the header that
    [buildOriginalCheckboxes] escaped into the attribute. *)
Record checkbox : Type := {
  cb_data : string;
  cb_checked : bool
}.

(** The keys of [lensedItems] (lines 833-840). *)
Definition lensedItems : list string :=
  ["apptContacts"; "apptCalls"; "lxferContacts"; "lxferCalls";
   "successContacts"; "successCalls"].

(** [buildLensedCheckboxes] (lines 832-852). *)
Definition buildLensedCheckboxes (l : INSIGHT_CONFIG.lensedColumns) : list checkbox :=
  map (fun key =>
         {| cb_data := key;
            cb_checked := match lensedColumns_get l key with
                          | Some visible => visible
                          | None => false
                          end |})
      lensedItems.

(** [buildOriginalCheckboxes] (lines 857-872); no checkbox when there is no
    header. *)
Definition buildOriginalCheckboxes (hidden headers : list string) : list checkbox :=
  map (fun header =>
         {| cb_data := header;
            cb_checked := negb (existsb (String.eqb header) hidden) |})
      headers.

Record panel : Type := {
  lensed_checkboxes : list checkbox;
  original_checkboxes : list checkbox
}.

(** [createSettingsPanel] (lines 738-829): the checkboxes, from the header
    rows of the page. *)
Definition createSettingsPanel (cfg : settings) (headerRows : list (list string))
  : panel :=
  let allHeaders := getAllColumnHeaders headerRows in
  {| lensed_checkboxes := buildLensedCheckboxes (lensedColumns cfg);
     original_checkboxes :=
       buildOriginalCheckboxes (hiddenColumns cfg) (originalHeaders allHeaders) |}.

(** Lines 881-894 of [applySettingsFromPanel]: the settings read from the
    checkboxes. *)
Definition collectSettings (p : panel) (cfg : settings) : settings :=
  {| hiddenColumns :=
       map cb_data (filter (fun cb => negb (cb_checked cb)) (original_checkboxes p));
     lensedColumns :=
       fold_left (fun l cb => lensedColumns_set l (cb_data cb) (cb_checked cb))
                 (lensed_checkboxes p) (lensedColumns cfg) |}.

(** Some cell of the table has the class [insight-calc-col]. *)
Definition has_calc (t : dom_table) : bool :=
  match dom_thead t with
  | Some headerCells => existsb insight_calc_col headerCells
  | None => false
  end
  || existsb (existsb insight_calc_col) (dom_tbody t).

(** *** Whole counts

    The five counters of a tuple. *)
Definition counter_fields : list (counters.t -> number) :=
  [counters.dialed; counters.contacts; counters.appt; counters.lxfer;
   counters.success].

(** The whole number that [x] holds, when it holds one. *)
Definition count_of (x : number) : Z :=
  match x with Fin q => Qfloor q | _ => 0 end.

(** [x] is a whole number from 0 to [bound]. *)
Definition is_count (bound : Z) (x : number) : Prop :=
  x = ofZ (count_of x) /\ 0 <= count_of x <= bound.

Definition counters_within (bound : Z) (c : counters.t) : Prop :=
  forall field, In field counter_fields -> is_count bound (field c).

(** The counters that the extraction reads from the body rows of the page
    are whole numbers from 0 to [bound], and [bound] times the number of
    body rows is below 2^53: no sum of them is rounded. *)
Definition whole_counts (bound : Z) (page : list table) : Prop :=
  (forall t headerCells cells,
      In t page -> thead t = Some headerCells -> In cells (tbody t) ->
      counters_within bound
        (rowCounters
           (resolve_roles (map (fun th => toLowerCase (trim th)) headerCells))
           cells))
  /\ 0 <= bound
  /\ bound * Z.of_nat (List.length (flat_map tbody page)) < 2 ^ 53.

(** The same, as tests that can be run on a page. *)
Definition is_count_b (bound : Z) (x : number) : bool :=
  match x with
  | Fin q =>
      Qeq_bool q (inject_Z (Qfloor q)) && (0 <=? Qfloor q) && (Qfloor q <=? bound)
  | _ => false
  end.

Definition counters_within_b (bound : Z) (c : counters.t) : bool :=
  forallb (fun field => is_count_b bound (field c)) counter_fields.

Definition whole_counts_b (bound : Z) (page : list table) : bool :=
  forallb
    (fun t =>
       match thead t with
       | Some headerCells =>
           forallb
             (fun cells =>
                counters_within_b bound
                  (rowCounters
                     (resolve_roles
                        (map (fun th => toLowerCase (trim th)) headerCells))
                     cells))
             (tbody t)
       | None => true
       end)
    page
  && (0 <=? bound)
  && (bound * Z.of_nat (List.length (flat_map tbody page)) <? 2 ^ 53).

(** The sum of a counter over the lists of an agent, as whole numbers. *)
Definition sum_counts (field : counters.t -> number)
    (ls : list (string * counters.t)) : Z :=
  fold_right (fun entry acc => count_of (field (snd entry)) + acc) 0 ls.

(** Every counter of the aggregation is a whole number up to [bound], and
    the totals of an agent hold the sums of its lists. *)
Definition exact_totals (bound : Z) (data : aggregation) : Prop :=
  forall agentName d, In (agentName, d) (agents data) ->
    counters_within bound (totals d)
    /\ (forall listName c, In (listName, c) (lists d) -> counters_within bound c)
    /\ (forall field, In field counter_fields ->
          count_of (field (totals d)) = sum_counts field (lists d)).

(** [x === y] on numbers. *)
Definition strict_eq (x y : number) : bool :=
  match x, y with
  | Fin a, Fin b => Qc_eqb a b
  | Inf nx, Inf ny => Bool.eqb nx ny
  | _, _ => false
  end.

(** An agent with the rows 0.1 and 0.1 on one list, and 0.4 on another
    between them. *)
Definition table_fractions : table :=
  {| thead := Some ["Agent"; "List"; "Dialed"];
     tbody := [["Bob"; "A"; "0.1"]; ["Bob"; "B"; "0.4"]; ["Bob"; "A"; "0.1"]] |}.

(* ================================================================== *)
(** ** Arithmetic of [number] *)
(* ================================================================== *)

Lemma add_comm (x y : number) : add x y = add y x.
Proof.
  destruct x as [|nx|a], y as [|ny|b]; try reflexivity.
  - destruct nx, ny; reflexivity.
  - cbn [add]. now rewrite Qcplus_comm.
Qed.

Lemma this_ofZ (z : Z) : this (Q2Qc (inject_Z z)) = inject_Z z.
Proof.
  cbn [Q2Qc this]. apply Qred_identity. cbn [inject_Z Qnum Qden].
  apply Z.gcd_1_r.
Qed.

Lemma nearest_even_whole (n : Z) : nearest_even n 1 = n.
Proof.
  unfold nearest_even. rewrite Z.mod_1_r, Z.div_1_r. reflexivity.
Qed.

(** A whole number below 2^53 in magnitude is a value of binary64. *)
Lemma round64_whole (z : Z) :
  Z.abs z < 2 ^ 53 -> round64 (Q2Qc (inject_Z z)) = ofZ z.
Proof.
  intros Hz. unfold round64. rewrite this_ofZ. cbn [inject_Z Qnum Qden].
  destruct (Z.abs z =? 0) eqn:E0.
  - apply Z.eqb_eq in E0. assert (Ez : z = 0) by lia. subst z. reflexivity.
  - apply Z.eqb_neq in E0.
    assert (Hpos : 0 < Z.abs z) by lia.
    set (n := Z.abs z) in *.
    assert (HL : 0 <= Z.log2 n) by apply Z.log2_nonneg.
    destruct (Z.log2_spec n Hpos) as [Hlo Hhi].
    assert (HL53 : Z.log2 n < 53) by (apply Z.log2_lt_pow2; assumption).
    assert (Hfl : floor_log2 n 1 = Z.log2 n).
    { unfold floor_log2. change (Z.log2 1) with 0. rewrite Z.sub_0_r.
      destruct (Z.log2 n <? 0) eqn:El; [apply Z.ltb_lt in El; lia|].
      rewrite Z.mul_1_l.
      destruct (2 ^ Z.log2 n <=? n) eqn:Ec; [reflexivity|].
      apply Z.leb_gt in Ec. lia. }
    rewrite Hfl. rewrite Z.max_l by lia.
    destruct (52 - Z.log2 n <? 0) eqn:Ek; [apply Z.ltb_lt in Ek; lia|].
    rewrite nearest_even_whole. unfold ofZ. f_equal.
    apply Qc_is_canon. cbn [Q2Qc this]. rewrite !Qred_correct.
    assert (Hp : 0 < 2 ^ (52 - Z.log2 n)) by (apply Z.pow_pos_nonneg; lia).
    unfold Qeq. cbn [Qnum Qden inject_Z]. rewrite Z2Pos.id by exact Hp.
    set (P := 2 ^ (52 - Z.log2 n)) in *. clearbody P.
    destruct (z <? 0) eqn:Es.
    + apply Z.ltb_lt in Es. unfold n. rewrite Z.abs_neq by lia. lia.
    + apply Z.ltb_ge in Es. unfold n. rewrite Z.abs_eq by lia. lia.
Qed.

Lemma ofZ_plus (a b : Z) :
  (Q2Qc (inject_Z a) + Q2Qc (inject_Z b))%Qc = Q2Qc (inject_Z (a + b)).
Proof.
  apply Qc_is_canon. unfold Qcplus. cbn [Q2Qc this]. rewrite !Qred_correct.
  unfold Qeq, Qplus. cbn [Qnum Qden inject_Z]. change (Z.pos (1 * 1)) with 1. lia.
Qed.

Lemma ofZ_minus (a b : Z) :
  (Q2Qc (inject_Z a) - Q2Qc (inject_Z b))%Qc = Q2Qc (inject_Z (a - b)).
Proof.
  apply Qc_is_canon. unfold Qcminus, Qcplus, Qcopp. cbn [Q2Qc this].
  rewrite !Qred_correct.
  unfold Qeq, Qplus, Qopp. cbn [Qnum Qden inject_Z]. change (Z.pos (1 * 1)) with 1. lia.
Qed.

(** The sum of two whole numbers is exact when it is below 2^53. *)
Lemma add_whole (a b : Z) :
  Z.abs (a + b) < 2 ^ 53 -> add (ofZ a) (ofZ b) = ofZ (a + b).
Proof.
  intros H. unfold ofZ at 1 2. cbn [add]. rewrite ofZ_plus.
  now apply round64_whole.
Qed.

Lemma sub_whole (a b : Z) :
  Z.abs (a - b) < 2 ^ 53 -> sub (ofZ a) (ofZ b) = ofZ (a - b).
Proof.
  intros H. unfold ofZ at 1 2. cbn [sub]. rewrite ofZ_minus.
  now apply round64_whole.
Qed.

Lemma nearest_even_bounds (n d : Z) :
  0 <= n -> 0 < d -> 0 <= nearest_even n d /\ nearest_even n d * d <= n + d.
Proof.
  intros Hn Hd. unfold nearest_even.
  pose proof (Z.div_mod n d ltac:(lia)) as E.
  pose proof (Z.mod_pos_bound n d Hd) as Hr.
  assert (Hf : 0 <= n / d) by (apply Z.div_pos; lia).
  set (f := n / d) in *. set (r := n mod d) in *. clearbody f r.
  destruct (2 * r ?= d); [destruct (Z.even f)| |]; nia.
Qed.

Lemma floor_log2_le (n d : Z) :
  0 < n -> 0 < d -> 0 <= floor_log2 n d -> 2 ^ floor_log2 n d * d <= n.
Proof.
  intros Hn Hd. unfold floor_log2.
  destruct (Z.log2_spec n Hn) as [Hn1 Hn2].
  destruct (Z.log2_spec d Hd) as [Hd1 Hd2].
  assert (Ln : 0 <= Z.log2 n) by apply Z.log2_nonneg.
  assert (Ld : 0 <= Z.log2 d) by apply Z.log2_nonneg.
  set (e := Z.log2 n - Z.log2 d).
  destruct (e <? 0) eqn:Ee.
  - apply Z.ltb_lt in Ee.
    destruct (d <=? n * 2 ^ (- e)); intros H; lia.
  - apply Z.ltb_ge in Ee.
    destruct (d * 2 ^ e <=? n) eqn:Et.
    + apply Z.leb_le in Et. intros _. lia.
    + intros H.
      assert (Hp : 2 ^ Z.log2 n = 2 ^ (e - 1) * 2 ^ Z.succ (Z.log2 d)).
      { rewrite <- Z.pow_add_r by lia. f_equal. unfold e. lia. }
      assert (Hq : 0 < 2 ^ (e - 1)) by (apply Z.pow_pos_nonneg; lia).
      nia.
Qed.

(** A number below 2^j in magnitude, for j from 0 to 1022, is rounded to a
    finite number below 2^(j+1). *)
Lemma round64_bounded (q : Q) (j : Z) :
  0 <= j < 1023 -> (Qabs q < inject_Z (2 ^ j))%Q ->
  exists v : Qc, round64 q = Fin v /\ (Qabs v < inject_Z (2 ^ (j + 1)))%Q.
Proof.
  intros Hj Hq.
  assert (Hn : Z.abs (Qnum q) < 2 ^ j * Zpos (Qden q)).
  { unfold Qlt in Hq. destruct q as [qn qd]. cbn [Qabs Qnum Qden inject_Z] in Hq |- *.
    lia. }
  assert (P2 : 2 ^ (j + 1) = 2 * 2 ^ j).
  { rewrite Z.pow_add_r by lia. lia. }
  assert (Pj : 0 < 2 ^ j) by (apply Z.pow_pos_nonneg; lia).
  unfold round64. set (n := Z.abs (Qnum q)) in *. set (d := Zpos (Qden q)) in *.
  assert (Hd : 0 < d) by (unfold d; lia).
  destruct (n =? 0) eqn:E0.
  { exists 0%Qc. split; [reflexivity|]. unfold Qlt. cbn. lia. }
  apply Z.eqb_neq in E0. assert (Hpos : 0 < n) by (unfold n in *; lia).
  cbv zeta.
  set (fl := floor_log2 n d).
  set (e := Z.max fl (-1022)).
  destruct (52 - e <? 0) eqn:Ek.
  - apply Z.ltb_lt in Ek.
    assert (Hfl : e = fl) by (unfold e; lia). 
    assert (Hfl0 : 0 <= fl) by lia.
    pose proof (floor_log2_le n d Hpos Hd Hfl0) as Hle. fold fl in Hle.
    set (kk := - (52 - e)) in *.
    assert (Hkk : 0 < kk <= fl) by (unfold kk; lia).
    assert (Hpk : 0 < 2 ^ kk) by (apply Z.pow_pos_nonneg; lia).
    assert (Hpkfl : 2 ^ kk <= 2 ^ fl) by (apply Z.pow_le_mono_r; lia).
    destruct (nearest_even_bounds n (d * 2 ^ kk) ltac:(lia) ltac:(nia)) as [M0 M1].
    set (m := nearest_even n (d * 2 ^ kk)) in *. clearbody m.
    assert (Hv : m * 2 ^ kk < 2 ^ (j + 1)).
    { assert (m * 2 ^ kk * d <= n + d * 2 ^ kk) by nia.
      assert (d * 2 ^ kk <= n) by nia.
      nia. }
    assert (H1024 : 2 ^ (j + 1) <= 2 ^ 1024) by (apply Z.pow_le_mono_r; lia).
    destruct (2 ^ 1024 <=? m * 2 ^ kk) eqn:Eo; [apply Z.leb_le in Eo; lia|].
    eexists. split; [reflexivity|].
    cbn [Q2Qc this]. rewrite Qred_correct.
    unfold Qlt. destruct (Qnum q <? 0); cbn [Qabs inject_Z Qnum Qden]; nia.
  - apply Z.ltb_ge in Ek. set (k := 52 - e) in *.
    assert (Hpk : 0 < 2 ^ k) by (apply Z.pow_pos_nonneg; lia).
    destruct (nearest_even_bounds (n * 2 ^ k) d ltac:(nia) Hd) as [M0 M1].
    set (m := nearest_even (n * 2 ^ k) d) in *. clearbody m.
    eexists. split; [reflexivity|].
    cbn [Q2Qc this]. rewrite Qred_correct.
    unfold Qlt. 
    assert (Hm : m <= 2 ^ j * 2 ^ k) by nia.
    destruct (Qnum q <? 0); cbn [Qabs inject_Z Qnum Qden];
      rewrite Z2Pos.id by exact Hpk; nia.
Qed.

Lemma gt_ofZ_zero (z : Z) : gt (ofZ z) zero = (0 <? z).
Proof.
  unfold gt, ofZ, zero, Qc_ltb. rewrite this_ofZ.
  unfold Qle_bool. cbn [inject_Z Qnum Qden Q2Qc this Qred].
  rewrite Z.mul_1_r. cbn. destruct z; reflexivity.
Qed.

Lemma Qc_eqb_ofZ_zero (z : Z) :
  Qc_eqb (Q2Qc (inject_Z z)) 0%Qc = (z =? 0).
Proof.
  unfold Qc_eqb. rewrite this_ofZ. unfold Qeq_bool.
  cbn [inject_Z Qnum Qden Q2Qc this Qred]. cbn. destruct z; reflexivity.
Qed.

(** Some values of the arithmetic: 0.1 + 0.2, the first whole number that is
    no value of binary64, the largest value and what lies beyond it, the
    smallest value and what lies below half of it. *)
Lemma binary64_examples :
  Number_toString (add (parseFloat "0.1") (parseFloat "0.2"))
  = "0.30000000000000004"
  /\ Number_toString (mul (div (ofZ 23) (ofZ 80)) (ofZ 100)) = "28.749999999999996"
  /\ parseFloat "9007199254740993" = ofZ 9007199254740992
  /\ Number_toString (parseFloat "1.7976931348623157e308")
     = "1.7976931348623157e+308"
  /\ parseFloat "1.7976931348623159e308" = Inf false
  /\ add (parseFloat "1e308") (parseFloat "1e308") = Inf false
  /\ mul (div (parseFloat "1e307") (ofZ 1)) (ofZ 100) = Inf false
  /\ Number_toString (parseFloat "5e-324") = "5e-324"
  /\ Number_toString (parseFloat "2e-324") = "0"
  /\ Number_toString (div (ofZ 1) (ofZ 3)) = "0.3333333333333333".
Proof. vm_compute. repeat split; reflexivity. Qed.

Lemma gt_zero_zero : gt zero zero = false.
Proof. reflexivity. Qed.

(* ================================================================== *)
(** ** The Metric Computer at its three sites *)
(* ================================================================== *)

Lemma pct_zero (n : number) : Spec.pct n zero = zero.
Proof. unfold Spec.pct. now rewrite gt_zero_zero. Qed.

Lemma formatPct_zero : formatPct zero = "0.00%".
Proof. reflexivity. Qed.

(** Every entry of [insertions] carries one of the six header texts and
    computes [pct] of two parsed cells: the cell of its metric over the cell
    of Dialed for a [(D)] column, over the cell of Contacts for a [(C)]
    column. *)
Lemma build_insertions_calculate cfg ci ai li si di ins :
  In ins (build_insertions cfg ci ai li si di) ->
  exists numIdx,
    (In (headerText ins) ["APPT%(D)"; "LXFER%(D)"; "SUCCESS%(D)"]
     /\ forall cells, calculate ins cells =
          Spec.pct (parseNum (innerTextAt cells numIdx))
                   (parseNum (innerTextAt cells di)))
    \/
    (In (headerText ins) ["APPT%(C)"; "LXFER%(C)"; "SUCCESS%(C)"]
     /\ forall cells, calculate ins cells =
          Spec.pct (parseNum (innerTextAt cells numIdx))
                   (parseNum (innerTextAt cells ci))).
Proof.
  unfold build_insertions. intros H.
  repeat (apply in_app_or in H; destruct H as [H|H]).
  all: repeat match type of H with
              | In _ (if ?b then _ else _) => destruct b
              | In _ (_ ++ _) => apply in_app_or in H; destruct H as [H|H]
              end.
  all: simpl in H; try contradiction.
  all: destruct H as [H|[]]; subst ins; simpl.
  all: first [ exists si; solve [ left; split; [auto 6 | reflexivity]
                                | right; split; [auto 6 | reflexivity] ]
             | exists li; solve [ left; split; [auto 6 | reflexivity]
                                | right; split; [auto 6 | reflexivity] ]
             | exists ai; solve [ left; split; [auto 6 | reflexivity]
                                | right; split; [auto 6 | reflexivity] ] ].
Qed.

Lemma renderMetricCells_ratios (data : counters.t) (b : bool) :
  cellsAt pivot_ratio_cells (renderMetricCells data b)
  = map (fun r => toFixed 1 r ++ "%") (Spec.ratios data).
Proof. reflexivity. Qed.

Lemma csv_fields_ratios (agentName listName : string) (data : counters.t) :
  cellsAt csv_ratio_fields (csv_fields agentName listName data)
  = map (fun r => toFixed 2 r ++ "%") (Spec.ratios data).
Proof. reflexivity. Qed.

Lemma Qc_ltb_0_not_eqb (b : Qc) : Qc_ltb 0%Qc b = true -> Qc_eqb b 0%Qc = false.
Proof.
  unfold Qc_ltb, Qc_eqb. intros H.
  apply negb_true_iff in H.
  destruct (Qeq_bool b 0%Qc) eqn:E; [|reflexivity].
  apply Qeq_bool_iff in E.
  assert (Hle : Qle_bool b 0%Qc = true).
  { apply Qle_bool_iff. rewrite E. apply Qle_refl. }
  congruence.
Qed.

Lemma pct_not_positive (n d : number) : gt d zero = false -> Spec.pct n d = zero.
Proof. intros H. unfold Spec.pct. now rewrite H. Qed.

(** A ratio is infinite when a counter is, or when the quotient times 100
    overflows, and is NaN for two infinite counters; the pivot and the CSV
    then print Infinity% and NaN%, an injected cell shows the dash. *)
Lemma ratio_is_infinite_or_NaN :
  Spec.pct (parseNum (Text "Infinity")) (parseNum (Text "1")) = Inf false
  /\ Spec.pct (parseNum (Text "Infinity")) (parseNum (Text "Infinity")) = NaN
  /\ isFinite (parseNum (Text "1e307")) = true
  /\ Spec.pct (parseNum (Text "1e307")) (parseNum (Text "1")) = Inf false
  /\ (let data := counters.make (parseNum (Text "Infinity"))
                                (parseNum (Text "Infinity")) zero zero zero in
      nth 2 (renderMetricCells data false) EmptyString = "NaN%"
      /\ nth 4 (csv_fields "Bob" "A" data) EmptyString = "NaN%")
  /\ (let data := counters.make (parseNum (Text "1"))
                                (parseNum (Text "1e307")) zero zero zero in
      nth 2 (renderMetricCells data false) EmptyString = "Infinity%"
      /\ nth 4 (csv_fields "Bob" "A" data) EmptyString = "Infinity%"
      /\ formatPct (Spec.pct (counters.contacts data) (counters.dialed data)) = "—").
Proof. vm_compute. repeat split; reflexivity. Qed.

(** C3 (amended). Divide-by-zero guard: a percentage whose denominator is 0
    is exactly 0, hence neither NaN nor infinite, whatever the numerator; so
    is one whose denominator is negative or NaN.  This holds of the formula
    [pct], of the cell computed by each injected column (which then shows
    0.00%), of the cells of the pivot (0.0%) and of the fields of the CSV
    (0.00%).  With a positive denominator the percentage can be infinite or
    NaN. *)
Theorem zero_denominator_gives_zero (n : number) :
  Spec.pct n zero = zero
  /\ isNaN (Spec.pct n zero) = false
  /\ isFinite (Spec.pct n zero) = true
  /\ (forall d, gt d zero = false -> Spec.pct n d = zero)
  /\ (forall cfg ci ai li si di ins cells,
        In ins (build_insertions cfg ci ai li si di) ->
        (In (headerText ins) ["APPT%(D)"; "LXFER%(D)"; "SUCCESS%(D)"] ->
         parseNum (innerTextAt cells di) = zero ->
         calculate ins cells = zero /\ formatPct (calculate ins cells) = "0.00%")
        /\
        (In (headerText ins) ["APPT%(C)"; "LXFER%(C)"; "SUCCESS%(C)"] ->
         parseNum (innerTextAt cells ci) = zero ->
         calculate ins cells = zero /\ formatPct (calculate ins cells) = "0.00%"))
  /\ (forall data b,
        (counters.dialed data = zero ->
         cellsAt [2; 5; 8; 11]%nat (renderMetricCells data b) = repeat "0.0%" 4)
        /\
        (counters.contacts data = zero ->
         cellsAt [4; 7; 10]%nat (renderMetricCells data b) = repeat "0.0%" 3))
  /\ (forall agentName listName data,
        (counters.dialed data = zero ->
         cellsAt [4; 7; 10; 13]%nat (csv_fields agentName listName data)
         = repeat "0.00%" 4)
        /\
        (counters.contacts data = zero ->
         cellsAt [6; 9; 12]%nat (csv_fields agentName listName data)
         = repeat "0.00%" 3)).
Proof.
  rewrite pct_zero.
  split; [reflexivity|]. split; [reflexivity|]. split; [reflexivity|].
  split; [intros d; apply pct_not_positive|].
  split; [|split].
  - intros cfg ci ai li si di ins cells Hin.
    destruct (build_insertions_calculate _ _ _ _ _ _ _ Hin)
      as [numIdx [[Hh Hc]|[Hh Hc]]].
    + split.
      * intros _ Hz. rewrite Hc, Hz, pct_zero. now split.
      * intros Hh'. exfalso. simpl in Hh, Hh'.
        destruct Hh as [E|[E|[E|[]]]]; rewrite <- E in Hh';
          destruct Hh' as [E'|[E'|[E'|[]]]]; discriminate E'.
    + split.
      * intros Hh'. exfalso. simpl in Hh, Hh'.
        destruct Hh as [E|[E|[E|[]]]]; rewrite <- E in Hh';
          destruct Hh' as [E'|[E'|[E'|[]]]]; discriminate E'.
      * intros _ Hz. rewrite Hc, Hz, pct_zero. now split.
  - intros [d c a l s] b; simpl; split; intros ->; reflexivity.
  - intros agentName listName [d c a l s]; simpl; split; intros ->; reflexivity.
Qed.

(* ================================================================== *)
(** ** Pivot and CSV print the same ratios *)
(* ================================================================== *)

(** [toFixed] prints the digits of the integer nearest to [|x| * 10^f], the
    larger one when two are equally near. *)
Lemma roundScaled_nearest (f : nat) (q : Qc) :
  (Qabs q * inject_Z (10 ^ Z.of_nat f) - (1 # 2)
   < inject_Z (Z.of_N (roundScaled f q))
   <= Qabs q * inject_Z (10 ^ Z.of_nat f) + (1 # 2))%Q.
Proof.
  unfold roundScaled.
  set (x := (Qabs q * inject_Z (10 ^ Z.of_nat f))%Q).
  assert (Hx : (0 <= x)%Q).
  { unfold x. apply Qmult_le_0_compat; [apply Qabs_nonneg|].
    change 0%Q with (inject_Z 0). rewrite <- Zle_Qle.
    apply Z.pow_nonneg. lia. }
  clearbody x.
  assert (Hf : 0 <= Qfloor (x + (1 # 2))).
  { change 0 with (Qfloor (inject_Z 0)).
    apply Qfloor_resp_le. change (inject_Z 0) with 0%Q. lra. }
  rewrite Z2N.id by exact Hf.
  pose proof (Qfloor_le (x + (1 # 2))) as H1.
  pose proof (Qlt_floor (x + (1 # 2))) as H2.
  rewrite inject_Z_plus in H2. change (inject_Z 1) with 1%Q in H2.
  set (n := inject_Z (Qfloor (x + (1 # 2)))) in *. clearbody n.
  split; lra.
Qed.

Lemma toFixed_finite (f : nat) (q : Qc) :
  isLarge q = false ->
  toFixed f (Fin q)
  = (if Qc_ltb q 0%Qc then "-" else EmptyString)
    ++ positional f (roundScaled f q).
Proof. intros H. unfold toFixed. now rewrite H. Qed.

(** Alice has one contact out of three calls.  The Contact% cell of the pivot
    shows 33.3% where the CSV writes 33.33%: read to two decimals, the pivot
    says 33.30 and the CSV 33.33.  No ratio cell of the pivot has two
    decimals. *)
Lemma pivot_one_decimal_csv_two :
  exists d data,
    Map_get (agents (extractAllTableData [table_one_in_three])) "Alice" = Some d
    /\ Map_get (lists d) "Sales" = Some data
    /\ nth 2 (renderMetricCells data true) EmptyString = "33.3%"
    /\ nth 4 (csv_fields "Alice" "Sales" data) EmptyString = "33.33%"
    /\ toFixed 2 (parseNum (Text "33.3%")) = "33.30"
    /\ toFixed 2 (parseNum (Text "33.33%")) = "33.33"
    /\ strict_eq (parseNum (Text "33.3%")) (parseNum (Text "33.33%")) = false
    /\ existsb Spec.is_percent2
         (cellsAt pivot_ratio_cells (renderMetricCells data true)) = false.
Proof.
  eexists. eexists.
  split; [vm_compute; reflexivity|].
  split; [vm_compute; reflexivity|].
  split; [vm_compute; reflexivity|].
  split; [vm_compute; reflexivity|].
  split; [vm_compute; reflexivity|].
  split; [vm_compute; reflexivity|].
  split; vm_compute; reflexivity.
Qed.

(** C6 (amended). For every counter tuple, the seven ratios shown by the
    pivot and the seven written to the CSV are the same numbers, those of the
    Metric Computer formulas; the pivot prints each with one decimal and a
    trailing %, the CSV with two decimals and a trailing %.  What is printed
    with [f] decimals for a finite ratio below 10^21 is the sign and the
    integer nearest to the ratio times 10^f (the larger of two equally near),
    with the point [f] digits from the right. *)
Theorem pivot_and_csv_same_ratios
    (data : counters.t) (addDivider : bool) (agentName listName : string) :
  cellsAt pivot_ratio_cells (renderMetricCells data addDivider)
  = map (fun r => toFixed 1 r ++ "%") (Spec.ratios data)
  /\ cellsAt csv_ratio_fields (csv_fields agentName listName data)
     = map (fun r => toFixed 2 r ++ "%") (Spec.ratios data)
  /\ (forall f q,
        isLarge q = false ->
        toFixed f (Fin q)
        = (if Qc_ltb q 0%Qc then "-" else EmptyString)
          ++ positional f (roundScaled f q)
        /\ (Qabs q * inject_Z (10 ^ Z.of_nat f) - (1 # 2)
            < inject_Z (Z.of_N (roundScaled f q))
            <= Qabs q * inject_Z (10 ^ Z.of_nat f) + (1 # 2))%Q).
Proof.
  split; [apply renderMetricCells_ratios|].
  split; [apply csv_fields_ratios|].
  intros f q Hq. split.
  - now apply toFixed_finite.
  - apply roundScaled_nearest.
Qed.

(* ================================================================== *)
(** ** The Header Matcher *)
(* ================================================================== *)

Lemma prefix_app (t s : string) :
  prefix t s = true <-> exists b, s = t ++ b.
Proof.
  revert s. induction t as [|c t IH]; intros s; simpl.
  - destruct s; split; intros; eauto.
  - destruct s as [|c' s].
    + split; [discriminate|]. intros [b Hb]. discriminate Hb.
    + simpl. destruct (ascii_dec c c') as [->|Hne].
      * rewrite IH. split; intros [b Hb]; exists b.
        -- now rewrite Hb.
        -- now inversion Hb.
      * split; [discriminate|]. intros [b Hb]. inversion Hb. congruence.
Qed.

(** [includes s t] holds exactly when [t] is a contiguous part of [s]. *)
Lemma includes_substring (s t : string) :
  includes s t = true <-> exists a b, s = a ++ t ++ b.
Proof.
  induction s as [|c s IH]; cbn [includes].
  - rewrite orb_false_r. rewrite prefix_app. split.
    + intros [b Hb]. exists EmptyString, b. exact Hb.
    + intros [a [b Hab]]. destruct a; simpl in Hab; [eauto|discriminate].
  - rewrite orb_true_iff, IH, prefix_app. split.
    + intros [[b Hb]|[a [b Hab]]].
      * exists EmptyString, b. exact Hb.
      * exists (String c a), b. simpl. now rewrite Hab.
    + intros [a [b Hab]]. destruct a as [|c' a]; simpl in Hab.
      * left. eauto.
      * right. inversion Hab. eauto.
Qed.

Lemma findColumnIndex_from_first (headers searchTerms : list string) (i : Z) :
  0 <= i ->
  let r := findColumnIndex_from i headers searchTerms in
  (r = -1 /\ forall h, In h headers -> header_matches searchTerms h = false)
  \/ (i <= r < i + Z.of_nat (List.length headers)
      /\ (exists h, nth_error headers (Z.to_nat (r - i)) = Some h
                    /\ header_matches searchTerms h = true)
      /\ forall j h, (j < Z.to_nat (r - i))%nat -> nth_error headers j = Some h ->
                     header_matches searchTerms h = false).
Proof.
  revert i. induction headers as [|h0 headers IH]; intros i Hi; simpl.
  - left. split; [reflexivity|]. intros h [].
  - fold (header_matches searchTerms h0).
    destruct (header_matches searchTerms h0) eqn:E.
    + right. split; [lia|]. replace (i - i) with 0 by lia. split.
      * exists h0. now split.
      * intros j h Hj. simpl in Hj. lia.
    + destruct (IH (i + 1) ltac:(lia)) as [[Hr Hall]|[Hr [[h [Hn Hm]] Hmin]]].
      * left. split; [exact Hr|]. intros h [<-|Hin]; [exact E|now apply Hall].
      * right. split; [lia|].
        set (r := findColumnIndex_from (i + 1) headers searchTerms) in *.
        assert (Hs : Z.to_nat (r - i) = S (Z.to_nat (r - (i + 1)))) by lia.
        rewrite Hs. split.
        -- exists h. now split.
        -- intros [|j] h' Hj Hn'; simpl in Hn'.
           ++ now inversion Hn'; subst.
           ++ apply (Hmin j h'); [lia|exact Hn'].
Qed.

(** With the candidates of the Contacts role, the header "Contact Rate"
    comes before "Contacts": the script answers 0, the header that holds the
    second candidate, where trying the candidates one after the other answers
    1, the header that holds the first. *)
Lemma header_order_beats_candidate_rank :
  findColumnIndex ["Contact Rate"; "Contacts"] INSIGHT_CONFIG.columns.contacts = 0
  /\ Spec.findColumnIndex_by_candidate ["Contact Rate"; "Contacts"]
       INSIGHT_CONFIG.columns.contacts = 1
  /\ findColumnIndex ["Contact Rate"; "Contacts"] INSIGHT_CONFIG.columns.contacts
     <> Spec.findColumnIndex_by_candidate ["Contact Rate"; "Contacts"]
          INSIGHT_CONFIG.columns.contacts.
Proof. repeat split; vm_compute; congruence. Qed.

(** C4 (amended). [findColumnIndex] returns the index of the first header,
    in document order, whose lowercased and trimmed text contains any one of
    the candidates, whatever the rank of that candidate; it returns -1 exactly
    when no header contains any candidate. *)
Theorem findColumnIndex_first_matching_header (headers searchTerms : list string) :
  let i := findColumnIndex headers searchTerms in
  (i = -1 /\ forall h, In h headers -> header_matches searchTerms h = false)
  \/ (0 <= i < Z.of_nat (List.length headers)
      /\ (exists h, nth_error headers (Z.to_nat i) = Some h
                    /\ header_matches searchTerms h = true)
      /\ forall j h, (j < Z.to_nat i)%nat -> nth_error headers j = Some h ->
                     header_matches searchTerms h = false).
Proof.
  pose proof (findColumnIndex_from_first headers searchTerms 0 ltac:(lia)) as H.
  unfold findColumnIndex. simpl in H.
  replace (findColumnIndex_from 0 headers searchTerms - 0)
    with (findColumnIndex_from 0 headers searchTerms) in H by lia.
  exact H.
Qed.

(* ================================================================== *)
(** ** Maps and folds *)
(* ================================================================== *)

Section MapFacts.

Context {V : Type}.
Implicit Types (m : list (string * V)) (k : string) (v : V).

Lemma Map_get_In m k v : Map_get m k = Some v -> In (k, v) m.
Proof.
  induction m as [|[k' v'] m IH]; simpl; [discriminate|].
  destruct (String.eqb k' k) eqn:E.
  - apply String.eqb_eq in E. intros [= <-]. left. now rewrite E.
  - intros H. right. now apply IH.
Qed.

Lemma Map_get_None m k : Map_get m k = None -> ~ In k (map fst m).
Proof.
  induction m as [|[k' v'] m IH]; simpl; [tauto|].
  destruct (String.eqb k' k) eqn:E; [discriminate|].
  apply String.eqb_neq in E. intros H [Hk|Hk]; [contradiction|].
  now apply IH.
Qed.

Lemma Map_get_set_same m k v : Map_get (Map_set m k v) k = Some v.
Proof.
  induction m as [|[k' v'] m IH]; simpl.
  - now rewrite String.eqb_refl.
  - destruct (String.eqb k' k) eqn:E; simpl.
    + now rewrite String.eqb_refl.
    + now rewrite E.
Qed.

Lemma In_Map_set m k v k' v' :
  In (k', v') (Map_set m k v) -> (k' = k /\ v' = v) \/ In (k', v') m.
Proof.
  induction m as [|[k0 v0] m IH]; simpl.
  - intros [[= <- <-]|[]]. now left.
  - destruct (String.eqb k0 k) eqn:E; simpl.
    + intros [[= <- <-]|H]; [now left|right; now right].
    + intros [H|H]; [right; now left|].
      destruct (IH H) as [?|?]; [now left|right; now right].
Qed.

(** The keys after [set]: unchanged when the key is present, with the key
    at the end otherwise. *)
Lemma keys_Map_set m k v :
  map fst (Map_set m k v)
  = if Map_has m k then map fst m else (map fst m ++ [k])%list.
Proof.
  unfold Map_has. induction m as [|[k0 v0] m IH]; simpl; [reflexivity|].
  destruct (String.eqb k0 k) eqn:E; simpl.
  - apply String.eqb_eq in E. now subst.
  - rewrite IH. now destruct (Map_get m k).
Qed.

Lemma NoDup_keys_Map_set m k v :
  NoDup (map fst m) -> NoDup (map fst (Map_set m k v)).
Proof.
  intros H. rewrite keys_Map_set. unfold Map_has.
  destruct (Map_get m k) eqn:E; [exact H|].
  apply Map_get_None in E.
  apply NoDup_rev in H. rewrite <- (rev_involutive (map fst m ++ [k])%list).
  apply NoDup_rev. rewrite rev_app_distr. simpl. constructor.
  - now rewrite <- in_rev.
  - exact H.
Qed.

End MapFacts.

Lemma fold_left_invariant {A B : Type} (P : A -> Prop) (f : A -> B -> A)
    (l : list B) (init : A) :
  (forall acc x, P acc -> P (f acc x)) -> P init -> P (fold_left f l init).
Proof.
  intros Hstep. revert init. induction l as [|x l IH]; simpl; intros init H.
  - exact H.
  - apply IH. now apply Hstep.
Qed.

Lemma Set_has_In (s : list string) (k : string) : Set_has s k = true <-> In k s.
Proof.
  unfold Set_has. rewrite existsb_exists. split.
  - intros [x [Hin E]]. apply String.eqb_eq in E. now subst.
  - intros H. exists k. split; [exact H|apply String.eqb_refl].
Qed.

Lemma In_Set_add (s : list string) (k x : string) :
  In x (Set_add s k) <-> In x s \/ x = k.
Proof.
  unfold Set_add. destruct (Set_has s k) eqn:E.
  - apply Set_has_In in E. split; [tauto|]. intros [H | ->]; assumption.
  - rewrite in_app_iff. simpl. split; intros [H|H]; auto.
    + destruct H as [<-|[]]. now right.
Qed.

(* ================================================================== *)
(** ** The totals of an agent *)
(* ================================================================== *)

Lemma accumulate_comm (x y : counters.t) : accumulate x y = accumulate y x.
Proof.
  destruct x, y. unfold accumulate. simpl.
  f_equal; apply add_comm.
Qed.

Lemma count_of_ofZ (n : Z) : count_of (ofZ n) = n.
Proof.
  unfold count_of, ofZ. rewrite this_ofZ. apply Qfloor_Z.
Qed.

Lemma is_count_ofZ (bound n : Z) : 0 <= n <= bound -> is_count bound (ofZ n).
Proof. intros H. unfold is_count. now rewrite count_of_ofZ. Qed.

Lemma is_count_zero (bound : Z) : 0 <= bound -> is_count bound zero.
Proof. intros H. apply (is_count_ofZ bound 0). lia. Qed.

Lemma is_count_le (bound bound' : Z) (x : number) :
  is_count bound x -> bound <= bound' -> is_count bound' x.
Proof. intros [E H] Hle. split; [exact E|lia]. Qed.

Lemma counters_within_le (bound bound' : Z) (c : counters.t) :
  counters_within bound c -> bound <= bound' -> counters_within bound' c.
Proof. intros H Hle field Hf. apply (is_count_le bound); auto. Qed.

Lemma counters_within_zeros (bound : Z) :
  0 <= bound -> counters_within bound counters.zeros.
Proof.
  intros H field Hf. simpl in Hf.
  repeat (destruct Hf as [<-|Hf]; [now apply is_count_zero|]). contradiction.
Qed.

(** The sum of two whole numbers is their sum as whole numbers, as long as
    it is below 2^53. *)
Lemma add_counts (b1 b2 : Z) (x y : number) :
  is_count b1 x -> is_count b2 y -> b1 + b2 < 2 ^ 53 ->
  is_count (b1 + b2) (add x y)
  /\ count_of (add x y) = count_of x + count_of y.
Proof.
  intros [Ex Hx] [Ey Hy] Hb.
  assert (E : add x y = ofZ (count_of x + count_of y)).
  { rewrite Ex at 1. rewrite Ey at 1. apply add_whole. lia. }
  rewrite E, count_of_ofZ. split; [|reflexivity].
  apply is_count_ofZ. lia.
Qed.

Lemma field_accumulate (field : counters.t -> number) (x y : counters.t) :
  In field counter_fields -> field (accumulate x y) = add (field x) (field y).
Proof.
  intros Hf. simpl in Hf.
  repeat (destruct Hf as [<-|Hf]; [reflexivity|]). contradiction.
Qed.

Lemma counters_by_fields (x y : counters.t) :
  (forall field, In field counter_fields -> field x = field y) -> x = y.
Proof.
  intros H. destruct x as [d c a l s], y as [d' c' a' l' s'].
  pose proof (H counters.dialed) as Hd. pose proof (H counters.contacts) as Hc.
  pose proof (H counters.appt) as Ha. pose proof (H counters.lxfer) as Hl.
  pose proof (H counters.success) as Hs. cbn [counter_fields In] in *.
  cbn [counters.dialed counters.contacts counters.appt counters.lxfer
       counters.success] in *.
  f_equal; auto 10.
Qed.

Lemma accumulate_counts (b1 b2 : Z) (x y : counters.t) :
  counters_within b1 x -> counters_within b2 y -> b1 + b2 < 2 ^ 53 ->
  counters_within (b1 + b2) (accumulate x y)
  /\ forall field, In field counter_fields ->
       count_of (field (accumulate x y)) = count_of (field x) + count_of (field y).
Proof.
  intros Hx Hy Hb. split; intros field Hf; rewrite (field_accumulate _ _ _ Hf);
    apply (add_counts b1 b2); auto.
Qed.

Lemma sum_counts_nonneg (bound : Z) (field : counters.t -> number)
    (ls : list (string * counters.t)) :
  In field counter_fields ->
  (forall listName c, In (listName, c) ls -> counters_within bound c) ->
  0 <= sum_counts field ls.
Proof.
  intros Hf. induction ls as [|[k v] ls IH]; intros H; simpl; [lia|].
  assert (0 <= count_of (field v))
    by (apply (H k v (or_introl eq_refl) field Hf)).
  assert (0 <= sum_counts field ls)
    by (apply IH; intros l c Hin; apply (H l c); now right).
  lia.
Qed.

(** The sum of the lists, computed with [add], is the sum of the whole
    numbers as long as it is below 2^53. *)
Lemma sum_of_lists_counts (bound : Z) (field : counters.t -> number)
    (ls : list (string * counters.t)) :
  In field counter_fields ->
  (forall listName c, In (listName, c) ls -> counters_within bound c) ->
  sum_counts field ls < 2 ^ 53 ->
  field (Spec.sum_of_lists ls) = ofZ (sum_counts field ls).
Proof.
  intros Hf. induction ls as [|[k v] ls IH]; intros H Hs.
  - simpl in Hf. simpl.
    repeat (destruct Hf as [<-|Hf]; [reflexivity|]). contradiction.
  - assert (Hls : forall l c, In (l, c) ls -> counters_within bound c)
      by (intros l c Hin; apply (H l c); now right).
    pose proof (sum_counts_nonneg bound field ls Hf Hls) as Hnn.
    destruct (H k v (or_introl eq_refl) field Hf) as [Ev Hv].
    cbn [sum_counts fold_right snd] in Hs |- *. fold (sum_counts field ls) in Hs |- *.
    cbn [Spec.sum_of_lists fold_right snd].
    fold (Spec.sum_of_lists ls).
    rewrite (field_accumulate _ _ _ Hf), IH by (auto; lia).
    rewrite Ev at 1. apply add_whole. lia.
Qed.

Lemma sum_counts_Map_set (field : counters.t -> number)
    (ls : list (string * counters.t)) (listName : string) (c : counters.t) :
  In field counter_fields ->
  sum_counts field (Map_set ls listName c)
  = sum_counts field ls
    - count_of (field (match Map_get ls listName with
                       | Some l => l
                       | None => counters.zeros
                       end))
    + count_of (field c).
Proof.
  intros Hf. induction ls as [|[k v] ls IH]; simpl.
  - simpl in Hf.
    repeat (destruct Hf as [<-|Hf]; [simpl; lia|]). contradiction.
  - destruct (String.eqb k listName); simpl; [lia|]. rewrite IH. lia.
Qed.

Lemma exact_totals_le (bound bound' : Z) (data : aggregation) :
  exact_totals bound data -> bound <= bound' -> exact_totals bound' data.
Proof.
  intros Inv Hle a d Hin. destruct (Inv a d Hin) as [Ht [Hl Hs]].
  split; [now apply (counters_within_le bound)|].
  split; [|exact Hs].
  intros l c Hc. apply (counters_within_le bound); eauto.
Qed.

(** A row of whole counts keeps the aggregation exact. *)
Lemma recordRow_exact (bound b : Z) agentName listName row data :
  exact_totals bound data -> counters_within b row ->
  0 <= bound -> 0 <= b -> bound + b < 2 ^ 53 ->
  exact_totals (bound + b) (recordRow agentName listName row data).
Proof.
  intros Inv Hrow Hbound Hb Hlt a d Hin. unfold recordRow in Hin. simpl in Hin.
  apply In_Map_set in Hin. destruct Hin as [[-> ->]|Hin].
  2:{ assert (Hle : bound <= bound + b) by lia.
      exact (exact_totals_le bound (bound + b) data Inv Hle a d Hin). }
  set (d0 := match Map_get (agents data) agentName with
             | Some d => d
             | None => {| lists := []; totals := counters.zeros |}
             end).
  assert (H0 : counters_within bound (totals d0)
               /\ (forall l c, In (l, c) (lists d0) -> counters_within bound c)
               /\ (forall field, In field counter_fields ->
                     count_of (field (totals d0)) = sum_counts field (lists d0))).
  { unfold d0. destruct (Map_get (agents data) agentName) as [d1|] eqn:E.
    - apply Map_get_In in E. exact (Inv agentName d1 E).
    - simpl. split; [now apply counters_within_zeros|]. split; [intros l c []|].
      intros field Hf. simpl in Hf.
      repeat (destruct Hf as [<-|Hf]; [reflexivity|]). contradiction. }
  destruct H0 as [Ht [Hl Hs]].
  set (ld0 := match Map_get (lists d0) listName with
              | Some l => l
              | None => counters.zeros
              end).
  assert (Hld0 : counters_within bound ld0).
  { unfold ld0. destruct (Map_get (lists d0) listName) as [l0|] eqn:E.
    - apply Map_get_In in E. exact (Hl listName l0 E).
    - now apply counters_within_zeros. }
  cbn [lists totals].
  destruct (accumulate_counts bound b (totals d0) row Ht Hrow Hlt) as [Ht' Hct].
  destruct (accumulate_counts bound b ld0 row Hld0 Hrow Hlt) as [Hld' Hcl].
  split; [exact Ht'|]. split.
  - intros l c Hc. apply In_Map_set in Hc. destruct Hc as [[-> ->]|Hc];
      [exact Hld'|].
    apply (counters_within_le bound); [eauto|lia].
  - intros field Hf.
    rewrite (sum_counts_Map_set field (lists d0) listName _ Hf).
    fold ld0. rewrite (Hct field Hf), (Hcl field Hf), (Hs field Hf). lia.
Qed.

Lemma extractRows_exact (b : Z) (r : roles) (rows : list (list string)) :
  0 <= b ->
  (forall cells, In cells rows -> counters_within b (rowCounters r cells)) ->
  forall bound data,
    0 <= bound ->
    bound + b * Z.of_nat (List.length rows) < 2 ^ 53 ->
    exact_totals bound data ->
    exact_totals (bound + b * Z.of_nat (List.length rows))
                 (fold_left (extractRow r) rows data).
Proof.
  intros Hb. induction rows as [|cells rows IH];
    intros Hrows bound data Hbound Hlt Inv.
  - simpl. now rewrite Z.mul_0_r, Z.add_0_r.
  - cbn [fold_left]. cbn [List.length] in Hlt |- *.
    rewrite Nat2Z.inj_succ in Hlt |- *.
    assert (Hn : 0 <= Z.of_nat (List.length rows)) by lia.
    replace (bound + b * Z.succ (Z.of_nat (List.length rows)))
      with ((bound + b) + b * Z.of_nat (List.length rows)) in Hlt |- * by lia.
    apply IH; [intros c Hc; apply Hrows; now right|lia|exact Hlt|].
    assert (Hstep : bound + b < 2 ^ 53) by nia.
    unfold extractRow. destruct (List.length cells <? 3)%nat.
    + apply (exact_totals_le bound); [exact Inv|lia].
    + apply recordRow_exact; auto. apply Hrows. now left.
Qed.

Lemma extractTables_exact (b : Z) (page : list table) :
  0 <= b ->
  (forall t headerCells cells,
      In t page -> thead t = Some headerCells -> In cells (tbody t) ->
      counters_within b
        (rowCounters
           (resolve_roles (map (fun th => toLowerCase (trim th)) headerCells))
           cells)) ->
  forall bound data,
    0 <= bound ->
    bound + b * Z.of_nat (List.length (flat_map tbody page)) < 2 ^ 53 ->
    exact_totals bound data ->
    exact_totals (bound + b * Z.of_nat (List.length (flat_map tbody page)))
                 (fold_left extractTable page data).
Proof.
  intros Hb. induction page as [|t page IH]; intros Hpage bound data Hbound Hlt Inv.
  - simpl. now rewrite Z.mul_0_r, Z.add_0_r.
  - cbn [fold_left flat_map] in Hlt |- *. rewrite length_app, Nat2Z.inj_add in Hlt |- *.
    assert (Hn : 0 <= Z.of_nat (List.length (flat_map tbody page))) by lia.
    assert (Hm : 0 <= Z.of_nat (List.length (tbody t))) by lia.
    replace (bound + b * (Z.of_nat (List.length (tbody t))
                          + Z.of_nat (List.length (flat_map tbody page))))
      with ((bound + b * Z.of_nat (List.length (tbody t)))
            + b * Z.of_nat (List.length (flat_map tbody page))) in Hlt |- * by lia.
    apply IH; [intros t' h c Ht'; apply Hpage; now right|nia|exact Hlt|].
    assert (Hstep : bound + b * Z.of_nat (List.length (tbody t)) < 2 ^ 53) by nia.
    unfold extractTable. destruct (thead t) as [headerCells|] eqn:Eh.
    2:{ apply (exact_totals_le bound); [exact Inv|nia]. }
    match goal with |- context [userIdx ?r =? -1] =>
      destruct (userIdx r =? -1) end.
    { apply (exact_totals_le bound); [exact Inv|nia]. }
    apply extractRows_exact; auto.
    intros cells Hc. apply (Hpage t headerCells cells); auto. now left.
Qed.

Lemma is_count_b_true (bound : Z) (x : number) :
  is_count_b bound x = true -> is_count bound x.
Proof.
  destruct x as [| |q]; try discriminate. unfold is_count_b, is_count, count_of.
  intros H. apply andb_true_iff in H. destruct H as [H Hhi].
  apply andb_true_iff in H. destruct H as [Heq Hlo].
  apply Qeq_bool_iff in Heq. apply Z.leb_le in Hlo, Hhi.
  split; [|lia]. unfold ofZ. f_equal. apply Qc_is_canon.
  rewrite this_ofZ. exact Heq.
Qed.

Lemma counters_within_b_true (bound : Z) (c : counters.t) :
  counters_within_b bound c = true -> counters_within bound c.
Proof.
  unfold counters_within_b, counters_within. intros H field Hf.
  apply is_count_b_true.
  exact (proj1 (forallb_forall _ _) H field Hf).
Qed.

Lemma whole_counts_b_true (bound : Z) (page : list table) :
  whole_counts_b bound page = true -> whole_counts bound page.
Proof.
  unfold whole_counts_b, whole_counts. intros H.
  apply andb_true_iff in H. destruct H as [H Hlt].
  apply andb_true_iff in H. destruct H as [H Hb].
  apply Z.leb_le in Hb. apply Z.ltb_lt in Hlt.
  split; [|split; assumption].
  intros t headerCells cells Ht Eh Hc.
  pose proof (proj1 (forallb_forall _ _) H t Ht) as H1. cbv beta in H1.
  rewrite Eh in H1. apply counters_within_b_true.
  exact (proj1 (forallb_forall _ _) H1 cells Hc).
Qed.

(** On a page of whole counts the aggregation is exact. *)
Lemma extractAllTableData_exact (bound : Z) (page : list table) :
  whole_counts bound page ->
  exact_totals (bound * Z.of_nat (List.length (flat_map tbody page)))
               (extractAllTableData page).
Proof.
  intros [Hcells [Hb Hlt]]. unfold extractAllTableData.
  pose proof (extractTables_exact bound page Hb Hcells 0 empty_aggregation) as H.
  rewrite Z.add_0_l in H. apply H; [lia|exact Hlt|].
  intros a d [].
Qed.

Lemma recordRow_keys agentName listName row data :
  keys_distinct data -> keys_distinct (recordRow agentName listName row data).
Proof.
  intros [Ha Hl]. unfold keys_distinct, recordRow. simpl. split.
  - now apply NoDup_keys_Map_set.
  - intros a d Hin. apply In_Map_set in Hin.
    destruct Hin as [[-> ->]|Hin]; [|now apply (Hl a)].
    simpl. apply NoDup_keys_Map_set.
    destruct (Map_get (agents data) agentName) as [d0|] eqn:E.
    + apply Map_get_In in E. now apply (Hl agentName).
    + constructor.
Qed.

Lemma extractAllTableData_keys (page : list table) :
  keys_distinct (extractAllTableData page).
Proof.
  unfold extractAllTableData. apply fold_left_invariant.
  - intros acc t Inv. unfold extractTable.
    destruct (thead t) as [headerCells|]; [|exact Inv].
    match goal with |- context [userIdx ?r =? -1] => destruct (userIdx r =? -1) end;
      [exact Inv|].
    apply fold_left_invariant; [|exact Inv].
    intros acc' cells Inv'. unfold extractRow.
    destruct (List.length cells <? 3)%nat; [exact Inv'|].
    now apply recordRow_keys.
  - split; [constructor|]. intros a d [].
Qed.

(** Three rows of one agent: 0.1 and 0.1 dialed on list A, and 0.4 on list B
    between them.  The totals, added row by row, are 0.6; the two lists hold
    0.2 and 0.4, whose sum is 0.6000000000000001 in either order. *)
Lemma fractional_counts_break_totals :
  exists d,
    agents (extractAllTableData [table_fractions]) = [("Bob", d)]
    /\ map fst (lists d) = ["A"; "B"]
    /\ Number_toString (counters.dialed (totals d)) = "0.6"
    /\ Number_toString (counters.dialed (Spec.sum_of_lists (lists d)))
       = "0.6000000000000001"
    /\ strict_eq (counters.dialed (totals d))
                 (counters.dialed (Spec.sum_of_lists (lists d))) = false
    /\ strict_eq (counters.dialed (totals d))
                 (counters.dialed (Spec.sum_of_lists (rev (lists d)))) = false.
Proof.
  eexists. split; [vm_compute; reflexivity|].
  split; [vm_compute; reflexivity|].
  split; [vm_compute; reflexivity|].
  split; [vm_compute; reflexivity|].
  split; vm_compute; reflexivity.
Qed.

(** C2 (amended). Aggregation totals invariant: when the counters read from
    the rows are whole numbers and their number is such that no sum reaches
    2^53, the totals tuple of every agent returned by [extractAllTableData]
    is the elementwise sum of the tuples of the lists of that agent, each
    list counted once, and every counter is the whole number of the calls
    counted, although the totals are accumulated row by row and not summed
    from the lists. *)
Theorem totals_equal_sum_of_lists (bound : Z) (page : list table)
    (agentName : string) (d : agentData) :
  whole_counts bound page ->
  In (agentName, d) (agents (extractAllTableData page)) ->
  totals d = Spec.sum_of_lists (lists d)
  /\ NoDup (map fst (lists d))
  /\ (forall field, In field counter_fields ->
        field (totals d) = ofZ (sum_counts field (lists d))).
Proof.
  intros Hpage Hin.
  pose proof (extractAllTableData_exact bound page Hpage agentName d Hin)
    as [Ht [Hl Hs]].
  destruct Hpage as [_ [_ Hlt]].
  assert (Hfield : forall field, In field counter_fields ->
            field (totals d) = ofZ (sum_counts field (lists d))).
  { intros field Hf. destruct (Ht field Hf) as [E _]. rewrite E at 1.
    now rewrite (Hs field Hf). }
  split; [|split; [exact (proj2 (extractAllTableData_keys page) agentName d Hin)
                  |exact Hfield]].
  apply counters_by_fields. intros field Hf. rewrite (Hfield field Hf).
  symmetry. apply (sum_of_lists_counts _ field (lists d) Hf Hl).
  rewrite <- (Hs field Hf). destruct (Ht field Hf) as [_ Hc]. lia.
Qed.

(* ================================================================== *)
(** ** Roles in the aggregation *)
(* ================================================================== *)

Lemma findIndex_from_bounds {A : Type} (p : A -> bool) (a : list A) (i : Z) :
  0 <= i ->
  findIndex_from i p a = -1 \/ i <= findIndex_from i p a.
Proof.
  revert i. induction a as [|x a IH]; simpl; intros i Hi; [now left|].
  destruct (p x); [right; lia|].
  destruct (IH (i + 1) ltac:(lia)); [now left|right; lia].
Qed.

Lemma findIndex_from_found {A : Type} (p : A -> bool) (a : list A) (i : Z) :
  0 <= i ->
  findIndex_from i p a <> -1 <-> exists x, In x a /\ p x = true.
Proof.
  revert i. induction a as [|x a IH]; simpl; intros i Hi.
  - split; [congruence|]. intros [x [[] _]].
  - destruct (p x) eqn:E.
    + split; [|lia]. intros _. exists x. auto.
    + rewrite (IH (i + 1)) by lia. split; intros [y [Hy Hp]].
      * exists y. auto.
      * exists y. destruct Hy as [<-|Hy]; [congruence|auto].
Qed.

Lemma findIndex_found {A : Type} (p : A -> bool) (a : list A) :
  findIndex p a <> -1 <-> exists x, In x a /\ p x = true.
Proof. apply findIndex_from_found. lia. Qed.

Lemma findColumnIndex_found (headers searchTerms : list string) :
  findColumnIndex headers searchTerms <> -1
  <-> exists h, In h headers /\ header_matches searchTerms h = true.
Proof.
  pose proof (findColumnIndex_from_first headers searchTerms 0 ltac:(lia)) as H.
  unfold findColumnIndex. simpl in H.
  destruct H as [[Hr Hall]|[Hr [[h [Hn Hm]] _]]].
  - split; [congruence|]. intros [h [Hin Hm]]. rewrite (Hall h Hin) in Hm.
    discriminate.
  - split; [|lia]. intros _. exists h. split; [|exact Hm].
    eapply nth_error_In. exact Hn.
Qed.

Lemma fold_left_ext {A B : Type} (f g : A -> B -> A) (l : list B) (init : A) :
  (forall acc x, f acc x = g acc x) -> fold_left f l init = fold_left g l init.
Proof.
  intros H. revert init. induction l as [|x l IH]; simpl; intros init.
  - reflexivity.
  - now rewrite H, IH.
Qed.

Lemma extractTable_without_agent (t : table) (data : aggregation) :
  (forall headerCells, thead t = Some headerCells ->
     userIdx (resolve_roles (map (fun th => toLowerCase (trim th)) headerCells)) = -1) ->
  extractTable data t = data.
Proof.
  intros H. unfold extractTable.
  destruct (thead t) as [headerCells|]; [|reflexivity].
  now rewrite (H headerCells eq_refl).
Qed.


(** C10. In the aggregation the agent role resolves only when a header,
    trimmed and lowercased, is exactly "user" or "agent", where the list role
    and the five counter roles resolve as soon as a header contains their
    word; a table none of whose headers equals "user" or "agent" is skipped
    entirely, even when a header contains one of these words. *)
Theorem agent_role_needs_exact_header (t : table) (headerCells : list string) :
  thead t = Some headerCells ->
  let headers := map (fun th => toLowerCase (trim th)) headerCells in
  let r := resolve_roles headers in
  (userIdx r <> -1 <-> exists h, In h headers /\ (h = "user" \/ h = "agent"))
  /\ (listIdx r <> -1 <-> exists h, In h headers /\ includes h "list" = true)
  /\ (dialedIdx r <> -1 <->
      exists h, In h headers /\ header_matches ["dialed"] h = true)
  /\ (contactsIdx r <> -1 <->
      exists h, In h headers /\ header_matches ["contacts"; "contact"] h = true)
  /\ (apptIdx r <> -1 <->
      exists h, In h headers /\ header_matches ["appt"; "appointment"] h = true)
  /\ (lxferIdx r <> -1 <->
      exists h, In h headers /\ header_matches ["lxfer"; "live transfer"] h = true)
  /\ (successIdx r <> -1 <->
      exists h, In h headers
                /\ header_matches ["success"; "all success"; "total success"] h = true)
  /\ ((forall h, In h headers -> h <> "user" /\ h <> "agent") ->
      forall data, extractTable data t = data).
Proof.
  intros Ht headers r.
  assert (Huser : userIdx r <> -1 <->
                  exists h, In h headers /\ (h = "user" \/ h = "agent")).
  { unfold r, resolve_roles. simpl. rewrite findIndex_found.
    split; intros [h [Hin Hp]]; exists h; (split; [exact Hin|]).
    - apply orb_true_iff in Hp. destruct Hp as [Hp|Hp];
        apply String.eqb_eq in Hp; auto.
    - apply orb_true_iff. destruct Hp as [-> | ->]; [left|right];
        apply String.eqb_refl. }
  split; [exact Huser|].
  split; [apply findIndex_found|].
  do 5 (split; [apply findColumnIndex_found|]).
  intros Hnone data. apply extractTable_without_agent.
  intros hc Hhc. rewrite Ht in Hhc. injection Hhc as <-.
  fold headers. fold r.
  destruct (Z.eq_dec (userIdx r) (-1)) as [E|E]; [exact E|].
  apply Huser in E. destruct E as [h [Hin [-> | ->]]];
    destruct (Hnone _ Hin); congruence.
Qed.



(* ================================================================== *)
(** ** Column injection *)
(* ================================================================== *)

Lemma length_insertAfter k new row :
  List.length (insertAfter k new row) = S (List.length row).
Proof.
  induction row as [|c row IH]; simpl; [reflexivity|].
  destruct (is_origin k c); simpl; [reflexivity|now rewrite IH].
Qed.

Lemma originals_insertAfter k new row :
  origin new = None ->
  filter is_original (insertAfter k new row) = filter is_original row.
Proof.
  intros Hn.
  assert (Hnew : is_original new = false) by (unfold is_original; now rewrite Hn).
  induction row as [|c row IH]; simpl.
  - now rewrite Hnew.
  - destruct (is_origin k c); simpl.
    + now rewrite Hnew.
    + now rewrite IH.
Qed.

Lemma In_insertAfter k new row c :
  In c (insertAfter k new row) <-> c = new \/ In c row.
Proof.
  induction row as [|c0 row IH]; simpl.
  - intuition auto.
  - destruct (is_origin k c0); simpl; [|rewrite IH]; intuition auto.
Qed.

Lemma length_snapshot_from i texts :
  List.length (snapshot_from i texts) = List.length texts.
Proof.
  revert i. induction texts as [|t texts IH]; simpl; intros i; [reflexivity|].
  now rewrite IH.
Qed.

Lemma originals_snapshot_from i texts :
  filter is_original (snapshot_from i texts) = snapshot_from i texts.
Proof.
  revert i. induction texts as [|t texts IH]; simpl; intros i; [reflexivity|].
  unfold is_original at 1. simpl. now rewrite IH.
Qed.

Lemma innerText_snapshot_from i texts :
  map innerText (snapshot_from i texts) = texts.
Proof.
  revert i. induction texts as [|t texts IH]; simpl; intros i; [reflexivity|].
  now rewrite IH.
Qed.

(** Inserting the cells of [insertions] one after the other, whatever text
    [mk] gives them. *)
Lemma fold_insert_facts (mk : insertion -> string) (insertions : list insertion)
    (row : list cell) :
  let row' :=
    fold_left
      (fun row ins =>
         insertAfter (afterIdx ins) {| origin := None; innerText := mk ins |} row)
      insertions row in
  List.length row' = (List.length row + List.length insertions)%nat
  /\ filter is_original row' = filter is_original row
  /\ (forall ins, In ins insertions -> In (mk ins) (map innerText row')).
Proof.
  revert row. induction insertions as [|ins0 insertions IH]; intros row; simpl.
  - split; [lia|]. split; [reflexivity|]. intros ins [].
  - destruct (IH (insertAfter (afterIdx ins0)
                    {| origin := None; innerText := mk ins0 |} row))
      as [Hlen [Horig Hin]].
    split; [|split].
    + rewrite Hlen, length_insertAfter. lia.
    + rewrite Horig. now apply originals_insertAfter.
    + intros ins [<-|H]; [|now apply Hin].
      apply in_map_iff.
      exists {| origin := None; innerText := mk ins0 |}. split; [reflexivity|].
      assert (Hkeep : forall l r c, In c r ->
                In c (fold_left
                        (fun row ins =>
                           insertAfter (afterIdx ins)
                             {| origin := None; innerText := mk ins |} row) l r)).
      { induction l as [|i l IHl]; intros r c Hc; simpl; [exact Hc|].
        apply IHl. apply In_insertAfter. now right. }
      apply Hkeep. apply In_insertAfter. now left.
Qed.

Lemma inject_row_empty insertions : inject_row insertions [] = [].
Proof. reflexivity. Qed.

Lemma inject_row_nonempty insertions cells :
  cells <> [] ->
  inject_row insertions cells = map innerText (inject_row_live insertions cells)
  /\ List.length (inject_row insertions cells)
     = (List.length cells + List.length insertions)%nat
  /\ map innerText (filter is_original (inject_row_live insertions cells)) = cells.
Proof.
  intros Hne. unfold inject_row.
  destruct cells as [|c cells]; [contradiction|].
  cbn [List.length Nat.eqb].
  pose proof (fold_insert_facts (fun ins => formatPct (calculate ins (c :: cells)))
                insertions (snapshot (c :: cells))) as [Hlen [Horig _]].
  fold (inject_row_live insertions (c :: cells)) in Hlen, Horig.
  split; [reflexivity|]. split.
  - rewrite length_map, Hlen. unfold snapshot. now rewrite length_snapshot_from.
  - rewrite Horig. unfold snapshot.
    now rewrite originals_snapshot_from, innerText_snapshot_from.
Qed.

Section Placement.
Local Open Scope list_scope.

Lemma insertAfter_skip (k : Z) (new : cell) (l1 l2 : list cell) :
  (forall c, In c l1 -> is_origin k c = false) ->
  insertAfter k new (l1 ++ l2) = l1 ++ insertAfter k new l2.
Proof.
  induction l1 as [|c l1 IH]; intros H; [reflexivity|].
  cbn [app insertAfter]. rewrite (H c (or_introl eq_refl)).
  rewrite IH; [reflexivity|]. intros c' Hc'. apply H. now right.
Qed.

Lemma insertAfter_none (k : Z) (new : cell) (l : list cell) :
  (forall c, In c l -> is_origin k c = false) ->
  insertAfter k new l = l ++ [new].
Proof.
  intros H. rewrite <- (app_nil_r l) at 1.
  now rewrite (insertAfter_skip k new l [] H).
Qed.

Lemma derived_cells_no_origin (k : Z) (mk : insertion -> string)
    (l : list insertion) (c : cell) :
  In c (map (derived_cell mk) l) -> is_origin k c = false.
Proof.
  intros H. apply in_map_iff in H. destruct H as [ins [<- _]]. reflexivity.
Qed.

Lemma placed_cells_from_no_origin (k i : Z) mk done (texts : list string) (c : cell) :
  k < i \/ i + Z.of_nat (List.length texts) <= k ->
  In c (placed_cells_from i mk done texts) -> is_origin k c = false.
Proof.
  revert i. induction texts as [|t texts IH]; intros i Hk Hc; [contradiction|].
  cbn [placed_cells_from List.length] in Hc, Hk. rewrite Nat2Z.inj_succ in Hk.
  cbn [app] in Hc. destruct Hc as [<-|Hc].
  - unfold is_origin. cbn [origin]. apply Z.eqb_neq. lia.
  - apply in_app_or in Hc. destruct Hc as [Hc|Hc].
    + now apply (derived_cells_no_origin k mk _ c Hc).
    + apply (IH (i + 1)); [lia|exact Hc].
Qed.

Lemma placed_cells_from_other (i : Z) mk done (ins : insertion)
    (texts : list string) :
  afterIdx ins < i \/ i + Z.of_nat (List.length texts) <= afterIdx ins ->
  placed_cells_from i mk (done ++ [ins]) texts = placed_cells_from i mk done texts.
Proof.
  revert i. induction texts as [|t texts IH]; intros i Hk; [reflexivity|].
  cbn [placed_cells_from List.length] in Hk |- *. rewrite Nat2Z.inj_succ in Hk.
  rewrite filter_app. cbn [filter].
  destruct (afterIdx ins =? i) eqn:E; [apply Z.eqb_eq in E; lia|].
  rewrite app_nil_r. rewrite IH by lia. reflexivity.
Qed.

(** A derived cell whose anchor is in the row goes right after it. *)
Lemma insertAfter_placed (i : Z) mk done (ins : insertion)
    (texts : list string) (rest : list cell) :
  i <= afterIdx ins < i + Z.of_nat (List.length texts) ->
  insertAfter (afterIdx ins) (derived_cell mk ins)
              (placed_cells_from i mk done texts ++ rest)
  = placed_cells_from i mk (done ++ [ins]) texts ++ rest.
Proof.
  revert i. induction texts as [|t texts IH]; intros i Hk;
    cbn [List.length] in Hk; [cbn in Hk; lia|].
  rewrite Nat2Z.inj_succ in Hk.
  cbn [placed_cells_from app insertAfter]. unfold is_origin at 1. cbn [origin].
  rewrite filter_app. cbn [filter]. rewrite (Z.eqb_sym i).
  destruct (afterIdx ins =? i) eqn:E.
  - apply Z.eqb_eq in E. rewrite rev_app_distr. cbn [rev app map].
    rewrite placed_cells_from_other by lia. reflexivity.
  - apply Z.eqb_neq in E. rewrite app_nil_r. f_equal.
    rewrite <- !app_assoc. rewrite insertAfter_skip.
    + rewrite IH by lia. reflexivity.
    + intros c. apply derived_cells_no_origin.
Qed.

Lemma placed_cells_from_nil (i : Z) mk (texts : list string) :
  placed_cells_from i mk [] texts = snapshot_from i texts.
Proof.
  revert i. induction texts as [|t texts IH]; intros i; [reflexivity|].
  cbn [placed_cells_from snapshot_from filter rev map app]. now rewrite IH.
Qed.

(** The row after the insertions of [done], then of [l], one after the
    other. *)
Lemma fold_insertAfter_placed mk (texts : list string) (l done : list insertion) :
  fold_left
    (fun row ins => insertAfter (afterIdx ins) (derived_cell mk ins) row)
    l (placed_cells mk done texts)
  = placed_cells mk (done ++ l) texts.
Proof.
  revert done. induction l as [|ins l IH]; intros done; cbn [fold_left].
  - now rewrite app_nil_r.
  - replace (done ++ ins :: l) with ((done ++ [ins]) ++ l)
      by (rewrite <- app_assoc; reflexivity).
    rewrite <- IH. f_equal. unfold placed_cells.
    rewrite filter_app. cbn [filter].
    destruct (lacks_anchor texts ins) eqn:E.
    + unfold lacks_anchor in E. apply orb_true_iff in E.
      assert (Hk : afterIdx ins < 0
                   \/ 0 + Z.of_nat (List.length texts) <= afterIdx ins).
      { destruct E as [E|E]; [apply Z.ltb_lt in E|apply Z.leb_le in E]; lia. }
      rewrite insertAfter_none.
      * rewrite placed_cells_from_other by exact Hk.
        rewrite map_app, <- app_assoc. reflexivity.
      * intros c Hc. apply in_app_or in Hc. destruct Hc as [Hc|Hc].
        -- now apply (placed_cells_from_no_origin _ 0 mk done texts).
        -- now apply (derived_cells_no_origin _ mk _ c Hc).
    + unfold lacks_anchor in E. apply orb_false_iff in E. destruct E as [E1 E2].
      apply Z.ltb_ge in E1. apply Z.leb_gt in E2.
      rewrite app_nil_r. apply insertAfter_placed. lia.
Qed.

Lemma innerText_placed_cells_from (i : Z) mk insertions (texts : list string) :
  map innerText (placed_cells_from i mk insertions texts)
  = placed_from i mk insertions texts.
Proof.
  revert i. induction texts as [|t texts IH]; intros i; [reflexivity|].
  cbn [placed_cells_from placed_from app map]. rewrite map_app, IH.
  unfold derived_after. rewrite map_map. reflexivity.
Qed.

Lemma innerText_placed_cells mk insertions (texts : list string) :
  map innerText (placed_cells mk insertions texts) = placed mk insertions texts.
Proof.
  unfold placed_cells, placed.
  rewrite map_app, innerText_placed_cells_from, map_map. reflexivity.
Qed.

Lemma placed_cells_nil mk (texts : list string) :
  placed_cells mk [] texts = snapshot texts.
Proof.
  unfold placed_cells, snapshot. cbn [filter map].
  now rewrite app_nil_r, placed_cells_from_nil.
Qed.

(** Where [processTable] puts the cells of a body row and of the header
    row. *)
Lemma inject_row_live_placed (insertions : list insertion) (cells : list string) :
  inject_row_live insertions cells
  = placed_cells (fun ins => formatPct (calculate ins cells)) insertions cells.
Proof.
  unfold inject_row_live.
  rewrite <- (placed_cells_nil (fun ins => formatPct (calculate ins cells))).
  exact (fold_insertAfter_placed _ cells insertions []).
Qed.

Lemma inject_header_live_placed (insertions : list insertion)
    (headerCells : list string) :
  inject_header_live insertions headerCells
  = placed_cells headerText insertions headerCells.
Proof.
  unfold inject_header_live. rewrite <- (placed_cells_nil headerText).
  exact (fold_insertAfter_placed _ headerCells insertions []).
Qed.

Lemma placed_from_unanchored (i : Z) mk (insertions : list insertion)
    (cells : list string) :
  (forall ins, In ins insertions ->
     afterIdx ins < i \/ i + Z.of_nat (List.length cells) <= afterIdx ins) ->
  placed_from i mk insertions cells = cells.
Proof.
  revert i. induction cells as [|t cells IH]; intros i H; [reflexivity|].
  cbn [placed_from List.length] in H |- *. rewrite Nat2Z.inj_succ in H.
  assert (E : filter (fun ins => afterIdx ins =? i) insertions = []).
  { clear IH. induction insertions as [|ins l IHl]; [reflexivity|].
    cbn [filter]. specialize (H ins (or_introl eq_refl)) as Hi.
    destruct (afterIdx ins =? i) eqn:E; [apply Z.eqb_eq in E; lia|].
    apply IHl. intros ins' Hin. apply H. now right. }
  unfold derived_after. rewrite E. cbn [rev map app]. f_equal.
  apply IH. intros ins Hin. specialize (H ins Hin). lia.
Qed.

(** Derived cells whose anchors the row lacks are appended to the row, in
    the order of their insertion. *)
Lemma placed_without_anchors mk (insertions : list insertion)
    (cells : list string) :
  forallb (lacks_anchor cells) insertions = true ->
  placed mk insertions cells = cells ++ map mk insertions.
Proof.
  intros H. unfold placed.
  assert (Hall : forall ins, In ins insertions -> lacks_anchor cells ins = true)
    by (now apply forallb_forall).
  rewrite placed_from_unanchored.
  - f_equal. f_equal. clear H. induction insertions as [|ins l IH]; [reflexivity|].
    cbn [filter]. rewrite (Hall ins (or_introl eq_refl)). f_equal.
    apply IH. intros ins' Hin. apply Hall. now right.
  - intros ins Hin. specialize (Hall ins Hin). unfold lacks_anchor in Hall.
    apply orb_true_iff in Hall.
    destruct Hall as [E|E]; [apply Z.ltb_lt in E|apply Z.leb_le in E]; lia.
Qed.

Lemma placed_from_one (i : Z) mk (ins : insertion) (before after : list string)
    (c : string) :
  afterIdx ins = i + Z.of_nat (List.length before) ->
  placed_from i mk [ins] (before ++ c :: after) = before ++ c :: mk ins :: after.
Proof.
  revert i. induction before as [|t before IH]; intros i Hk.
  - cbn [List.length Z.of_nat] in Hk. cbn [app placed_from].
    unfold derived_after. cbn [filter].
    replace (afterIdx ins =? i) with true by (symmetry; apply Z.eqb_eq; lia).
    cbn [rev app map]. do 2 f_equal.
    apply placed_from_unanchored. intros ins' [<-|[]]. lia.
  - cbn [List.length] in Hk. rewrite Nat2Z.inj_succ in Hk.
    cbn [app placed_from]. unfold derived_after. cbn [filter].
    replace (afterIdx ins =? i) with false by (symmetry; apply Z.eqb_neq; lia).
    cbn [rev app map]. f_equal. apply IH. lia.
Qed.

(** A single derived cell stands right after its anchor cell. *)
Lemma placed_one mk (ins : insertion) (before after : list string) (c : string) :
  afterIdx ins = Z.of_nat (List.length before) ->
  placed mk [ins] (before ++ c :: after) = before ++ c :: mk ins :: after.
Proof.
  intros Hk. unfold placed. rewrite placed_from_one by lia.
  cbn [filter]. unfold lacks_anchor. rewrite length_app. cbn [List.length].
  replace (afterIdx ins <? 0) with false by (symmetry; apply Z.ltb_ge; lia).
  replace (Z.of_nat (List.length before + S (List.length after)) <=? afterIdx ins)
    with false by (symmetry; apply Z.leb_gt; lia).
  cbn [orb map]. now rewrite app_nil_r.
Qed.

End Placement.

(** A counter cell that the row does not have reads as 0. *)
Lemma missing_cell_reads_zero (cells : list string) (i : Z) :
  Z.of_nat (List.length cells) <= i -> parseNum (innerTextAt cells i) = zero.
Proof.
  intros H. unfold innerTextAt, at_index.
  destruct (i <? 0) eqn:E; [reflexivity|].
  assert (Hn : nth_error cells (Z.to_nat i) = None).
  { apply nth_error_None. lia. }
  now rewrite Hn.
Qed.

Lemma length_sort_desc (l : list insertion) :
  List.length (sort_desc l) = List.length l.
Proof.
  assert (Hi : forall x l, List.length (sort_insert x l) = S (List.length l)).
  { intros x l0. induction l0 as [|y l0 IH]; simpl; [reflexivity|].
    destruct (afterIdx y <=? afterIdx x); simpl; [reflexivity|now rewrite IH]. }
  induction l as [|x l IH]; simpl; [reflexivity|]. now rewrite Hi, IH.
Qed.

(** The two outcomes of [processTable]: the table as it was, or the table
    with the sorted insertions applied to the header row and to every body
    row. *)
Lemma processTable_cases (cfg : INSIGHT_CONFIG.lensedColumns) (t : table)
    (flag : bool) :
  processTable cfg t flag = (t, flag)
  \/ exists headerCells,
       table_insertions cfg headerCells <> []
       /\ thead t = Some headerCells
       /\ processTable cfg t flag
          = ({| thead := Some (inject_header
                                (sort_desc (table_insertions cfg headerCells))
                                headerCells);
                tbody := map (inject_row
                                (sort_desc (table_insertions cfg headerCells)))
                             (tbody t) |}, true).
Proof.
  unfold processTable.
  destruct (thead t) as [headerCells|] eqn:Ht; [|now left].
  destruct (already_injected (map trim headerCells)); [now left|].
  match goal with |- context [if ?b then (t, flag) else _] => destruct b end;
    [now left|].
  fold (table_insertions cfg headerCells).
  destruct (List.length (table_insertions cfg headerCells) =? 0)%nat eqn:E;
    [now left|].
  right. exists headerCells. split; [|split; reflexivity].
  intros Hnil. rewrite Hnil in E. discriminate E.
Qed.

(** In a table with the headers Dialed, Contacts and APPT, the row that has
    the single cell "100" lacks the cells of Contacts and of APPT; it
    receives the two derived cells all the same. *)
Lemma short_row_receives_derived_cells :
  tbody (fst (processTable INSIGHT_CONFIG.defaults table_short_row false))
  = [["100"; "0.00%"; "0.00%"];
     ["50"; "20"; "5"; "25.00%"; "10.00%"];
     []]
  /\ nth 0 (tbody (fst (processTable INSIGHT_CONFIG.defaults table_short_row false))) []
     <> nth 0 (tbody table_short_row) [].
Proof. split; vm_compute; [reflexivity|discriminate]. Qed.

(** C7 (amended). Column injection either leaves the table as it is or
    treats every body row: a row without any cell is left as it is, and every
    other row, however short, receives one derived cell per injected column
    and keeps its own cells in their order.  Each derived cell stands right
    after the cell of its anchor column, before the derived cells inserted
    there earlier; a derived cell whose anchor cell is missing is appended at
    the end of the row.  The header row is filled in the same way.  A counter
    cell that a short row lacks reads as 0.  The pass is a total function of
    the table: no row makes it stop. *)
Theorem injection_treats_every_row (cfg : INSIGHT_CONFIG.lensedColumns)
    (t : table) (flag : bool) :
  (processTable cfg t flag = (t, flag)
   \/ exists headerCells insertions,
        insertions <> []
        /\ thead t = Some headerCells
        /\ processTable cfg t flag
           = ({| thead := Some (inject_header insertions headerCells);
                 tbody := map (inject_row insertions) (tbody t) |}, true)
        /\ List.length (inject_header insertions headerCells)
           = (List.length headerCells + List.length insertions)%nat)
  /\ (forall insertions, inject_row insertions [] = [])
  /\ (forall insertions cells, cells <> [] ->
        List.length (inject_row insertions cells)
        = (List.length cells + List.length insertions)%nat
        /\ inject_row insertions cells
           = placed (fun ins => formatPct (calculate ins cells)) insertions cells
        /\ map innerText (filter is_original (inject_row_live insertions cells))
           = cells)
  /\ (forall insertions headerCells,
        inject_header insertions headerCells
        = placed headerText insertions headerCells)
  /\ (forall ins before c after,
        afterIdx ins = Z.of_nat (List.length before) ->
        inject_row [ins] (before ++ c :: after)%list
        = (before ++ c :: formatPct (calculate ins (before ++ c :: after))
                  :: after)%list)
  /\ (forall insertions cells, cells <> [] ->
        forallb (lacks_anchor cells) insertions = true ->
        inject_row insertions cells
        = (cells ++ map (fun ins => formatPct (calculate ins cells)) insertions)%list)
  /\ (forall cells i, Z.of_nat (List.length cells) <= i ->
                      parseNum (innerTextAt cells i) = zero).
Proof.
  assert (Hrow : forall insertions cells, cells <> [] ->
            inject_row insertions cells
            = placed (fun ins => formatPct (calculate ins cells)) insertions cells).
  { intros insertions cells Hne.
    rewrite (proj1 (inject_row_nonempty insertions cells Hne)).
    now rewrite inject_row_live_placed, innerText_placed_cells. }
  split; [|split; [|split; [|split; [|split; [|split]]]]].
  - destruct (processTable_cases cfg t flag) as [E|[headerCells [Hne [Ht E]]]];
      [now left|].
    right. exists headerCells, (sort_desc (table_insertions cfg headerCells)).
    split; [|split; [exact Ht|split; [exact E|]]].
    + intros Hnil. apply (f_equal (@List.length _)) in Hnil.
      rewrite length_sort_desc in Hnil.
      destruct (table_insertions cfg headerCells); [contradiction|discriminate].
    + unfold inject_header, inject_header_live. rewrite length_map.
      pose proof (fold_insert_facts headerText
                    (sort_desc (table_insertions cfg headerCells))
                    (snapshot headerCells)) as [H _].
      rewrite H. unfold snapshot. now rewrite length_snapshot_from.
  - apply inject_row_empty.
  - intros insertions cells Hne.
    destruct (inject_row_nonempty insertions cells Hne) as [H1 [H2 H3]].
    split; [exact H2|]. split; [now apply Hrow|exact H3].
  - intros insertions headerCells. unfold inject_header.
    now rewrite inject_header_live_placed, innerText_placed_cells.
  - intros ins before c after Hk.
    rewrite Hrow by (destruct before; discriminate).
    now apply placed_one.
  - intros insertions cells Hne Hall. rewrite (Hrow _ _ Hne).
    now apply placed_without_anchors.
  - apply missing_cell_reads_zero.
Qed.

(** The guard of [processTable]: a table that shows one of the three [(C)]
    header texts is left as it is. *)
Lemma processTable_guard cfg t flag headerCells :
  thead t = Some headerCells ->
  already_injected (map trim headerCells) = true ->
  processTable cfg t flag = (t, flag).
Proof. intros Ht H. unfold processTable. now rewrite Ht, H. Qed.

(** C1, on a table that has a Dialed column and no Contacts column: the
    first call injects the three [(D)] columns; the guard looks for the [(C)]
    header texts only, so the second call injects the three [(D)] columns
    again. *)
Theorem second_call_repeats_dialed_columns :
  let once := fst (processTable INSIGHT_CONFIG.defaults table_dialed_only false) in
  let twice := fst (processTable INSIGHT_CONFIG.defaults once true) in
  thead once
  = Some ["Agent"; "Dialed"; "APPT"; "APPT%(D)"; "LXFER"; "LXFER%(D)";
          "Success"; "SUCCESS%(D)"]
  /\ tbody once
     = [["Bob"; "100"; "10"; "10.00%"; "5"; "5.00%"; "30"; "30.00%"]]
  /\ thead twice
     = Some ["Agent"; "Dialed"; "APPT"; "APPT%(D)"; "APPT%(D)"; "LXFER";
             "LXFER%(D)"; "LXFER%(D)"; "Success"; "SUCCESS%(D)"; "SUCCESS%(D)"]
  /\ tbody twice
     = [["Bob"; "100"; "10"; "10.00%"; "10.00%"; "5"; "5.00%"; "5.00%"; "30";
         "30.00%"; "30.00%"]]
  /\ twice <> once.
Proof.
  repeat split; try (vm_compute; reflexivity).
  vm_compute. discriminate.
Qed.

(* ================================================================== *)
(** ** The shape of a printed percentage *)
(* ================================================================== *)

(** Case analysis on the eight bits of a character. *)
Ltac ascii_cases c :=
  destruct c as [[] [] [] [] [] [] [] []]; try discriminate; try reflexivity.

Lemma length_append (a b : string) :
  String.length (a ++ b) = (String.length a + String.length b)%nat.
Proof. induction a as [|c a IH]; simpl; [reflexivity|now rewrite IH]. Qed.

Lemma substring_0_0 (s : string) : substring 0 0 s = EmptyString.
Proof. now destruct s. Qed.

Lemma substring_0_length (s : string) : substring 0 (String.length s) s = s.
Proof. induction s as [|c s IH]; simpl; [reflexivity|now rewrite IH]. Qed.

Lemma substring_0_app (a b : string) :
  substring 0 (String.length a) (a ++ b) = a.
Proof.
  induction a as [|c a IH]; simpl; [apply substring_0_0|now rewrite IH].
Qed.

Lemma substring_skip_app (a b : string) (n m : nat) :
  substring (String.length a + n) m (a ++ b) = substring n m b.
Proof. induction a as [|c a IH]; simpl; [reflexivity|exact IH]. Qed.

Lemma length_substring (s : string) (n m : nat) :
  (n + m <= String.length s)%nat -> String.length (substring n m s) = m.
Proof.
  revert n m. induction s as [|c s IH]; intros n m H; simpl in H.
  - assert (n = 0%nat) by lia. assert (m = 0%nat) by lia. now subst.
  - destruct n as [|n]; simpl.
    + destruct m as [|m]; simpl; [reflexivity|]. rewrite IH; [reflexivity|lia].
    + apply IH. lia.
Qed.

Lemma all_digits_app (a b : string) :
  Spec.all_digits (a ++ b) = Spec.all_digits a && Spec.all_digits b.
Proof.
  induction a as [|c a IH]; simpl; [reflexivity|].
  now rewrite IH, andb_assoc.
Qed.

Lemma all_digits_substring (s : string) (n m : nat) :
  Spec.all_digits s = true -> Spec.all_digits (substring n m s) = true.
Proof.
  revert n m. induction s as [|c s IH]; intros n m H.
  - now destruct n, m.
  - simpl in H. apply andb_true_iff in H. destruct H as [Hc Hs].
    destruct n as [|n]; simpl.
    + destruct m as [|m]; simpl; [reflexivity|].
      rewrite Hc. simpl. now apply IH.
    + now apply IH.
Qed.

Lemma all_digits_zeros (n : nat) : Spec.all_digits (zeros n) = true.
Proof. induction n as [|n IH]; simpl; [reflexivity|exact IH]. Qed.

Lemma length_zeros (n : nat) : String.length (zeros n) = n.
Proof. induction n as [|n IH]; simpl; [reflexivity|now rewrite IH]. Qed.

Lemma all_digits_string_of_uint (d : Decimal.uint) :
  Spec.all_digits (NilEmpty.string_of_uint d) = true.
Proof. induction d; simpl; auto. Qed.

Lemma all_digits_digits (n : N) : Spec.all_digits (digits n) = true.
Proof. apply all_digits_string_of_uint. Qed.

Lemma digits_nonempty (n : N) : (0 < String.length (digits n))%nat.
Proof.
  unfold digits. destruct n as [|p]; simpl; [lia|].
  pose proof (DecimalPos.Unsigned.to_uint_nonnil p) as H.
  destruct (Pos.to_uint p); simpl; try lia. contradiction.
Qed.

(** A digit is not the minus sign. *)
Lemma is_fixed_digit_first (f : nat) (c : ascii) (s : string) :
  isDigit c = true ->
  Spec.is_fixed f (String c s) = Spec.unsigned_fixed f (String c s).
Proof.
  ascii_cases c.
Qed.

Lemma unsigned_fixed_parts (f : nat) (a b : string) :
  (0 < String.length a)%nat -> Spec.all_digits a = true ->
  String.length b = f -> Spec.all_digits b = true ->
  Spec.unsigned_fixed f (a ++ "." ++ b) = true.
Proof.
  intros Ha Hda Hb Hdb. unfold Spec.unsigned_fixed.
  rewrite !length_append. simpl String.length. rewrite Hb.
  replace (String.length a + (1 + f) - f - 1)%nat with (String.length a) by lia.
  replace (String.length a + (1 + f) - f)%nat with (String.length a + 1)%nat by lia.
  rewrite substring_0_app, Hda.
  rewrite substring_skip_app.
  pose proof (substring_skip_app a ("." ++ b) 0 1) as Hdot.
  rewrite Nat.add_0_r in Hdot. rewrite Hdot. clear Hdot.
  simpl. rewrite substring_0_0.
  subst f. rewrite substring_0_length, Hdb. simpl.
  rewrite !andb_true_r. apply Nat.ltb_lt. lia.
Qed.

Lemma positional_fixed (f : nat) (n : N) :
  (0 < f)%nat ->
  exists a b, positional f n = a ++ "." ++ b
              /\ (0 < String.length a)%nat /\ Spec.all_digits a = true
              /\ String.length b = f /\ Spec.all_digits b = true.
Proof.
  intros Hf. unfold positional. destruct f as [|f]; [lia|].
  set (m := digits n).
  set (m' := if (String.length m <=? S f)%nat
             then zeros (S f + 1 - String.length m) ++ m else m).
  assert (Hd : Spec.all_digits m' = true).
  { unfold m'. destruct (String.length m <=? S f)%nat.
    - rewrite all_digits_app, all_digits_zeros. apply all_digits_digits.
    - apply all_digits_digits. }
  assert (Hl : (S f < String.length m')%nat).
  { unfold m'. destruct (String.length m <=? S f)%nat eqn:E.
    - apply Nat.leb_le in E. rewrite length_append, length_zeros. lia.
    - apply Nat.leb_gt in E. lia. }
  exists (substring 0 (String.length m' - S f) m'),
         (substring (String.length m' - S f) (S f) m').
  split; [reflexivity|].
  split; [rewrite length_substring; lia|].
  split; [now apply all_digits_substring|].
  split; [rewrite length_substring; lia|].
  now apply all_digits_substring.
Qed.

Lemma is_percent2_app (x : string) :
  Spec.is_percent2 (x ++ "%") = Spec.is_fixed 2 x.
Proof.
  unfold Spec.is_percent2. rewrite length_append. simpl String.length.
  replace (String.length x + 1 - 1)%nat with (String.length x) by lia.
  pose proof (substring_skip_app x "%" 0 1) as Hp.
  rewrite Nat.add_0_r in Hp. rewrite Hp, substring_0_app. clear Hp.
  replace (0 <? String.length x + 1)%nat with true
    by (symmetry; apply Nat.ltb_lt; lia).
  reflexivity.
Qed.

(** A finite number below 10^21 in magnitude is printed by [toFixed(2)] as
    [N.NN]; with the trailing sign it is [N.NN%]. *)
Lemma toFixed2_percent (q : Qc) :
  isLarge q = false -> Spec.is_percent2 (toFixed 2 (Fin q) ++ "%") = true.
Proof.
  intros Hq. rewrite is_percent2_app.
  unfold toFixed. rewrite Hq.
  destruct (positional_fixed 2 (roundScaled 2 q) ltac:(lia))
    as [a [b [E [Ha [Hda [Hb Hdb]]]]]].
  rewrite E.
  destruct (Qc_ltb q 0%Qc).
  - simpl. now apply unsigned_fixed_parts.
  - simpl append at 1.
    destruct a as [|c a]; [simpl in Ha; lia|].
    pose proof Hda as Hda0.
    simpl in Hda. apply andb_true_iff in Hda. destruct Hda as [Hc Hda'].
    change (Spec.is_fixed 2 (String c (a ++ "." ++ b)) = true).
    rewrite is_fixed_digit_first by exact Hc.
    change (Spec.unsigned_fixed 2 (String c a ++ "." ++ b) = true).
    now apply unsigned_fixed_parts.
Qed.

(* ================================================================== *)
(** ** The CSV export *)
(* ================================================================== *)

Lemma csv_lines_rows (data : aggregation) :
  csv_lines data = map row_line (exported_rows data).
Proof.
  unfold csv_lines, exported_rows.
  induction (agents data) as [|[a d] l IH]; simpl; [reflexivity|].
  rewrite map_app, <- IH. f_equal.
  unfold csv_lines_of_agent.
  induction (lists d) as [|[ln ld] ls IHs]; simpl; [reflexivity|].
  destruct (is_all ln); simpl; [exact IHs|].
  now rewrite IHs.
Qed.

Lemma In_exported_rows (data : aggregation) a l d :
  In (a, l, d) (exported_rows data)
  <-> (exists ad, In (a, ad) (agents data) /\ In (l, d) (lists ad))
      /\ toLowerCase l <> "all".
Proof.
  unfold exported_rows. rewrite in_flat_map. split.
  - intros [[a' ad] [Hin Hrow]]. simpl in Hrow.
    apply in_map_iff in Hrow. destruct Hrow as [[l' d'] [E Hf]].
    simpl in E. injection E as -> -> ->.
    apply filter_In in Hf. destruct Hf as [Hl Hall]. simpl in Hall.
    split; [exists ad; now split|].
    unfold is_all in Hall. apply negb_true_iff in Hall.
    now apply String.eqb_neq in Hall.
  - intros [[ad [Ha Hl]] Hall]. exists (a, ad). split; [exact Ha|].
    simpl. apply in_map_iff. exists (l, d). split; [reflexivity|].
    apply filter_In. split; [exact Hl|]. simpl.
    unfold is_all. apply negb_true_iff. now apply String.eqb_neq.
Qed.

Lemma NoDup_keys_filter {V : Type} (p : string * V -> bool)
    (m : list (string * V)) :
  NoDup (map fst m) -> NoDup (map fst (filter p m)).
Proof.
  induction m as [|[k v] m IH]; simpl; intros H; [constructor|].
  inversion H as [|? ? Hk Hm]; subst.
  destruct (p (k, v)); simpl; [|now apply IH].
  constructor; [|now apply IH].
  intros Hin. apply Hk. apply in_map_iff in Hin.
  destruct Hin as [x [E Hx]]. apply filter_In in Hx.
  apply in_map_iff. exists x. tauto.
Qed.

Lemma exported_rows_distinct (data : aggregation) :
  keys_distinct data -> NoDup (map row_key (exported_rows data)).
Proof.
  intros [Ha Hl]. unfold exported_rows.
  induction (agents data) as [|[a d] l IH]; simpl; [constructor|].
  simpl in Ha. inversion Ha as [|? ? Hna Hnd]; subst.
  rewrite map_app. apply NoDup_app.
  - rewrite map_map. simpl.
    assert (Hd : NoDup (map fst (filter (fun le => negb (is_all (fst le)))
                                        (lists d)))).
    { apply NoDup_keys_filter. apply (Hl a). now left. }
    induction (filter (fun le => negb (is_all (fst le))) (lists d))
      as [|[ln ld] ls IHs]; simpl; [constructor|].
    simpl in Hd. inversion Hd as [|? ? Hk Hm]; subst.
    constructor; [|now apply IHs].
    intros Hin. apply Hk. apply in_map_iff in Hin.
    destruct Hin as [x [E Hx]]. unfold row_key in E. simpl in E.
    injection E as E. apply in_map_iff. exists x. now split.
  - apply IH; [exact Hnd|]. intros a' d' Hin. apply (Hl a'). now right.
  - intros key Hk1 Hk2. apply Hna.
    apply in_map_iff in Hk1. destruct Hk1 as [r1 [E1 H1]].
    apply in_map_iff in H1. destruct H1 as [le [E1' _]]. subst r1.
    unfold row_key in E1. simpl in E1. subst key.
    apply in_map_iff in Hk2. destruct Hk2 as [r2 [E2 H2]].
    apply in_flat_map in H2. destruct H2 as [[a2 d2] [Hin2 H2]].
    simpl in H2. apply in_map_iff in H2. destruct H2 as [le2 [E2' _]].
    subst r2. unfold row_key in E2. simpl in E2. injection E2 as E2 _.
    subst a2. apply in_map_iff. exists (a, d2). now split.
Qed.

(** A cell that reads "Infinity" is a number for [parseFloat]: the export
    then writes the field [Infinity%], which is not [N.NN%]. *)
Lemma infinite_counter_is_not_a_percentage :
  fst (exportCSV [table_infinite_cell] "2026-11-01T10:00:00.000Z")
  = csv_header ++ newline
    ++ dquote ++ "Bob" ++ dquote ++ "," ++ dquote ++ "A" ++ dquote
    ++ ",5,Infinity,Infinity%,0,0.00%,0.00%,0,0.00%,0.00%,0,0.00%,0.00%"
    ++ newline
  /\ exists d data,
      Map_get (agents (extractAllTableData [table_infinite_cell])) "Bob" = Some d
      /\ Map_get (lists d) "A" = Some data
      /\ nth 4 (csv_fields "Bob" "A" data) EmptyString = "Infinity%"
      /\ Spec.is_percent2 (nth 4 (csv_fields "Bob" "A" data) EmptyString) = false.
Proof.
  split; [vm_compute; reflexivity|].
  eexists. eexists.
  split; [vm_compute; reflexivity|].
  split; [vm_compute; reflexivity|].
  split; vm_compute; reflexivity.
Qed.

(** C8 (amended). The text written by [exportCSV] is the header line
    [Agent,List,...,SUCCESS%(D)], then one line per (agent, list) pair of
    the aggregation whose list name is not "all" in any letter case, each
    pair once.  A line has fourteen fields; its seven percentage fields are
    the ratios printed by [toFixed(2)] with a trailing %, which is [N.NN%]
    for every ratio that is finite and below 10^21 in magnitude.  The file is
    named [convoso-insight-] followed by the first ten characters of the ISO
    date and [.csv]. *)
Theorem exportCSV_artifact (page : list table) (now : string) :
  let data := extractAllTableData page in
  let rows := exported_rows data in
  fst (exportCSV page now)
  = csv_header ++ newline ++ String.concat EmptyString (map row_line rows)
  /\ (forall a l d,
        In (a, l, d) rows
        <-> (exists ad, In (a, ad) (agents data) /\ In (l, d) (lists ad))
            /\ toLowerCase l <> "all")
  /\ NoDup (map row_key rows)
  /\ (forall a l d,
        csv_line a l d = String.concat "," (csv_fields a l d) ++ newline
        /\ List.length (csv_fields a l d) = 14%nat
        /\ cellsAt csv_ratio_fields (csv_fields a l d)
           = map (fun r => toFixed 2 r ++ "%") (Spec.ratios d))
  /\ (forall a l d,
        (forall r, In r (Spec.ratios d) -> exists q, r = Fin q /\ isLarge q = false) ->
        forallb Spec.is_percent2 (cellsAt csv_ratio_fields (csv_fields a l d))
        = true)
  /\ snd (exportCSV page now) = "convoso-insight-" ++ slice0 10 now ++ ".csv".
Proof.
  intros data rows.
  split; [unfold exportCSV; simpl; fold data; now rewrite csv_lines_rows|].
  split; [intros a l d; apply In_exported_rows|].
  split; [apply exported_rows_distinct, extractAllTableData_keys|].
  split; [intros a l d; repeat split|].
  split; [|reflexivity].
  intros a l d Hr. rewrite csv_fields_ratios.
  apply forallb_forall. intros x Hx.
  apply in_map_iff in Hx. destruct Hx as [r [<- Hin]].
  destruct (Hr r Hin) as [q [-> Hq]].
  now apply toFixed2_percent.
Qed.

(* ================================================================== *)
(** ** The Numeric Parser *)
(* ================================================================== *)

Lemma append_nil_r (s : string) : s ++ EmptyString = s.
Proof. induction s as [|c s IH]; simpl; [reflexivity|now rewrite IH]. Qed.

Lemma digit_not_white (c : ascii) : isDigit c = true -> isWhite c = false.
Proof. ascii_cases c. Qed.

Lemma digit_not_stripped (c : ascii) :
  isDigit c = true -> percent_dollar_comma c = false.
Proof. ascii_cases c. Qed.

Lemma splitSign_digit (c : ascii) (r : string) :
  isDigit c = true -> splitSign (String c r) = (false, String c r).
Proof. ascii_cases c. Qed.

Lemma not_Infinity_digit (c : ascii) (r : string) :
  isDigit c = true -> prefix "Infinity" (String c r) = false.
Proof.
  ascii_cases c.
Qed.

Lemma spanDigits_app (d r : string) :
  Spec.all_digits d = true -> starts_with_digit r = false ->
  spanDigits (d ++ r) = (d, r).
Proof.
  intros Hd Hr. induction d as [|c d IH]; simpl.
  - destruct r as [|c r]; simpl; [reflexivity|]. simpl in Hr. now rewrite Hr.
  - simpl in Hd. apply andb_true_iff in Hd. destruct Hd as [Hc Hd].
    rewrite Hc, (IH Hd). reflexivity.
Qed.

Lemma spanDigits_all (d : string) :
  Spec.all_digits d = true -> spanDigits d = (d, EmptyString).
Proof.
  intros Hd. rewrite <- (append_nil_r d) at 1. now apply spanDigits_app.
Qed.

Lemma trimEnd_digits (d : string) : Spec.all_digits d = true -> trimEnd d = d.
Proof.
  induction d as [|c d IH]; simpl; [reflexivity|]. intros H.
  apply andb_true_iff in H. destruct H as [Hc Hd]. rewrite (IH Hd).
  destruct d; [now rewrite (digit_not_white c Hc)|reflexivity].
Qed.

Lemma trim_digits (d : string) : Spec.all_digits d = true -> trim d = d.
Proof.
  intros H. unfold trim. destruct d as [|c d]; [reflexivity|].
  pose proof H as H'. simpl in H'. apply andb_true_iff in H'.
  destruct H' as [Hc _]. cbn [trimStart]. rewrite (digit_not_white c Hc).
  now apply trimEnd_digits.
Qed.

(** [parseFloat] on the numeral [ip.fp]: the value of binary64 nearest to
    it. *)
Lemma parseFloat_point (ip fp : string) :
  ip <> EmptyString -> Spec.all_digits ip = true -> Spec.all_digits fp = true ->
  parseFloat (ip ++ "." ++ fp) = round64 (decimal_value ip fp).
Proof.
  intros Hne Hip Hfp. destruct ip as [|c ip]; [contradiction|].
  pose proof Hip as Hip'. simpl in Hip'. apply andb_true_iff in Hip'.
  destruct Hip' as [Hc _].
  unfold parseFloat.
  change (String c ip ++ "." ++ fp) with (String c (ip ++ "." ++ fp)).
  cbn [trimStart]. rewrite (digit_not_white c Hc).
  rewrite (splitSign_digit c _ Hc), (not_Infinity_digit c _ Hc).
  change (String c (ip ++ "." ++ fp)) with (String c ip ++ "." ++ fp).
  rewrite (spanDigits_app (String c ip) ("." ++ fp) Hip eq_refl).
  cbn [append]. rewrite (spanDigits_all fp Hfp).
  cbn [parseExponent]. unfold decimal_value.
  change (String c ip ++ fp) with (String c (ip ++ fp)).
  rewrite Z.sub_0_l. reflexivity.
Qed.

(** [parseFloat] on a numeral without a point. *)
Lemma parseFloat_integer (d : string) :
  d <> EmptyString -> Spec.all_digits d = true ->
  parseFloat d = round64 (inject_Z (digitsValue 0 d)).
Proof.
  intros Hne Hd. destruct d as [|c d]; [contradiction|].
  pose proof Hd as Hd'. simpl in Hd'. apply andb_true_iff in Hd'.
  destruct Hd' as [Hc _].
  unfold parseFloat. cbn [trimStart]. rewrite (digit_not_white c Hc).
  rewrite (splitSign_digit c _ Hc), (not_Infinity_digit c _ Hc).
  rewrite (spanDigits_all (String c d) Hd).
  rewrite append_nil_r. cbn [parseExponent String.length Z.of_nat Z.sub].
  rewrite <- (this_ofZ (digitsValue 0 (String c d))). do 2 f_equal.
  apply Qc_is_canon. simpl Qpower.
  cbn [Q2Qc this]. rewrite !Qred_correct. apply Qmult_1_r.
Qed.

Lemma round64_not_NaN (q : Q) : isNaN (round64 q) = false.
Proof.
  unfold round64. destruct (Z.abs (Qnum q) =? 0); [reflexivity|]. cbv zeta.
  destruct (52 - Z.max (floor_log2 (Z.abs (Qnum q)) (Z.pos (Qden q))) (-1022) <? 0);
    [|reflexivity].
  match goal with |- context [if ?c then Inf _ else _] => destruct c end;
    reflexivity.
Qed.

(** What [digits] writes, [digitsValue] reads back. *)
Lemma digitsValue_of_uint_acc (d : Decimal.uint) (acc : positive) :
  digitsValue (Zpos acc) (NilEmpty.string_of_uint d)
  = Zpos (Pos.of_uint_acc d acc).
Proof.
  revert acc.
  induction d; intros acc;
    cbn [NilEmpty.string_of_uint digitsValue Pos.of_uint_acc];
    try reflexivity; rewrite <- IHd; f_equal;
    match goal with
    | |- context [digitVal ?c] =>
        let v := eval vm_compute in (digitVal c) in change (digitVal c) with v
    end; lia.
Qed.

Lemma digitsValue_of_uint (d : Decimal.uint) :
  digitsValue 0 (NilEmpty.string_of_uint d) = Z.of_N (Pos.of_uint d).
Proof.
  induction d; cbn [NilEmpty.string_of_uint digitsValue Pos.of_uint];
    try reflexivity; try exact IHd;
    cbn [Z.of_N]; rewrite <- digitsValue_of_uint_acc; reflexivity.
Qed.

Lemma digitsValue_digits (n : N) : digitsValue 0 (digits n) = Z.of_N n.
Proof.
  unfold digits. rewrite digitsValue_of_uint.
  change (Pos.of_uint (N.to_uint n)) with (N.of_uint (N.to_uint n)).
  now rewrite DecimalN.Unsigned.of_to.
Qed.

Lemma digits_not_empty (n : N) : digits n <> EmptyString.
Proof.
  intros E. pose proof (digits_nonempty n) as H. rewrite E in H. simpl in H. lia.
Qed.

Lemma removeChars_app (cls : ascii -> bool) (a b : string) :
  removeChars cls (a ++ b) = removeChars cls a ++ removeChars cls b.
Proof.
  induction a as [|c a IH]; simpl; [reflexivity|].
  destruct (cls c); simpl; now rewrite IH.
Qed.

Lemma removeChars_digits (d : string) :
  Spec.all_digits d = true -> removeChars percent_dollar_comma d = d.
Proof.
  induction d as [|c d IH]; simpl; [reflexivity|]. intros H.
  apply andb_true_iff in H. destruct H as [Hc Hd].
  now rewrite (digit_not_stripped c Hc), (IH Hd).
Qed.

(** A dollar sign before the digits and a percent sign after them are
    removed, and nothing else is. *)
Lemma clean_text_digits (d : string) :
  Spec.all_digits d = true -> clean_text ("$" ++ d ++ "%") = d.
Proof.
  intros H. unfold clean_text.
  change ("$" ++ d ++ "%") with (String "$" (d ++ "%")).
  cbn [removeChars]. change (percent_dollar_comma "$") with true. cbn iota.
  rewrite removeChars_app, (removeChars_digits d H). simpl removeChars.
  rewrite append_nil_r. now apply trim_digits.
Qed.

Lemma parseNum_not_NaN (v : value) : isNaN (parseNum v) = false.
Proof.
  destruct v as [| | | |s|]; try reflexivity. simpl.
  destruct (negb (nonEmpty s)); [reflexivity|].
  destruct (parseFloat (clean_text s)) eqn:E; reflexivity.
Qed.

Lemma clean_text_empty : clean_text EmptyString = EmptyString.
Proof. reflexivity. Qed.

Lemma parseNum_parsable (s : string) (x : number) :
  parseFloat (clean_text s) = x -> isNaN x = false -> parseNum (Text s) = x.
Proof.
  intros E Hx. simpl. destruct s as [|c s].
  - rewrite clean_text_empty in E. subst x. discriminate Hx.
  - simpl. rewrite E. now rewrite Hx.
Qed.

(** C9. [parseNum] is a total function that never yields NaN.  It returns 0
    for a value that is not a string (an absent value among them), for the
    empty string and for a string that [parseFloat] cannot read once the
    characters %, $ and the commas are removed and the white space is
    trimmed.  For a string that can be read it returns the number read from
    the cleaned text, which is the value of binary64 nearest to the numeral:
    for the decimal writing of [n] (so for [n] written between a dollar sign
    and a percent sign) the nearest value to [n], which is [n] itself below
    2^53, and for the numeral [ip.fp] the nearest value to it.  Above 2^53
    the number returned need not be the number written (2^53 + 1 reads as
    2^53), and a numeral beyond the largest value reads as Infinity. *)
Theorem parseNum_total_and_lenient :
  (forall v, isNaN (parseNum v) = false)
  /\ (forall v, (forall s, v <> Text s) -> parseNum v = zero)
  /\ parseNum (Text EmptyString) = zero
  /\ (forall s, parseFloat (clean_text s) = NaN -> parseNum (Text s) = zero)
  /\ (forall s x, parseFloat (clean_text s) = x -> isNaN x = false ->
                  parseNum (Text s) = x)
  /\ (forall s n, clean_text s = digits n ->
        parseNum (Text s) = round64 (inject_Z (Z.of_N n))
        /\ (Z.of_N n < 2 ^ 53 -> parseNum (Text s) = ofZ (Z.of_N n)))
  /\ (forall n,
        parseNum (Text ("$" ++ digits n ++ "%")) = round64 (inject_Z (Z.of_N n))
        /\ (Z.of_N n < 2 ^ 53 ->
            parseNum (Text ("$" ++ digits n ++ "%")) = ofZ (Z.of_N n)))
  /\ (forall s ip fp,
        clean_text s = ip ++ "." ++ fp ->
        ip <> EmptyString -> Spec.all_digits ip = true -> Spec.all_digits fp = true ->
        parseNum (Text s) = round64 (decimal_value ip fp))
  /\ parseNum (Text "9007199254740993") = ofZ 9007199254740992
  /\ parseNum (Text "1e400") = Inf false
  /\ parseNum (Text "1e-400") = zero.
Proof.
  split; [apply parseNum_not_NaN|].
  split; [intros v Hv; destruct v; try reflexivity; now destruct (Hv s)|].
  split; [reflexivity|].
  split.
  { intros s E. simpl. destruct (negb (nonEmpty s)); [reflexivity|].
    now rewrite E. }
  split; [apply parseNum_parsable|].
  assert (Hint : forall s n, clean_text s = digits n ->
            parseNum (Text s) = round64 (inject_Z (Z.of_N n))
            /\ (Z.of_N n < 2 ^ 53 -> parseNum (Text s) = ofZ (Z.of_N n))).
  { intros s n E.
    assert (H : parseNum (Text s) = round64 (inject_Z (Z.of_N n))).
    { apply parseNum_parsable; [|apply round64_not_NaN].
      rewrite E, parseFloat_integer.
      - now rewrite digitsValue_digits.
      - apply digits_not_empty.
      - apply all_digits_digits. }
    split; [exact H|]. intros Hn. rewrite H.
    rewrite <- (this_ofZ (Z.of_N n)). apply round64_whole. lia. }
  split; [exact Hint|].
  split.
  { intros n. apply Hint. apply clean_text_digits, all_digits_digits. }
  split.
  { intros s ip fp E Hne Hip Hfp.
    apply parseNum_parsable; [|apply round64_not_NaN].
    rewrite E. now apply parseFloat_point. }
  split; [vm_compute; reflexivity|].
  split; [vm_compute; reflexivity|].
  vm_compute. f_equal. apply Qc_is_canon. reflexivity.
Qed.

(* ================================================================== *)
(** ** A second call of [processTable] *)
(* ================================================================== *)

Lemma In_sort_insert (x y : insertion) (l : list insertion) :
  In y (sort_insert x l) <-> y = x \/ In y l.
Proof.
  induction l as [|z l IH]; simpl.
  - intuition auto.
  - destruct (afterIdx z <=? afterIdx x); simpl; [|rewrite IH]; intuition auto.
Qed.

Lemma In_sort_desc (y : insertion) (l : list insertion) :
  In y (sort_desc l) <-> In y l.
Proof.
  induction l as [|x l IH]; simpl; [tauto|].
  rewrite In_sort_insert, IH. intuition auto.
Qed.

Lemma marker_detected (h : string) (headers : list string) :
  In h ["APPT%(C)"; "LXFER%(C)"; "SUCCESS%(C)"] -> In h headers ->
  already_injected (map trim headers) = true.
Proof.
  intros Hm Hin. unfold already_injected. apply existsb_exists.
  exists (trim h). split; [now apply in_map|].
  simpl in Hm. destruct Hm as [<-|[<-|[<-|[]]]]; reflexivity.
Qed.

(** When the first call injects a [(C)] column, or injects nothing, the
    second call changes nothing. *)
Lemma second_call_is_noop_after_contacts_column
    (cfg : INSIGHT_CONFIG.lensedColumns) (t : table) (flag : bool) :
  (forall headerCells, thead t = Some headerCells ->
     table_insertions cfg headerCells = []
     \/ exists ins, In ins (table_insertions cfg headerCells)
                    /\ In (headerText ins) ["APPT%(C)"; "LXFER%(C)"; "SUCCESS%(C)"]) ->
  processTable cfg (fst (processTable cfg t flag)) (snd (processTable cfg t flag))
  = processTable cfg t flag.
Proof.
  intros HC.
  destruct (processTable_cases cfg t flag)
    as [E|[headerCells [Hne [Ht E]]]].
  - now rewrite E.
  - rewrite E. simpl.
    destruct (HC headerCells Ht) as [Hnil|[ins [Hin Hc]]]; [contradiction|].
    apply processTable_guard with
      (headerCells := inject_header (sort_desc (table_insertions cfg headerCells))
                        headerCells);
      [reflexivity|].
    apply (marker_detected (headerText ins)); [exact Hc|].
    apply (proj2 (proj2 (fold_insert_facts headerText
                           (sort_desc (table_insertions cfg headerCells))
                           (snapshot headerCells)))).
    now apply In_sort_desc.
Qed.

(* ================================================================== *)
(** ** The theorems at the scenarios of the specification *)
(* ================================================================== *)

(** Scenario 3: Bob has dialed 10 on list A and 20 on list B; his totals are
    the sum of his two lists, 30 dialed. *)
Lemma totals_equal_sum_of_lists_scenario3 :
  exists d,
    whole_counts 20 scenario3
    /\ In ("Bob", d) (agents (extractAllTableData scenario3))
    /\ totals d = Spec.sum_of_lists (lists d)
    /\ map fst (lists d) = ["A"; "B"]
    /\ Number_toString (counters.dialed (totals d)) = "30".
Proof.
  eexists. split; [apply whole_counts_b_true; vm_compute; reflexivity|].
  split; [vm_compute; left; reflexivity|].
  split.
  - apply (totals_equal_sum_of_lists 20 scenario3 "Bob").
    + apply whole_counts_b_true. vm_compute. reflexivity.
    + vm_compute. left. reflexivity.
  - split; vm_compute; reflexivity.
Defined.

(** Scenario 2: with no contact and 50 dialed, the ratios over Contacts are
    0 in the pivot and in the CSV, and the injected APPT%(C) cell of the row
    shows 0.00%. *)
Lemma zero_denominator_gives_zero_scenario2 :
  Spec.pct (ofZ 3) zero = zero
  /\ cellsAt [4; 7; 10]%nat (renderMetricCells scenario2_counters false)
     = repeat "0.0%" 3
  /\ cellsAt [6; 9; 12]%nat (csv_fields "Alice" "Sales" scenario2_counters)
     = repeat "0.00%" 3
  /\ exists ins,
      In ins (build_insertions INSIGHT_CONFIG.defaults 1 2 (-1) (-1) 0)
      /\ headerText ins = "APPT%(C)"
      /\ calculate ins ["50"; "0"; "3"] = zero
      /\ formatPct (calculate ins ["50"; "0"; "3"]) = "0.00%".
Proof.
  destruct (zero_denominator_gives_zero (ofZ 3))
    as [H1 [_ [_ [_ [Hins [Hpivot Hcsv]]]]]].
  split; [exact H1|].
  split; [apply (proj2 (Hpivot scenario2_counters false)); reflexivity|].
  split; [apply (proj2 (Hcsv "Alice" "Sales" scenario2_counters)); reflexivity|].
  eexists. split; [right; left; reflexivity|]. split; [reflexivity|].
  apply (proj2 (Hins INSIGHT_CONFIG.defaults 1 2 (-1) (-1) 0 _
                  ["50"; "0"; "3"] (or_intror (or_introl eq_refl)))).
  - simpl. auto.
  - reflexivity.
Defined.

(** Scenario 1: Contacts is the fourth header and the first that holds a
    candidate of the role. *)
Lemma findColumnIndex_scenario1 :
  findColumnIndex
    ["User"; "List"; "Dialed"; "Contacts"; "Status 'APPT"; "LXFER"; "All Success"]
    INSIGHT_CONFIG.columns.contacts = 3
  /\ forall j h, (j < 3)%nat ->
       nth_error ["User"; "List"; "Dialed"; "Contacts"; "Status 'APPT"; "LXFER";
                  "All Success"] j = Some h ->
       header_matches INSIGHT_CONFIG.columns.contacts h = false.
Proof.
  pose proof (findColumnIndex_first_matching_header
                ["User"; "List"; "Dialed"; "Contacts"; "Status 'APPT"; "LXFER";
                 "All Success"] INSIGHT_CONFIG.columns.contacts) as H.
  cbv zeta in H.
  assert (E : findColumnIndex
                ["User"; "List"; "Dialed"; "Contacts"; "Status 'APPT"; "LXFER";
                 "All Success"] INSIGHT_CONFIG.columns.contacts = 3)
    by (vm_compute; reflexivity).
  rewrite E in H. split; [reflexivity|].
  destruct H as [[H _]|[_ [_ Hmin]]]; [discriminate H|exact Hmin].
Defined.


(** A row that has one cell where the header has three receives the two
    derived cells. *)
Lemma short_row_length :
  List.length
    (inject_row (sort_desc (table_insertions INSIGHT_CONFIG.defaults
                              ["Dialed"; "Contacts"; "APPT"])) ["100"])
  = 3%nat.
Proof.
  rewrite (proj1 (proj1 (proj2 (proj2 (injection_treats_every_row
                                         INSIGHT_CONFIG.defaults table_short_row
                                         false)))
                    (sort_desc (table_insertions INSIGHT_CONFIG.defaults
                                  ["Dialed"; "Contacts"; "APPT"]))
                    ["100"] ltac:(discriminate))).
  reflexivity.
Defined.

(** Scenario 1: the seven percentage fields of the line of Alice are
    [N.NN%]. *)
Lemma exportCSV_scenario1_percentages :
  forallb Spec.is_percent2
    (cellsAt csv_ratio_fields (csv_fields "Alice" "Sales" scenario1_counters))
  = true.
Proof.
  apply (proj1 (proj2 (proj2 (proj2 (proj2
           (exportCSV_artifact [scenario1] "2026-11-01T10:00:00.000Z")))))).
  intros r Hr. simpl in Hr.
  repeat (destruct Hr as [<-|Hr];
          [eexists; split; [vm_compute; reflexivity|vm_compute; reflexivity]|]).
  contradiction.
Defined.

(** " $1,200 " reads as 1200 and "31.73%" as the value nearest to 31.73,
    which prints as 31.73. *)
Lemma parseNum_display_strings :
  parseNum (Text " $1,200 ") = ofZ 1200
  /\ parseNum (Text "31.73%") = round64 (decimal_value "31" "73")
  /\ Number_toString (parseNum (Text "31.73%")) = "31.73".
Proof.
  destruct parseNum_total_and_lenient
    as [_ [_ [_ [_ [_ [Hint [_ [Hpoint _]]]]]]]].
  split.
  - apply (proj2 (Hint " $1,200 " 1200%N eq_refl)). vm_compute. reflexivity.
  - split.
    + apply (Hpoint "31.73%" "31" "73"); [reflexivity|discriminate| |]; reflexivity.
    + vm_compute. reflexivity.
Defined.

(** The header "Agent Name" contains the word and does not equal it: the
    table is skipped, where the substring rule of the other roles would have
    found the column. *)
Lemma agent_name_header_is_skipped :
  extractTable empty_aggregation table_agent_name = empty_aggregation
  /\ findColumnIndex ["Agent Name"; "List"; "Dialed"; "Contacts"] ["agent"] = 0.
Proof.
  split; [|reflexivity].
  apply (proj2 (proj2 (proj2 (proj2 (proj2 (proj2 (proj2
           (agent_role_needs_exact_header table_agent_name
              ["Agent Name"; "List"; "Dialed"; "Contacts"] eq_refl)))))))).
  intros h Hh. vm_compute in Hh.
  destruct Hh as [<-|[<-|[<-|[<-|[]]]]]; split; discriminate.
Defined.

(** Scenario 1: the ratio 12.5 is printed 12.5 with one decimal and 12.50
    with two. *)
Lemma pivot_and_csv_scenario1 :
  toFixed 1 (Fin (Q2Qc (25 # 2))) = "12.5"
  /\ toFixed 2 (Fin (Q2Qc (25 # 2))) = "12.50"
  /\ roundScaled 1 (Q2Qc (25 # 2)) = 125%N
  /\ roundScaled 2 (Q2Qc (25 # 2)) = 1250%N.
Proof.
  destruct (pivot_and_csv_same_ratios scenario1_counters true "Alice" "Sales")
    as [_ [_ H]].
  destruct (H 1%nat (Q2Qc (25 # 2)) eq_refl) as [E1 _].
  destruct (H 2%nat (Q2Qc (25 # 2)) eq_refl) as [E2 _].
  split; [rewrite E1; reflexivity|].
  split; [rewrite E2; reflexivity|].
  split; reflexivity.
Defined.

(** Scenario 1, injected: the six derived columns, each after the column of
    its numerator, the [(C)] column before the [(D)] column. *)
Example scenario1_injected :
  processTable INSIGHT_CONFIG.defaults scenario1 false
  = ({| thead := Some ["User"; "List"; "Dialed"; "Contacts"; "Status 'APPT";
                       "APPT%(C)"; "APPT%(D)"; "LXFER"; "LXFER%(C)";
                       "LXFER%(D)"; "All Success"; "SUCCESS%(C)"; "SUCCESS%(D)"];
        tbody := [["Alice"; "Sales"; "100"; "40"; "10"; "25.00%"; "10.00%";
                   "5"; "12.50%"; "5.00%"; "30"; "75.00%"; "30.00%"]] |},
     true).
Proof. vm_compute. reflexivity. Qed.

(** Scenario 2: no contact, 50 dialed, 3 appointments. *)
Example scenario2_injected :
  tbody (fst (processTable INSIGHT_CONFIG.defaults
                {| thead := Some ["Dialed"; "Contacts"; "APPT"];
                   tbody := [["50"; "0"; "3"]] |} false))
  = [["50"; "0"; "3"; "0.00%"; "6.00%"]].
Proof. vm_compute. reflexivity. Qed.

(** Scenario 5: without a Contacts and a Dialed header the table is left as
    it is. *)
Example scenario5_untouched :
  processTable INSIGHT_CONFIG.defaults
    {| thead := Some ["User"; "List"; "APPT"]; tbody := [["Alice"; "Sales"; "3"]] |}
    false
  = ({| thead := Some ["User"; "List"; "APPT"];
        tbody := [["Alice"; "Sales"; "3"]] |}, false).
Proof. vm_compute. reflexivity. Qed.

(** The text of the export for scenario 1. *)
Example scenario1_exported :
  exportCSV [scenario1] "2026-11-01T10:00:00.000Z"
  = (csv_header ++ newline
     ++ dquote ++ "Alice" ++ dquote ++ "," ++ dquote ++ "Sales" ++ dquote
     ++ ",100,40,40.00%,10,25.00%,10.00%,5,12.50%,5.00%,30,75.00%,30.00%"
     ++ newline,
     "convoso-insight-2026-11-01.csv").
Proof. vm_compute. reflexivity. Qed.

(* ================================================================== *)
(** ** [escapeHtml] *)
(* ================================================================== *)

Lemma string_forallb_app (p : ascii -> bool) (a b : string) :
  string_forallb p (a ++ b) = string_forallb p a && string_forallb p b.
Proof.
  induction a as [|c a IH]; simpl; [reflexivity|].
  now rewrite IH, andb_assoc.
Qed.

Lemma escapeChar_no_markup (c : ascii) :
  string_forallb (fun x => negb (is_markup x)) (escapeChar c) = true.
Proof.
  unfold escapeChar.
  destruct (Ascii.eqb c "&") eqn:E1; [reflexivity|].
  destruct (Ascii.eqb c "<") eqn:E2; [reflexivity|].
  destruct (Ascii.eqb c ">") eqn:E3; [reflexivity|].
  destruct (Ascii.eqb c dquote_char) eqn:E4; [reflexivity|].
  destruct (Ascii.eqb c "'") eqn:E5; [reflexivity|].
  simpl. unfold is_markup. now rewrite E2, E3, E4, E5.
Qed.

(** X1. The text that [escapeHtml] returns holds none of the characters <, >,
    the double quote and the single quote. *)
Theorem escapeHtml_no_markup (text : string) :
  string_forallb (fun c => negb (is_markup c)) (escapeHtml text) = true.
Proof.
  induction text as [|c text IH]; simpl; [reflexivity|].
  now rewrite string_forallb_app, escapeChar_no_markup, IH.
Qed.

(** What [escapeChar] returns: an entity, or the character when it is none
    of the five. *)
Lemma escapeChar_cases (c : ascii) :
  (c = "&"%char /\ escapeChar c = "&amp;")
  \/ (c = "<"%char /\ escapeChar c = "&lt;")
  \/ (c = ">"%char /\ escapeChar c = "&gt;")
  \/ (c = dquote_char /\ escapeChar c = "&quot;")
  \/ (c = "'"%char /\ escapeChar c = "&#039;")
  \/ (c <> "&"%char /\ escapeChar c = String c EmptyString).
Proof.
  unfold escapeChar.
  destruct (Ascii.eqb_spec c "&"); [now left|].
  destruct (Ascii.eqb_spec c "<"); [right; now left|].
  destruct (Ascii.eqb_spec c ">"); [do 2 right; now left|].
  destruct (Ascii.eqb_spec c dquote_char); [do 3 right; now left|].
  destruct (Ascii.eqb_spec c "'"); [do 4 right; now left|].
  do 5 right. now split.
Qed.

(** X2. Two texts with the same escaped form are the same text: nothing is lost
    by escaping. *)
Theorem escapeHtml_injective (a b : string) :
  escapeHtml a = escapeHtml b -> a = b.
Proof.
  revert b. induction a as [|c a IH]; intros [|d b] H; simpl in H.
  - reflexivity.
  - exfalso.
    destruct (escapeChar_cases d) as [[_ E]|[[_ E]|[[_ E]|[[_ E]|[[_ E]|[_ E]]]]]];
      rewrite E in H; discriminate H.
  - exfalso.
    destruct (escapeChar_cases c) as [[_ E]|[[_ E]|[[_ E]|[[_ E]|[[_ E]|[_ E]]]]]];
      rewrite E in H; discriminate H.
  - destruct (escapeChar_cases c)
      as [[Ec E]|[[Ec E]|[[Ec E]|[[Ec E]|[[Ec E]|[Ec E]]]]]];
      destruct (escapeChar_cases d)
        as [[Ed E']|[[Ed E']|[[Ed E']|[[Ed E']|[[Ed E']|[Ed E']]]]]];
      rewrite E, E' in H; simpl in H;
      try discriminate H;
      try (injection H as H; subst; f_equal; now apply IH);
      try (injection H as Hc H; congruence).
Qed.

Lemma escapeHtml_injective_example :
  escapeHtml "a<b" = "a&lt;b" /\ "a<b" = "a<b".
Proof.
  split; [reflexivity|].
  apply (escapeHtml_injective "a<b" "a<b"). reflexivity.
Defined.

(* ================================================================== *)
(** ** The headers offered by the settings panel *)
(* ================================================================== *)

Lemma NoDup_Set_add (s : list string) (k : string) :
  NoDup s -> NoDup (Set_add s k).
Proof.
  intros H. unfold Set_add. destruct (Set_has s k) eqn:E; [exact H|].
  assert (Hk : ~ In k s).
  { intros Hin. apply Set_has_In in Hin. congruence. }
  apply NoDup_rev in H. rewrite <- (rev_involutive (s ++ [k])%list).
  apply NoDup_rev. rewrite rev_app_distr. simpl. constructor; [|exact H].
  now rewrite <- in_rev.
Qed.

Lemma nonEmpty_true (s : string) : nonEmpty s = true <-> s <> EmptyString.
Proof. destruct s; simpl; split; congruence. Qed.

Lemma headers_of_row (cells : list string) (acc : list string) :
  let out :=
    fold_left
      (fun allHeaders th =>
         let text := trim th in
         if nonEmpty text then Set_add allHeaders text else allHeaders)
      cells acc in
  (NoDup acc -> NoDup out)
  /\ forall x, In x out <->
               In x acc \/ (x <> EmptyString /\ exists th, In th cells /\ trim th = x).
Proof.
  revert acc. induction cells as [|th cells IH]; intros acc; simpl.
  - split; [auto|]. intros x. split; [auto|].
    intros [H|[_ [th [[] _]]]]. exact H.
  - destruct (IH (if nonEmpty (trim th) then Set_add acc (trim th) else acc))
      as [Hnd Hin].
    split.
    + intros H. apply Hnd. destruct (nonEmpty (trim th)); [|exact H].
      now apply NoDup_Set_add.
    + intros x. rewrite Hin. clear Hin Hnd.
      destruct (nonEmpty (trim th)) eqn:E.
      * rewrite In_Set_add. apply nonEmpty_true in E. split.
        -- intros [[H| ->]|[Hx [th' [Hth Ht]]]]; auto.
           ++ right. split; [exact E|]. exists th. auto.
           ++ right. split; [exact Hx|]. exists th'. auto.
        -- intros [H|[Hx [th' [[->|Hth] Ht]]]]; auto.
           right. split; [exact Hx|]. exists th'. auto.
      * split.
        -- intros [H|[Hx [th' [Hth Ht]]]]; auto.
           right. split; [exact Hx|]. exists th'. auto.
        -- intros [H|[Hx [th' [[->|Hth] Ht]]]]; auto.
           ++ exfalso. apply nonEmpty_true in Hx. congruence.
           ++ right. split; [exact Hx|]. exists th'. auto.
Qed.

Lemma headers_of_rows (headerRows : list (list string)) (acc : list string) :
  let out :=
    fold_left
      (fun allHeaders cells =>
         fold_left
           (fun allHeaders th =>
              let text := trim th in
              if nonEmpty text then Set_add allHeaders text else allHeaders)
           cells allHeaders)
      headerRows acc in
  (NoDup acc -> NoDup out)
  /\ forall x, In x out <->
               In x acc
               \/ (x <> EmptyString
                   /\ exists cells th, In cells headerRows /\ In th cells
                                       /\ trim th = x).
Proof.
  revert acc. induction headerRows as [|cells headerRows IH]; intros acc; simpl.
  - split; [auto|]. intros x. split; [auto|].
    intros [H|[_ [cells [th [[] _]]]]]. exact H.
  - destruct (headers_of_row cells acc) as [Hnd1 Hin1].
    match type of Hnd1 with _ -> NoDup ?o => set (acc1 := o) in * end.
    destruct (IH acc1) as [Hnd Hin].
    split; [auto|].
    intros x. rewrite Hin, Hin1. clear. split.
    + intros [[H|[Hx [th [Hth Ht]]]]|[Hx [cells' [th [Hc [Hth Ht]]]]]]; auto.
      * right. split; [exact Hx|]. exists cells, th. auto.
      * right. split; [exact Hx|]. exists cells', th. auto.
    + intros [H|[Hx [cells' [th [[->|Hc] [Hth Ht]]]]]]; auto.
      * left. right. split; [exact Hx|]. exists th. auto.
      * right. split; [exact Hx|]. exists cells', th. auto.
Qed.

(** X3. [getAllColumnHeaders] returns each header text once: a text is returned
    exactly when it is not empty and is the trimmed text of a cell of some
    header row. *)
Theorem getAllColumnHeaders_distinct_trimmed (headerRows : list (list string)) :
  NoDup (getAllColumnHeaders headerRows)
  /\ forall x, In x (getAllColumnHeaders headerRows) <->
               x <> EmptyString
               /\ exists cells th, In cells headerRows /\ In th cells /\ trim th = x.
Proof.
  destruct (headers_of_rows headerRows []) as [Hnd Hin].
  split; [apply Hnd; constructor|].
  intros x. unfold getAllColumnHeaders. rewrite Hin. simpl. tauto.
Qed.

Lemma includes_self (s : string) : includes s s = true.
Proof.
  apply includes_substring. exists EmptyString, EmptyString.
  simpl. now rewrite append_nil_r.
Qed.

(** X4. The settings panel splits the headers in two: a header is offered as an
    original column exactly when it is not a lensed one, and none of the six
    header texts that [processTable] injects is offered as an original
    column. *)
Theorem panel_splits_headers (allHeaders : list string) :
  (forall h, In h allHeaders ->
             (In h (originalHeaders allHeaders) <-> ~ In h (lensedHeaders allHeaders)))
  /\ (forall cfg ci ai li si di ins,
        In ins (build_insertions cfg ci ai li si di) ->
        ~ In (headerText ins) (originalHeaders allHeaders)).
Proof.
  split.
  - intros h Hh. unfold originalHeaders, lensedHeaders, is_lensed_header.
    rewrite !filter_In.
    destruct (includes h "%(C)"), (includes h "%(D)"); simpl;
      intuition congruence.
  - intros cfg ci ai li si di ins Hin Ho.
    unfold originalHeaders in Ho. apply filter_In in Ho. destruct Ho as [_ Ho].
    destruct (build_insertions_calculate _ _ _ _ _ _ _ Hin)
      as [numIdx [[Hh _]|[Hh _]]];
      simpl in Hh; destruct Hh as [E|[E|[E|[]]]]; rewrite <- E in Ho;
      discriminate Ho.
Qed.

Lemma panel_splits_headers_example :
  originalHeaders ["User"; "APPT"; "APPT%(C)"; "APPT%(D)"] = ["User"; "APPT"]
  /\ (In "User" (originalHeaders ["User"; "APPT"; "APPT%(C)"; "APPT%(D)"])
      <-> ~ In "User" (lensedHeaders ["User"; "APPT"; "APPT%(C)"; "APPT%(D)"])).
Proof.
  split; [reflexivity|].
  apply (proj1 (panel_splits_headers ["User"; "APPT"; "APPT%(C)"; "APPT%(D)"])).
  simpl. auto.
Defined.

(** X5. The change handler of an original checkbox leaves the header hidden
    exactly when the box is unchecked, changes nothing for the other headers
    and never lists a header twice. *)
Theorem onOriginalCheckbox_sets_one_header (hiddenColumns : list string)
    (header : string) (checked : bool) :
  (In header (onOriginalCheckbox hiddenColumns header checked) <-> checked = false)
  /\ (forall h, h <> header ->
        (In h (onOriginalCheckbox hiddenColumns header checked) <-> In h hiddenColumns))
  /\ (NoDup hiddenColumns -> NoDup (onOriginalCheckbox hiddenColumns header checked)).
Proof.
  unfold onOriginalCheckbox. destruct checked.
  - split; [|split].
    + rewrite filter_In. split; [|discriminate].
      intros [_ H]. now rewrite String.eqb_refl in H.
    + intros h Hne. rewrite filter_In. split; [tauto|].
      intros H. split; [exact H|]. apply negb_true_iff.
      now apply String.eqb_neq.
    + apply NoDup_filter.
  - destruct (existsb (fun h => String.eqb h header) hiddenColumns) eqn:E.
    + split; [|split; [tauto|auto]].
      split; [reflexivity|]. intros _.
      apply existsb_exists in E. destruct E as [h [Hin Hh]].
      apply String.eqb_eq in Hh. now subst.
    + split; [|split].
      * split; [reflexivity|]. intros _. apply in_or_app. right. now left.
      * intros h Hne. rewrite in_app_iff. simpl. split; [|tauto].
        intros [H|[H|[]]]; [exact H|congruence].
      * intros H.
        assert (Hk : ~ In header hiddenColumns).
        { intros Hin.
          assert (existsb (fun h => String.eqb h header) hiddenColumns = true).
          { apply existsb_exists. exists header. split; [exact Hin|].
            apply String.eqb_refl. }
          congruence. }
        apply NoDup_rev in H.
        rewrite <- (rev_involutive (hiddenColumns ++ [header])%list).
        apply NoDup_rev. rewrite rev_app_distr. simpl.
        constructor; [|exact H]. now rewrite <- in_rev.
Qed.

Lemma onOriginalCheckbox_example :
  onOriginalCheckbox ["List"] "Dialed" false = ["List"; "Dialed"]
  /\ (In "List" (onOriginalCheckbox ["List"] "Dialed" false) <-> In "List" ["List"])
  /\ NoDup (onOriginalCheckbox ["List"] "Dialed" false).
Proof.
  destruct (onOriginalCheckbox_sets_one_header ["List"] "Dialed" false)
    as [_ [Hother Hnd]].
  split; [reflexivity|]. split.
  - apply Hother. discriminate.
  - apply Hnd. repeat constructor; simpl; tauto.
Defined.

(** X6. What [saveSettings] stores, [loadSettings] reads back whole, whatever
    the configuration in memory; nothing stored leaves the configuration as
    it is, and a switch that the stored object lacks keeps its value. *)
Theorem settings_round_trip (cfg current : settings) :
  loadSettings current (Some (saveSettings cfg)) = cfg
  /\ loadSettings current None = current
  /\ forall hidden stored,
       let loaded :=
         lensedColumns
           (loadSettings current
              (Some {| s_hiddenColumns := hidden;
                       s_lensedColumns := Some stored |})) in
       (s_apptContacts stored = None ->
        INSIGHT_CONFIG.apptContacts loaded
        = INSIGHT_CONFIG.apptContacts (lensedColumns current))
       /\ (s_apptCalls stored = None ->
           INSIGHT_CONFIG.apptCalls loaded
           = INSIGHT_CONFIG.apptCalls (lensedColumns current))
       /\ (s_lxferContacts stored = None ->
           INSIGHT_CONFIG.lxferContacts loaded
           = INSIGHT_CONFIG.lxferContacts (lensedColumns current))
       /\ (s_lxferCalls stored = None ->
           INSIGHT_CONFIG.lxferCalls loaded
           = INSIGHT_CONFIG.lxferCalls (lensedColumns current))
       /\ (s_successContacts stored = None ->
           INSIGHT_CONFIG.successContacts loaded
           = INSIGHT_CONFIG.successContacts (lensedColumns current))
       /\ (s_successCalls stored = None ->
           INSIGHT_CONFIG.successCalls loaded
           = INSIGHT_CONFIG.successCalls (lensedColumns current)).
Proof.
  split; [destruct cfg as [h [a b c d e f]]; reflexivity|].
  split; [reflexivity|].
  intros hidden stored loaded. unfold loaded. simpl.
  repeat split; intros ->; reflexivity.
Qed.

Lemma settings_round_trip_example :
  INSIGHT_CONFIG.apptContacts
    (lensedColumns
       (loadSettings
          {| hiddenColumns := []; lensedColumns := INSIGHT_CONFIG.defaults |}
          (Some {| s_hiddenColumns := Some ["List"];
                   s_lensedColumns :=
                     Some {| s_apptContacts := None; s_apptCalls := Some false;
                             s_lxferContacts := None; s_lxferCalls := None;
                             s_successContacts := None;
                             s_successCalls := None |} |})))
  = true.
Proof.
  apply (proj1 (proj2 (proj2 (settings_round_trip
           {| hiddenColumns := []; lensedColumns := INSIGHT_CONFIG.defaults |}
           {| hiddenColumns := []; lensedColumns := INSIGHT_CONFIG.defaults |}))
           (Some ["List"])
           {| s_apptContacts := None; s_apptCalls := Some false;
              s_lxferContacts := None; s_lxferCalls := None;
              s_successContacts := None; s_successCalls := None |})).
  reflexivity.
Defined.

(* ================================================================== *)
(** ** What an injected cell shows *)
(* ================================================================== *)

Lemma new_cells_of_fold (mk : insertion -> string) (insertions : list insertion)
    (row : list cell) (c : cell) :
  In c (fold_left
          (fun row ins =>
             insertAfter (afterIdx ins) {| origin := None; innerText := mk ins |} row)
          insertions row) ->
  In c row \/ exists ins, In ins insertions
                          /\ c = {| origin := None; innerText := mk ins |}.
Proof.
  revert row. induction insertions as [|ins0 insertions IH]; intros row H;
    simpl in H; [now left|].
  destruct (IH _ H) as [Hin|[ins [Hins E]]].
  - apply In_insertAfter in Hin. destruct Hin as [->|Hin]; [|now left].
    right. exists ins0. split; [now left|reflexivity].
  - right. exists ins. split; [now right|exact E].
Qed.

Lemma formatPct_cases (x : number) :
  (isFinite x = false /\ formatPct x = "—")
  \/ (exists q, x = Fin q /\ formatPct x = toFixed 2 (Fin q) ++ "%").
Proof.
  destruct x as [| |q]; [left|left|right]; try (split; reflexivity).
  exists q. split; reflexivity.
Qed.

(** X7. A cell that injection adds to a body row never shows NaN or Infinity: it
    shows the dash when its ratio is not finite and the ratio printed by
    [toFixed(2)] with a trailing % otherwise, which is [N.NN%] below
    10^21. *)
Theorem injected_cell_is_dash_or_percentage (insertions : list insertion)
    (cells : list string) (c : cell) :
  In c (inject_row_live insertions cells) -> origin c = None ->
  exists ins,
    In ins insertions
    /\ innerText c = formatPct (calculate ins cells)
    /\ ((isFinite (calculate ins cells) = false /\ innerText c = "—")
        \/ exists q, calculate ins cells = Fin q
                     /\ innerText c = toFixed 2 (Fin q) ++ "%"
                     /\ (isLarge q = false -> Spec.is_percent2 (innerText c) = true)).
Proof.
  intros Hin Ho. unfold inject_row_live in Hin.
  apply new_cells_of_fold in Hin. destruct Hin as [Hin|[ins [Hins E]]].
  - exfalso. unfold snapshot in Hin.
    assert (Hs : forall i l x, In x (snapshot_from i l) -> origin x <> None).
    { intros i l. revert i. induction l as [|t l IH]; intros i x Hx; simpl in Hx;
        [contradiction|].
      destruct Hx as [<-|Hx]; [discriminate|now apply (IH (i + 1))]. }
    now apply (Hs _ _ _ Hin).
  - exists ins. split; [exact Hins|]. subst c. cbn [innerText].
    split; [reflexivity|].
    destruct (formatPct_cases (calculate ins cells)) as [[Hf E]|[q [Hq E]]].
    + left. now split.
    + right. exists q. split; [exact Hq|]. split; [exact E|].
      intros Hl. rewrite E. now apply toFixed2_percent.
Qed.

Lemma injected_cell_example :
  exists ins,
    In ins (sort_desc (table_insertions INSIGHT_CONFIG.defaults
                         ["Dialed"; "Contacts"; "APPT"]))
    /\ "0.00%" = formatPct (calculate ins ["50"; "0"; "3"]).
Proof.
  destruct (injected_cell_is_dash_or_percentage
              (sort_desc (table_insertions INSIGHT_CONFIG.defaults
                            ["Dialed"; "Contacts"; "APPT"]))
              ["50"; "0"; "3"]
              {| origin := None; innerText := "0.00%" |})
    as [ins [Hin [E _]]].
  - vm_compute. do 3 right. left. reflexivity.
  - reflexivity.
  - exists ins. split; [exact Hin|exact E].
Defined.

(* ================================================================== *)
(** ** More invariants of the aggregation *)
(* ================================================================== *)

Lemma Map_get_of_In {V : Type} (m : list (string * V)) (k : string) (v : V) :
  NoDup (map fst m) -> In (k, v) m -> Map_get m k = Some v.
Proof.
  induction m as [|[k0 v0] m IH]; simpl; intros Hnd Hin; [contradiction|].
  inversion Hnd as [|? ? Hk Hm]; subst.
  destruct Hin as [[= -> ->]|Hin].
  - now rewrite String.eqb_refl.
  - destruct (String.eqb_spec k0 k) as [->|Hne]; [|now apply IH].
    exfalso. apply Hk. apply in_map_iff. exists (k, v). now split.
Qed.

Lemma In_Map_set_other {V : Type} (m : list (string * V)) (k k' : string)
    (v v' : V) :
  k' <> k -> In (k', v') m -> In (k', v') (Map_set m k v).
Proof.
  intros Hne. induction m as [|[k0 v0] m IH]; simpl; [tauto|].
  intros [[= -> ->]|Hin].
  - destruct (String.eqb_spec k' k); [contradiction|now left].
  - destruct (String.eqb k0 k); right; auto.
Qed.

Lemma In_keys_Map_set {V : Type} (m : list (string * V)) (k x : string) (v : V) :
  In x (map fst (Map_set m k v)) <-> In x (map fst m) \/ x = k.
Proof.
  rewrite keys_Map_set. unfold Map_has.
  destruct (Map_get m k) as [v0|] eqn:E.
  - split; [tauto|]. intros [H| ->]; [exact H|].
    apply Map_get_In in E. apply in_map_iff. exists (k, v0). now split.
  - rewrite in_app_iff. simpl. intuition auto.
Qed.

Lemma recordRow_lists agentName listName row data :
  keys_distinct data -> lists_are_seen data ->
  lists_are_seen (recordRow agentName listName row data).
Proof.
  intros [Hka _] [Hnd Hiff]. unfold lists_are_seen, recordRow. simpl. split.
  - now apply NoDup_Set_add.
  - intros l. rewrite In_Set_add, Hiff. clear Hiff.
    set (d0 := match Map_get (agents data) agentName with
               | Some d => d
               | None => {| lists := []; totals := counters.zeros |}
               end).
    set (d1 := {| lists := Map_set (lists d0) listName
                             (accumulate
                                match Map_get (lists d0) listName with
                                | Some l0 => l0
                                | None => counters.zeros
                                end row);
                  totals := accumulate (totals d0) row |}).
    assert (Hnew : In (agentName, d1) (Map_set (agents data) agentName d1)).
    { apply Map_get_In, Map_get_set_same. }
    split.
    + intros [[a [d [Hin Hl]]]| ->].
      * destruct (String.eqb_spec a agentName) as [->|Hne].
        -- exists agentName, d1. split; [exact Hnew|].
           simpl. apply In_keys_Map_set. left.
           unfold d0. now rewrite (Map_get_of_In _ _ _ Hka Hin).
        -- exists a, d. split; [now apply In_Map_set_other|exact Hl].
      * exists agentName, d1. split; [exact Hnew|].
        simpl. apply In_keys_Map_set. now right.
    + intros [a [d [Hin Hl]]]. apply In_Map_set in Hin.
      destruct Hin as [[-> ->]|Hin].
      * simpl in Hl. apply In_keys_Map_set in Hl. destruct Hl as [Hl| ->];
          [|now right].
        left. unfold d0 in Hl.
        destruct (Map_get (agents data) agentName) as [d|] eqn:E;
          [|contradiction].
        exists agentName, d. split; [now apply Map_get_In|exact Hl].
      * left. exists a, d. now split.
Qed.

Lemma extractAllTableData_lists (page : list table) :
  lists_are_seen (extractAllTableData page).
Proof.
  assert (H : keys_distinct (extractAllTableData page)
              /\ lists_are_seen (extractAllTableData page)); [|apply H].
  unfold extractAllTableData. apply fold_left_invariant.
  - intros acc t Inv. unfold extractTable.
    destruct (thead t) as [headerCells|]; [|exact Inv].
    match goal with |- context [userIdx ?r =? -1] => destruct (userIdx r =? -1) end;
      [exact Inv|].
    apply fold_left_invariant; [|exact Inv].
    intros acc' cells [Hk Hl]. unfold extractRow.
    destruct (List.length cells <? 3)%nat; [now split|].
    split; [now apply recordRow_keys|now apply recordRow_lists].
  - split; [split; [constructor|intros a d []]|].
    split; [constructor|]. intros l. simpl. split; [tauto|].
    intros [a [d [[] _]]].
Qed.

(** X8. The set of list names returned by [extractAllTableData] holds each name
    once, and holds exactly the names of the lists of its agents. *)
Theorem list_names_are_those_of_the_agents (page : list table) :
  NoDup (allLists (extractAllTableData page))
  /\ forall listName,
       In listName (allLists (extractAllTableData page))
       <-> exists agentName d,
             In (agentName, d) (agents (extractAllTableData page))
             /\ In listName (map fst (lists d)).
Proof.
  destruct (extractAllTableData_lists page) as [Hnd Hseen].
  split; [exact Hnd|].
  intros listName. apply Hseen.
Qed.

Lemma is_count_finite (bound : Z) (x : number) :
  is_count bound x -> isFinite x = true.
Proof. intros [E _]. rewrite E. reflexivity. Qed.

Lemma counters_within_finite (bound : Z) (c : counters.t) :
  counters_within bound c -> counters_finite c.
Proof.
  intros H. unfold counters_finite.
  repeat split; apply (is_count_finite bound); apply H; simpl; auto 6.
Qed.

Lemma orZero_count (bound : Z) (x : number) :
  is_count bound x -> is_count bound (orZero x).
Proof.
  intros H. pose proof H as [E Hb]. destruct x as [| |q]; try discriminate E.
  unfold orZero. destruct (Qc_eqb q 0%Qc); [|exact H].
  apply is_count_zero. lia.
Qed.

(** The percentage of two whole counts below 2^53 is finite. *)
Lemma pct_counts_finite (bound : Z) (n d : number) :
  bound < 2 ^ 53 -> is_count bound n -> is_count bound d ->
  isFinite (Spec.pct n d) = true.
Proof.
  intros HB [En Hn] [Ed Hd]. rewrite En, Ed.
  set (a := count_of n) in *. set (b := count_of d) in *. clearbody a b.
  unfold Spec.pct. rewrite gt_ofZ_zero.
  destruct (0 <? b) eqn:Eb; [|reflexivity]. apply Z.ltb_lt in Eb.
  unfold ofZ at 1 2. cbn [div]. rewrite Qc_eqb_ofZ_zero.
  destruct (b =? 0) eqn:E0; [apply Z.eqb_eq in E0; lia|].
  destruct (round64_bounded (Q2Qc (inject_Z a) / Q2Qc (inject_Z b))%Qc 53)
    as [v1 [E1 H1]]; [lia| |].
  { unfold Qcdiv, Qcmult, Qcinv. cbn [Q2Qc this]. rewrite !Qred_correct.
    destruct b as [|pb|pb]; try lia.
    unfold Qlt. cbn [Qinv Qmult Qabs inject_Z Qnum Qden].
    assert (1 <= Z.pos pb) by lia.
    assert (0 < 2 ^ 53) by lia.
    rewrite Z.abs_eq by lia. rewrite Pos2Z.inj_mul. nia. }
  rewrite E1. unfold ofZ. cbn [mul].
  destruct (round64_bounded (v1 * Q2Qc (inject_Z 100))%Qc 61)
    as [v2 [E2 _]]; [lia| |now rewrite E2].
  unfold Qcmult. cbn [Q2Qc this]. rewrite !Qred_correct.
  rewrite Qabs_Qmult.
  change (Qabs (inject_Z 100)) with (inject_Z 100).
  apply Qlt_le_trans with (inject_Z (2 ^ (53 + 1)) * inject_Z 100)%Q.
  - apply Qmult_lt_compat_r; [reflexivity|exact H1].
  - rewrite <- inject_Z_mult. rewrite <- Zle_Qle. vm_compute. discriminate.
Qed.

(** X9. When the counters read from the rows are whole numbers and their
    number is such that no sum reaches 2^53, every counter of the
    aggregation is finite, and so is every ratio of every exported row: the
    pivot and the CSV then show no NaN and no Infinity. *)
Theorem whole_counts_give_finite_ratios (bound : Z) (page : list table) :
  whole_counts bound page ->
  aggregation_finite (extractAllTableData page)
  /\ forall a l d, In (a, l, d) (exported_rows (extractAllTableData page)) ->
       forall r, In r (Spec.ratios d) -> isFinite r = true.
Proof.
  intros Hpage.
  pose proof (extractAllTableData_exact bound page Hpage) as Hex.
  destruct Hpage as [_ [Hb Hlt]].
  set (B := bound * Z.of_nat (List.length (flat_map tbody page))) in *.
  split.
  - intros a d Hin. destruct (Hex a d Hin) as [Ht [Hl _]].
    split; [now apply (counters_within_finite B)|].
    intros l c Hc. apply (counters_within_finite B). now apply (Hl l).
  - intros a l d Hin r Hr.
    apply In_exported_rows in Hin. destruct Hin as [[ad [Ha Hl]] _].
    destruct (Hex _ _ Ha) as [_ [Hlists _]].
    pose proof (Hlists _ _ Hl) as Hd.
    assert (Hf : forall field, In field counter_fields -> is_count B (field d))
      by exact Hd.
    unfold Spec.ratios in Hr. simpl in Hr.
    repeat (destruct Hr as [<-|Hr];
            [apply (pct_counts_finite B); [exact Hlt| |];
             try apply orZero_count; apply Hf; simpl; auto 6|]).
    contradiction.
Qed.

Lemma whole_counts_example :
  exists d,
    whole_counts 100 [scenario1]
    /\ In ("Alice", "Sales", d) (exported_rows (extractAllTableData [scenario1]))
    /\ forallb isFinite (Spec.ratios d) = true.
Proof.
  assert (Hp : whole_counts 100 [scenario1])
    by (apply whole_counts_b_true; vm_compute; reflexivity).
  eexists. split; [exact Hp|]. split; [vm_compute; left; reflexivity|].
  apply forallb_forall. intros r Hr.
  eapply (proj2 (whole_counts_give_finite_ratios 100 [scenario1] Hp)
            "Alice" "Sales");
    [|exact Hr].
  vm_compute. left. reflexivity.
Defined.

(* ================================================================== *)
(** ** The pivot *)
(* ================================================================== *)

Lemma length_flat_map_const {A B : Type} (block : list B) (l : list A) :
  List.length (flat_map (fun _ => block) l) = (List.length l * List.length block)%nat.
Proof.
  induction l as [|x l IH]; simpl; [reflexivity|].
  now rewrite length_app, IH.
Qed.

Lemma length_flat_map_blocks {A B : Type} (f : A -> list B) (n : nat) (l : list A) :
  (forall x, List.length (f x) = n) ->
  List.length (flat_map f l) = (List.length l * n)%nat.
Proof.
  intros H. induction l as [|x l IH]; simpl; [reflexivity|].
  now rewrite length_app, H, IH.
Qed.

Lemma Permutation_insertAgent x l : Permutation (x :: l) (insertAgent x l).
Proof.
  induction l as [|y l IH]; simpl; [apply Permutation_refl|].
  destruct (gt (compareAgents x y) zero); [|apply Permutation_refl].
  eapply Permutation_trans; [apply perm_swap|]. now apply perm_skip.
Qed.

Lemma Permutation_sortAgents l : Permutation l (sortAgents l).
Proof.
  induction l as [|x l IH]; simpl; [constructor|].
  eapply Permutation_trans; [|apply Permutation_insertAgent].
  now apply perm_skip.
Qed.

(** X10. The pivot is a rectangle: with [n] list names, the first header row has
    the Agent cell and [1 + n] names that span twelve columns each, the
    second header row has [12 * (1 + n)] metric names, and every body row has
    the agent cell and [12 * (1 + n)] metric cells; there is one body row per
    agent.  Nothing is built when there is no agent. *)
Theorem pivot_is_rectangular (page : list table) :
  let data := extractAllTableData page in
  let n := List.length (pivot_lists data) in
  (populateOverlay page = None <-> agents data = [])
  /\ forall p, populateOverlay page = Some p ->
       List.length (header1 p) = (2 + n)%nat
       /\ List.length (header2 p) = (12 * (1 + n))%nat
       /\ List.length (body p) = List.length (agents data)
       /\ forall row, In row (body p) ->
                      List.length row = (1 + 12 * (1 + n))%nat.
Proof.
  intros data n. unfold populateOverlay. fold data.
  destruct (List.length (agents data) =? 0)%nat eqn:E.
  - apply Nat.eqb_eq in E. apply length_zero_iff_nil in E.
    split; [tauto|]. intros p H. discriminate H.
  - apply Nat.eqb_neq in E. split.
    { split; [discriminate|]. intros H. rewrite H in E. now elim E. }
    intros p [= <-]. cbn [header1 header2 body]. fold n.
    split; [cbn [List.length]; now rewrite length_map|].
    split.
    { cbn [List.length]. rewrite length_flat_map_const. fold n.
      change (List.length metrics) with 12%nat. lia. }
    split.
    { rewrite length_map.
      apply Permutation_length. apply Permutation_sym, Permutation_sortAgents. }
    intros row Hrow. apply in_map_iff in Hrow. destruct Hrow as [agent [<- _]].
    unfold pivot_row. cbn [List.length]. rewrite length_app.
    rewrite (length_flat_map_blocks _ 12); [|reflexivity].
    fold n. change (List.length (renderMetricCells _ _)) with 12%nat. lia.
Qed.

Lemma pivot_is_rectangular_example :
  exists p, populateOverlay scenario3 = Some p
            /\ List.length (header1 p) = 4%nat
            /\ List.length (header2 p) = 36%nat
            /\ map (@List.length string) (body p) = [37%nat].
Proof.
  destruct (populateOverlay scenario3) as [p|] eqn:E; [|vm_compute in E; discriminate E].
  exists p. split; [reflexivity|].
  destruct (proj2 (pivot_is_rectangular scenario3) p E) as [H1 [H2 _]].
  split; [exact H1|]. split; [exact H2|].
  vm_compute in E. injection E as <-. reflexivity.
Defined.

Lemma Permutation_insertString x l : Permutation (x :: l) (insertString x l).
Proof.
  induction l as [|y l IH]; simpl; [apply Permutation_refl|].
  destruct (String.leb x y); [apply Permutation_refl|].
  eapply Permutation_trans; [apply perm_swap|]. now apply perm_skip.
Qed.

Lemma Permutation_sortStrings l : Permutation l (sortStrings l).
Proof.
  induction l as [|x l IH]; simpl; [constructor|].
  eapply Permutation_trans; [|apply Permutation_insertString].
  now apply perm_skip.
Qed.

Lemma insertString_sorted x l :
  Sorted (fun a b => String.leb a b = true) l ->
  Sorted (fun a b => String.leb a b = true) (insertString x l).
Proof.
  intros Hs. induction Hs as [|y l' Hs IHs Hhd]; simpl; [repeat constructor|].
  destruct (String.leb x y) eqn:E.
  - constructor; [constructor; assumption|]. constructor. exact E.
  - assert (Hyx : String.leb y x = true).
    { destruct (String.leb_total x y) as [H|H]; [congruence|exact H]. }
    constructor; [exact IHs|].
    destruct l' as [|z l'']; simpl; [now constructor|].
    inversion Hhd as [|? ? Hyz]; subst.
    destruct (String.leb x z); now constructor.
Qed.

Lemma sortStrings_sorted l :
  Sorted (fun a b => String.leb a b = true) (sortStrings l).
Proof.
  induction l as [|x l IH]; simpl; [constructor|].
  now apply insertString_sorted.
Qed.

Lemma In_pivot_lists (page : list table) (listName : string) :
  In listName (pivot_lists (extractAllTableData page))
  <-> toLowerCase listName <> "all"
      /\ exists agentName d,
           In (agentName, d) (agents (extractAllTableData page))
           /\ In listName (map fst (lists d)).
Proof.
  destruct (extractAllTableData_lists page) as [_ Hiff].
  unfold pivot_lists.
  set (kept := filter (fun l => negb (is_all l))
                      (allLists (extractAllTableData page))).
  pose proof (Permutation_sortStrings kept) as Hperm.
  split.
  - intros Hin. apply (Permutation_in _ (Permutation_sym Hperm)) in Hin.
    apply filter_In in Hin. destruct Hin as [Hl Hall].
    split; [|now apply Hiff].
    unfold is_all in Hall. apply negb_true_iff in Hall.
    now apply String.eqb_neq.
  - intros [Hall Hl]. apply (Permutation_in _ Hperm).
    apply filter_In. split; [now apply Hiff|].
    unfold is_all. apply negb_true_iff. now apply String.eqb_neq.
Qed.

(** X11. The list names that get a block of columns in the pivot: in ascending
    order, each once, and exactly the names of the lists of the agents that
    are not "all" in any letter case. *)
Theorem pivot_lists_sorted_distinct (page : list table) :
  Sorted (fun a b => String.leb a b = true) (pivot_lists (extractAllTableData page))
  /\ NoDup (pivot_lists (extractAllTableData page))
  /\ forall listName,
       In listName (pivot_lists (extractAllTableData page))
       <-> toLowerCase listName <> "all"
           /\ exists agentName d,
                In (agentName, d) (agents (extractAllTableData page))
                /\ In listName (map fst (lists d)).
Proof.
  split; [apply sortStrings_sorted|].
  split; [|intros listName; apply In_pivot_lists].
  destruct (extractAllTableData_lists page) as [Hnd _].
  eapply Permutation_NoDup; [apply Permutation_sortStrings|].
  now apply NoDup_filter.
Qed.

(** On whole counts below 2^53 the comparator of the sort is positive when
    the second agent has dialed more. *)
Lemma compareAgents_counts (bound : Z) (x y : string * agentData) :
  bound < 2 ^ 53 ->
  is_count bound (counters.dialed (totals (snd x))) ->
  is_count bound (counters.dialed (totals (snd y))) ->
  gt (compareAgents x y) zero
  = (count_of (counters.dialed (totals (snd x)))
     <? count_of (counters.dialed (totals (snd y)))).
Proof.
  intros HB [Ex Hx] [Ey Hy]. unfold compareAgents.
  rewrite Ex at 1. rewrite Ey at 1.
  rewrite sub_whole by lia. rewrite gt_ofZ_zero.
  destruct (0 <? _) eqn:E1, (_ <? _) eqn:E2; try reflexivity; lia.
Qed.

Lemma insertAgent_counts (bound : Z) (x : string * agentData)
    (l : list (string * agentData)) :
  is_count bound (counters.dialed (totals (snd x))) ->
  Forall (fun a => is_count bound (counters.dialed (totals (snd a)))) l ->
  Forall (fun a => is_count bound (counters.dialed (totals (snd a))))
         (insertAgent x l).
Proof.
  intros Hx Hl. induction Hl as [|y l Hy Hl IH]; simpl.
  - now constructor.
  - destruct (gt (compareAgents x y) zero); constructor; auto.
Qed.

Lemma insertAgent_sorted (bound : Z) (x : string * agentData)
    (l : list (string * agentData)) :
  bound < 2 ^ 53 ->
  is_count bound (counters.dialed (totals (snd x))) ->
  Forall (fun a => is_count bound (counters.dialed (totals (snd a)))) l ->
  Sorted (fun a b => count_of (counters.dialed (totals (snd b)))
                     <= count_of (counters.dialed (totals (snd a)))) l ->
  Sorted (fun a b => count_of (counters.dialed (totals (snd b)))
                     <= count_of (counters.dialed (totals (snd a))))
         (insertAgent x l).
Proof.
  intros HB Hx Hl Hs. induction Hs as [|y l' Hs IHs Hhd]; simpl;
    [repeat constructor|].
  inversion Hl as [|? ? Hy Hl']; subst.
  rewrite (compareAgents_counts bound x y HB Hx Hy).
  destruct (_ <? _) eqn:E.
  - apply Z.ltb_lt in E. constructor; [now apply IHs|].
    destruct l' as [|z l'']; simpl; [constructor; lia|].
    inversion Hhd as [|? ? Hyz]; subst.
    destruct (gt (compareAgents x z) zero); constructor; [exact Hyz|lia].
  - apply Z.ltb_ge in E. constructor; [constructor; assumption|].
    constructor. exact E.
Qed.

Lemma sortAgents_sorted (bound : Z) (l : list (string * agentData)) :
  bound < 2 ^ 53 ->
  Forall (fun a => is_count bound (counters.dialed (totals (snd a)))) l ->
  Forall (fun a => is_count bound (counters.dialed (totals (snd a))))
         (sortAgents l)
  /\ Sorted (fun a b => count_of (counters.dialed (totals (snd b)))
                        <= count_of (counters.dialed (totals (snd a))))
            (sortAgents l).
Proof.
  intros HB Hl. induction Hl as [|x l Hx Hl [IHf IHs]]; simpl.
  - split; constructor.
  - split; [now apply insertAgent_counts|now apply (insertAgent_sorted bound)].
Qed.

Lemma Sorted_refine {A : Type} (R R' : A -> A -> Prop) (P : A -> Prop)
    (l : list A) :
  (forall a b, P a -> P b -> R a b -> R' a b) ->
  Forall P l -> Sorted R l -> Sorted R' l.
Proof.
  intros H HP Hs. induction Hs as [|a l Hs IH Hhd]; [constructor|].
  inversion HP as [|? ? Pa Pl]; subst.
  constructor; [now apply IH|].
  destruct Hhd as [|b l' Hab]; constructor.
  inversion Pl; subst. now apply H.
Qed.

(** X12. The body rows of the pivot are the agents of the aggregation, each
    once, by descending total of dialed calls, when the counters read from
    the rows are whole numbers and their number is such that no sum reaches
    2^53. *)
Theorem pivot_agents_by_descending_dialed (bound : Z) (page : list table) :
  whole_counts bound page ->
  let sorted := sortAgents (agents (extractAllTableData page)) in
  Permutation (agents (extractAllTableData page)) sorted
  /\ Sorted dialed_descending sorted
  /\ forall p, populateOverlay page = Some p ->
               body p = map (pivot_row (pivot_lists (extractAllTableData page))) sorted.
Proof.
  intros Hpage sorted.
  pose proof (Permutation_sortAgents (agents (extractAllTableData page))) as Hperm.
  split; [exact Hperm|]. split.
  - pose proof (extractAllTableData_exact bound page Hpage) as Hex.
    destruct Hpage as [_ [Hb Hlt]].
    set (B := bound * Z.of_nat (List.length (flat_map tbody page))) in *.
    assert (Hall : Forall (fun a => is_count B (counters.dialed (totals (snd a))))
                          (agents (extractAllTableData page))).
    { apply Forall_forall. intros [a d] Hin.
      destruct (Hex a d Hin) as [Ht _]. apply Ht. now left. }
    destruct (sortAgents_sorted B _ Hlt Hall) as [Hf Hs].
    refine (Sorted_refine _ dialed_descending _ _ _ Hf Hs).
    intros a b [Ea _] [Eb _] Hab. unfold dialed_descending.
    exists (Q2Qc (inject_Z (count_of (counters.dialed (totals (snd a)))))),
           (Q2Qc (inject_Z (count_of (counters.dialed (totals (snd b)))))).
    split; [exact Ea|]. split; [exact Eb|].
    unfold Qcle. rewrite !this_ofZ. now rewrite <- Zle_Qle.
  - intros p. unfold populateOverlay.
    destruct (List.length (agents (extractAllTableData page)) =? 0)%nat;
      [discriminate|].
    intros [= <-]. reflexivity.
Qed.

Lemma pivot_agents_example :
  whole_counts 30 [table_two_agents]
  /\ map fst (sortAgents (agents (extractAllTableData [table_two_agents])))
     = ["Bob"; "Alice"]
  /\ Sorted dialed_descending
            (sortAgents (agents (extractAllTableData [table_two_agents]))).
Proof.
  assert (Hp : whole_counts 30 [table_two_agents])
    by (apply whole_counts_b_true; vm_compute; reflexivity).
  split; [exact Hp|].
  split; [vm_compute; reflexivity|].
  apply (pivot_agents_by_descending_dialed 30 [table_two_agents] Hp).
Defined.

Lemma Map_values_agree {V : Type} (m : list (string * V)) (k : string) (v v' : V) :
  NoDup (map fst m) -> In (k, v) m -> In (k, v') m -> v = v'.
Proof.
  intros Hnd H H'.
  apply (Map_get_of_In _ _ _ Hnd) in H. apply (Map_get_of_In _ _ _ Hnd) in H'.
  congruence.
Qed.

(** Every row of the export is a block of the pivot built from the same
    aggregation. *)
Lemma rows_are_blocks (page : list table) :
  let data := extractAllTableData page in
  (forall a l listData,
      In (a, l, listData) (exported_rows data) ->
      In l (pivot_lists data)
      /\ exists d, In (a, d) (agents data)
                   /\ pivot_block d l = renderMetricCells listData true
                   /\ cellsAt [0; 1; 3; 6; 9]%nat (pivot_block d l)
                      = cellsAt [2; 3; 5; 8; 11]%nat (csv_fields a l listData))
  /\ (forall a d l,
         In (a, d) (agents data) -> In l (pivot_lists data) ->
         (exists listData, In (a, l, listData) (exported_rows data)
                           /\ pivot_block d l = renderMetricCells listData true)
         \/ ((forall listData, ~ In (a, l, listData) (exported_rows data))
             /\ pivot_block d l = renderMetricCells counters.zeros true)).
Proof.
  intros data.
  destruct (extractAllTableData_keys page) as [Hka Hkl]. fold data in Hka, Hkl.
  pose proof (In_pivot_lists page) as Hpl. fold data in Hpl.
  split.
  - intros a l listData Hin.
    apply In_exported_rows in Hin. destruct Hin as [[d [Hd Hl]] Hall].
    split.
    { apply Hpl. split.
      - exact Hall.
      - exists a, d. split; [exact Hd|].
        apply in_map_iff. exists (l, listData). now split. }
    exists d. split; [exact Hd|].
    assert (E : pivot_block d l = renderMetricCells listData true).
    { unfold pivot_block, listDataOr.
      now rewrite (Map_get_of_In _ _ _ (Hkl a d Hd) Hl). }
    split; [exact E|]. rewrite E. reflexivity.
  - intros a d l Hd Hl. apply Hpl in Hl. destruct Hl as [Hall _].
    unfold pivot_block, listDataOr.
    destruct (Map_get (lists d) l) as [listData|] eqn:E.
    + left. exists listData. split; [|reflexivity].
      apply In_exported_rows. split.
      * exists d. split; [exact Hd|]. now apply Map_get_In.
      * exact Hall.
    + right. split; [|reflexivity].
      intros listData Hin. apply In_exported_rows in Hin.
      destruct Hin as [[d' [Hd' Hl']] _].
      assert (d' = d) by (eapply Map_values_agree; eassumption). subst d'.
      rewrite (Map_get_of_In _ _ _ (Hkl a d Hd) Hl') in E. discriminate E.
Qed.

Lemma filter_Map_set_all {V : Type} (m : list (string * V)) (k : string) (v : V) :
  is_all k = true ->
  filter (fun le => negb (is_all (fst le))) (Map_set m k v)
  = filter (fun le => negb (is_all (fst le))) m.
Proof.
  intros Hk. induction m as [|[k' v'] m IH]; cbn [Map_set filter fst].
  - now rewrite Hk.
  - destruct (String.eqb_spec k' k) as [->|Hne]; cbn [filter fst].
    + now rewrite Hk.
    + now rewrite IH.
Qed.

(** A row recorded under the list All changes no row of the export and no
    list name of the pivot. *)
Lemma exported_rows_recordRow_all agentName listName row data :
  is_all listName = true ->
  exported_rows (recordRow agentName listName row data) = exported_rows data.
Proof.
  intros Hl. unfold exported_rows, recordRow. cbv zeta. cbn [agents].
  induction (agents data) as [|[k d] m IH]; cbn [Map_get Map_set flat_map].
  - cbn [fst snd lists Map_get Map_set filter]. now rewrite Hl.
  - destruct (String.eqb_spec k agentName) as [->|Hne]; cbn [flat_map fst snd lists].
    + now rewrite filter_Map_set_all.
    + f_equal. exact IH.
Qed.

Lemma allLists_recordRow_all agentName listName row data :
  is_all listName = true ->
  filter (fun l => negb (is_all l)) (allLists (recordRow agentName listName row data))
  = filter (fun l => negb (is_all l)) (allLists data).
Proof.
  intros Hl. unfold recordRow. cbv zeta. cbn [allLists]. unfold Set_add.
  destruct (Set_has (allLists data) listName); [reflexivity|].
  rewrite filter_app. cbn [filter]. rewrite Hl. cbn [negb]. apply app_nil_r.
Qed.

Lemma extractTable_without_list_role (data : aggregation) (t : table) :
  no_list_role t ->
  exported_rows (extractTable data t) = exported_rows data
  /\ pivot_lists (extractTable data t) = pivot_lists data.
Proof.
  unfold no_list_role, extractTable.
  destruct (thead t) as [headerCells|]; [|now split].
  cbv zeta.
  set (r := resolve_roles (map (fun th => toLowerCase (trim th)) headerCells)).
  intros Hl. destruct (userIdx r =? -1); [now split|].
  assert (H : exported_rows (fold_left (extractRow r) (tbody t) data)
              = exported_rows data
              /\ filter (fun l => negb (is_all l))
                        (allLists (fold_left (extractRow r) (tbody t) data))
                 = filter (fun l => negb (is_all l)) (allLists data)).
  { apply fold_left_invariant; [|now split].
    intros acc cells [H1 H2]. unfold extractRow.
    destruct (List.length cells <? 3)%nat; [now split|].
    assert (E : listNameOf r cells = "All").
    { unfold listNameOf. rewrite Hl. reflexivity. }
    rewrite E. split.
    - now rewrite exported_rows_recordRow_all.
    - now rewrite allLists_recordRow_all. }
  destruct H as [H1 H2]. split; [exact H1|].
  unfold pivot_lists. now rewrite H2.
Qed.

Lemma extractAllTableData_with_overlay (page : list table) (overlay : table) :
  no_list_role overlay ->
  exported_rows (extractAllTableData (page ++ [overlay]))
  = exported_rows (extractAllTableData page)
  /\ pivot_lists (extractAllTableData (page ++ [overlay]))
     = pivot_lists (extractAllTableData page).
Proof.
  intros H. unfold extractAllTableData. rewrite fold_left_app. cbn [fold_left].
  now apply extractTable_without_list_role.
Qed.

Lemma findIndex_from_map_none {A B : Type} (i : Z) (p : B -> bool) (g : A -> B)
    (l : list A) :
  forallb (fun x => negb (p (g x))) l = true -> findIndex_from i p (map g l) = -1.
Proof.
  revert i. induction l as [|x l IH]; intros i H; [reflexivity|].
  cbn [forallb] in H. apply andb_true_iff in H. destruct H as [Hx Hl].
  cbn [map findIndex_from]. apply negb_true_iff in Hx. rewrite Hx.
  now apply IH.
Qed.

Lemma overlay_table_no_list_role (data shown : aggregation) :
  pivot_lists data = pivot_lists shown -> no_list_in_names shown = true ->
  no_list_role (overlay_table data).
Proof.
  intros E H. unfold no_list_role, overlay_table. cbn [thead]. rewrite E.
  unfold resolve_roles. cbn [listIdx]. unfold findIndex.
  cbn [map findIndex_from].
  change (includes (toLowerCase (trim "Agent")) "list") with false.
  change (includes (toLowerCase (trim "TOTALS")) "list") with false.
  cbv iota. rewrite map_map.
  apply (findIndex_from_map_none _ (fun h => includes h "list")
           (fun l => toLowerCase (trim (shortName l)))).
  exact H.
Qed.

(** However often the overlay is filled again, its table resolves no list
    role when no list name contains the word. *)
Lemma overlay_after_no_list_role (page : list table) (n : nat) :
  no_list_in_names (extractAllTableData page) = true ->
  no_list_role (overlay_after n page).
Proof.
  intros H. induction n as [|n IH]; [exact I|].
  cbn [overlay_after]. unfold populateOverlay_on. cbv zeta.
  destruct (List.length _ =? 0)%nat; [exact IH|].
  apply (overlay_table_no_list_role _ (extractAllTableData page)); [|exact H].
  apply (extractAllTableData_with_overlay page _ IH).
Qed.

(** The table of the overlay before the first call of [populateOverlay] has
    no header row: the call reads the tables of the page alone. *)
Lemma populateOverlay_first (page : list table) :
  extractAllTableData (page ++ [overlay_created]) = extractAllTableData page
  /\ populateOverlay (page ++ [overlay_created]) = populateOverlay page.
Proof.
  assert (E : extractAllTableData (page ++ [overlay_created])
              = extractAllTableData page).
  { unfold extractAllTableData. rewrite fold_left_app. reflexivity. }
  split; [exact E|]. unfold populateOverlay. now rewrite E.
Qed.

(** The table that a call of [populateOverlay] leaves has the texts of the
    pivot that the call builds from the document; it is left as it was when
    the call builds none. *)
Lemma overlay_table_shows_pivot (page : list table) (overlay : table) :
  match populateOverlay (page ++ [overlay]) with
  | Some p =>
      Some (header1 p)
      = option_map (map escapeHtml) (thead (populateOverlay_on page overlay))
      /\ body p
         = map (fun row => match row with
                           | name :: cells => escapeHtml name :: cells
                           | [] => []
                           end)
               (tbody (populateOverlay_on page overlay))
  | None => populateOverlay_on page overlay = overlay
  end.
Proof.
  unfold populateOverlay, populateOverlay_on. cbv zeta.
  destruct (List.length (agents (extractAllTableData (page ++ [overlay]))) =? 0)%nat;
    [reflexivity|].
  cbn [header1 body]. unfold overlay_table. cbn [thead tbody option_map map].
  split; rewrite map_map; reflexivity.
Qed.

(** With a list named List A the table of the overlay resolves the list
    role, and the export, which reads it with the table of the page, writes
    a second row for Alice, on a list that no table of the page names. *)
Lemma list_name_with_list_adds_a_row :
  no_list_in_names (extractAllTableData [table_list_a]) = false
  /\ map row_key (exported_rows (extractAllTableData [table_list_a]))
     = [("Alice", "List A")]
  /\ map row_key
       (exported_rows
          (extractAllTableData ([table_list_a] ++ [overlay_after 1 [table_list_a]])))
     = [("Alice", "List A"); ("Alice", "0")].
Proof. vm_compute. repeat split; reflexivity. Qed.

(** X13. The pivot and the CSV show the same aggregation when no list name,
    as the header of the pivot shows it, contains the word list.  The export
    runs from the overlay, after [n + 1] calls of [populateOverlay], and
    reads the table of the overlay with the tables of the page: it then
    writes the rows of the page alone.  Every row of the CSV is a block of
    the pivot shown, with the same tuple and the same five counts as text;
    and a block of the pivot, for an agent and a list name, either shows the
    tuple of a row of the CSV or, when the CSV has no row for the pair, the
    twelve cells of the zero tuple. *)
Theorem csv_rows_and_pivot_blocks (page : list table) (n : nat) :
  no_list_in_names (extractAllTableData page) = true ->
  let shown := extractAllTableData (page ++ [overlay_after n page]) in
  let data := extractAllTableData (page ++ [overlay_after (S n) page]) in
  exported_rows data = exported_rows (extractAllTableData page)
  /\ pivot_lists shown = pivot_lists (extractAllTableData page)
  /\ (forall a l listData,
        In (a, l, listData) (exported_rows data) ->
        In l (pivot_lists shown)
        /\ exists d, In (a, d) (agents shown)
                     /\ pivot_block d l = renderMetricCells listData true
                     /\ cellsAt [0; 1; 3; 6; 9]%nat (pivot_block d l)
                        = cellsAt [2; 3; 5; 8; 11]%nat (csv_fields a l listData))
  /\ (forall a d l,
         In (a, d) (agents shown) -> In l (pivot_lists shown) ->
         (exists listData, In (a, l, listData) (exported_rows data)
                           /\ pivot_block d l = renderMetricCells listData true)
         \/ ((forall listData, ~ In (a, l, listData) (exported_rows data))
             /\ pivot_block d l = renderMetricCells counters.zeros true)).
Proof.
  intros H shown data.
  destruct (extractAllTableData_with_overlay page _
              (overlay_after_no_list_role page n H)) as [Rn Ln].
  destruct (extractAllTableData_with_overlay page _
              (overlay_after_no_list_role page (S n) H)) as [Rs _].
  fold shown in Rn, Ln. fold data in Rs.
  assert (E : exported_rows data = exported_rows shown) by congruence.
  split; [exact Rs|]. split; [exact Ln|].
  rewrite E. exact (rows_are_blocks (page ++ [overlay_after n page])).
Qed.

Lemma csv_rows_and_pivot_blocks_example :
  no_list_in_names (extractAllTableData [scenario1]) = true
  /\ map row_key
       (exported_rows
          (extractAllTableData ([scenario1] ++ [overlay_after 1 [scenario1]])))
     = [("Alice", "Sales")].
Proof.
  split; [vm_compute; reflexivity|].
  rewrite (proj1 (csv_rows_and_pivot_blocks [scenario1] 0 eq_refl)).
  vm_compute. reflexivity.
Defined.

(* ================================================================== *)
(** ** Column visibility *)
(* ================================================================== *)

Lemma displayed_with_nil decide headerCells :
  displayed_with decide headerCells [] = [].
Proof. now destruct headerCells. Qed.

Lemma update_at_displayed decide th (none : option bool) headerCells :
  decide th = none ->
  forall i cells,
    (firstn (S i) (match none with
                   | Some b => update_at i (set_display b) cells
                   | None => cells
                   end)
     ++ displayed_with decide headerCells
          (skipn (S i) (match none with
                        | Some b => update_at i (set_display b) cells
                        | None => cells
                        end)))%list
    = (firstn i cells ++ displayed_with decide (th :: headerCells) (skipn i cells))%list.
Proof.
  intros Hd. induction i as [|i IH]; intros [|c cells].
  - destruct none; simpl; now rewrite displayed_with_nil.
  - destruct none; simpl; rewrite Hd; reflexivity.
  - destruct none; simpl; now rewrite displayed_with_nil.
  - specialize (IH cells). destruct none; simpl in *; now rewrite IH.
Qed.

(** A loop over the header cells that sets whole columns leaves in every row
    the display given by [displayed_with]. *)
Lemma column_loop (decide : element -> option bool) (headerCells : list element) :
  forall i t,
    fold_left
      (fun t' entry =>
         match decide (snd entry) with
         | Some none => set_column (fst entry) none t'
         | None => t'
         end)
      (indexed_from i headerCells) t
    = {| dom_thead :=
           option_map
             (fun cells => (firstn i cells
                            ++ displayed_with decide headerCells (skipn i cells))%list)
             (dom_thead t);
         dom_tbody :=
           map (fun cells => (firstn i cells
                              ++ displayed_with decide headerCells (skipn i cells))%list)
               (dom_tbody t) |}.
Proof.
  induction headerCells as [|th headerCells IH]; intros i [h b].
  - simpl. f_equal.
    + destruct h as [h|]; simpl; [|reflexivity]. now rewrite firstn_skipn.
    + symmetry. erewrite map_ext; [apply map_id|].
      intros cells. simpl. apply firstn_skipn.
  - cbn [indexed_from fold_left fst snd]. rewrite IH. clear IH.
    destruct (decide th) as [none|] eqn:E.
    + pose proof (update_at_displayed decide th (Some none) headerCells E i) as U.
      unfold set_column. cbn [dom_thead dom_tbody]. f_equal.
      * destruct h as [h|]; cbn [option_map]; [|reflexivity]. f_equal.
        exact (U h).
      * rewrite map_map. apply map_ext. intros cells. exact (U cells).
    + pose proof (update_at_displayed decide th None headerCells E i) as U.
      cbn [dom_thead dom_tbody]. f_equal.
      * destruct h as [h|]; cbn [option_map]; [|reflexivity]. f_equal.
        exact (U h).
      * apply map_ext. intros cells. exact (U cells).
Qed.

Lemma displayed_by_with cfg headerCells cells :
  displayed_by cfg headerCells cells
  = displayed_with (fun th => Some (isHidden cfg (trim (text_of th))))
                   headerCells cells.
Proof.
  revert cells. induction headerCells as [|th headerCells IH]; intros [|c cells];
    simpl; try reflexivity.
  now rewrite IH.
Qed.

Lemma applyColumnVisibility_rows (cfg : settings) (t : dom_table) headerCells :
  dom_thead t = Some headerCells ->
  applyColumnVisibility cfg t
  = {| dom_thead := Some (displayed_by cfg headerCells headerCells);
       dom_tbody := map (displayed_by cfg headerCells) (dom_tbody t) |}.
Proof.
  intros Ht. unfold applyColumnVisibility. rewrite Ht.
  rewrite (column_loop (fun th => Some (isHidden cfg (trim (text_of th))))
                       headerCells 0 t).
  rewrite Ht. simpl. f_equal.
  - now rewrite displayed_by_with.
  - apply map_ext. intros cells. now rewrite displayed_by_with.
Qed.

Lemma show_columns_rows (headerText : string) (isVisible : bool) (t : dom_table)
    headerCells :
  dom_thead t = Some headerCells ->
  let decide := fun th =>
    if String.eqb (trim (text_of th)) headerText then Some (negb isVisible)
    else None in
  show_columns headerText isVisible t
  = {| dom_thead := Some (displayed_with decide headerCells headerCells);
       dom_tbody := map (displayed_with decide headerCells) (dom_tbody t) |}.
Proof.
  intros Ht decide. unfold show_columns. rewrite Ht.
  rewrite (fold_left_ext _
             (fun t' entry =>
                match decide (snd entry) with
                | Some none => set_column (fst entry) none t'
                | None => t'
                end)).
  - rewrite (column_loop decide headerCells 0 t). rewrite Ht. reflexivity.
  - intros t' entry. unfold decide.
    now destruct (String.eqb (trim (text_of (snd entry))) headerText).
Qed.

Lemma applyColumnVisibility_no_header cfg t :
  dom_thead t = None -> applyColumnVisibility cfg t = t.
Proof. intros Ht. unfold applyColumnVisibility. now rewrite Ht. Qed.

Lemma displayed_by_facts cfg headerCells cells :
  map text_of (displayed_by cfg headerCells cells) = map text_of cells
  /\ map insight_calc_col (displayed_by cfg headerCells cells)
     = map insight_calc_col cells
  /\ map display_none (displayed_by cfg headerCells cells)
     = (firstn (List.length cells)
               (map (fun th => isHidden cfg (trim (text_of th))) headerCells)
        ++ skipn (List.length headerCells) (map display_none cells))%list.
Proof.
  revert cells. induction headerCells as [|th headerCells IH]; intros [|c cells];
    simpl; try (repeat split; reflexivity).
  destruct (IH cells) as [H1 [H2 H3]]. now rewrite H1, H2, H3.
Qed.

Lemma displayed_by_again cfg cfg' headerCells cells :
  displayed_by cfg (displayed_by cfg' headerCells headerCells)
               (displayed_by cfg' headerCells cells)
  = displayed_by cfg headerCells cells.
Proof.
  revert cells. induction headerCells as [|th headerCells IH]; intros [|c cells];
    simpl; try reflexivity.
  now rewrite IH.
Qed.

Lemma inherited_is_hidden cfg headerText :
  In headerText Object_prototype -> isHidden cfg headerText = true.
Proof.
  intros Hin. simpl in Hin.
  repeat (destruct Hin as [<-|Hin]; [reflexivity|]). contradiction.
Qed.

Lemma applyColumnVisibility_again cfg cfg' (t : dom_table) :
  applyColumnVisibility cfg (applyColumnVisibility cfg' t)
  = applyColumnVisibility cfg t.
Proof.
  destruct (dom_thead t) as [headerCells|] eqn:Ht.
  - rewrite (applyColumnVisibility_rows cfg' t headerCells Ht).
    rewrite (applyColumnVisibility_rows cfg t headerCells Ht).
    erewrite applyColumnVisibility_rows; [|reflexivity].
    cbn [dom_tbody]. f_equal.
    + f_equal. apply displayed_by_again.
    + rewrite map_map. apply map_ext. intros cells. apply displayed_by_again.
  - now rewrite !(applyColumnVisibility_no_header _ t Ht).
Qed.

(** X14. [applyColumnVisibility] sets whole columns and nothing else.  The texts
    and the classes of the cells stay; the header cell of a column, and the
    cell of every body row below it, is hidden exactly when [isHidden] holds
    of the trimmed header text; a body cell past the last header keeps the
    display it had.  So a pass overrides the pass before it, whatever the
    settings of that one were.  A column whose header text is a name that
    objects inherit, such as constructor or toString, is hidden by every
    pass. *)
Theorem applyColumnVisibility_sets_whole_columns (cfg cfg' : settings)
    (t : dom_table) :
  (forall headerCells, dom_thead t = Some headerCells ->
     applyColumnVisibility cfg t
     = {| dom_thead := Some (displayed_by cfg headerCells headerCells);
          dom_tbody := map (displayed_by cfg headerCells) (dom_tbody t) |})
  /\ (forall headerCells cells,
        map text_of (displayed_by cfg headerCells cells) = map text_of cells
        /\ map insight_calc_col (displayed_by cfg headerCells cells)
           = map insight_calc_col cells
        /\ map display_none (displayed_by cfg headerCells cells)
           = (firstn (List.length cells)
                     (map (fun th => isHidden cfg (trim (text_of th))) headerCells)
              ++ skipn (List.length headerCells) (map display_none cells))%list)
  /\ applyColumnVisibility cfg (applyColumnVisibility cfg' t)
     = applyColumnVisibility cfg t
  /\ (forall headerText, In headerText Object_prototype ->
                         isHidden cfg headerText = true).
Proof.
  split; [intros headerCells Ht; now apply applyColumnVisibility_rows|].
  split; [apply displayed_by_facts|].
  split; [apply applyColumnVisibility_again|apply inherited_is_hidden].
Qed.

Lemma displayed_with_after cfg cfg' (headerText : string) (isVisible : bool) :
  (forall x, isHidden cfg' x
             = if String.eqb x headerText then negb isVisible else isHidden cfg x) ->
  forall headerCells cells,
    displayed_with
      (fun th => if String.eqb (trim (text_of th)) headerText
                 then Some (negb isVisible) else None)
      (displayed_by cfg headerCells headerCells)
      (displayed_by cfg headerCells cells)
    = displayed_by cfg' headerCells cells.
Proof.
  intros Hx. induction headerCells as [|th headerCells IH]; intros [|c cells];
    simpl; try reflexivity.
  rewrite IH, Hx.
  now destruct (String.eqb (trim (text_of th)) headerText).
Qed.

Lemma show_columns_after cfg cfg' (headerText : string) (isVisible : bool)
    (t : dom_table) :
  (forall x, isHidden cfg' x
             = if String.eqb x headerText then negb isVisible else isHidden cfg x) ->
  show_columns headerText isVisible (applyColumnVisibility cfg t)
  = applyColumnVisibility cfg' t.
Proof.
  intros Hx. destruct (dom_thead t) as [headerCells|] eqn:Ht.
  - rewrite (applyColumnVisibility_rows cfg t headerCells Ht).
    rewrite (applyColumnVisibility_rows cfg' t headerCells Ht).
    erewrite show_columns_rows; [|reflexivity].
    cbn [dom_tbody]. f_equal.
    + f_equal. now apply displayed_with_after.
    + rewrite map_map. apply map_ext. intros cells. now apply displayed_with_after.
  - rewrite !(applyColumnVisibility_no_header _ t Ht).
    unfold show_columns. now rewrite Ht.
Qed.

Lemma lensed_switch cfg key checked headerText :
  lookup headerMap key = own headerText ->
  forall x,
    isHidden {| hiddenColumns := hiddenColumns cfg;
                lensedColumns := lensedColumns_set (lensedColumns cfg) key checked |} x
    = if String.eqb x headerText then negb checked else isHidden cfg x.
Proof.
  intros Hk x. unfold lookup in Hk.
  destruct (Map_get headerMap key) as [v|] eqn:E;
    [|destruct (existsb (String.eqb key) Object_prototype); discriminate].
  injection Hk as ->. apply Map_get_In in E.
  destruct cfg as [hidden [a b c d e f]].
  unfold isHidden, lookup. cbn [hiddenColumns lensedColumns].
  destruct (Map_get lensedHeaderMap x) as [k|] eqn:L.
  - apply Map_get_In in L. simpl in E, L.
    repeat (destruct E as [E|E]; [injection E as <- <-|]); try contradiction;
      repeat (destruct L as [L|L]; [injection L as <- <-|]); try contradiction;
      reflexivity.
  - simpl in E.
    destruct (existsb (String.eqb x) Object_prototype);
    repeat (destruct E as [E|E]; [injection E as <- <-|]); try contradiction;
      match goal with
      | |- context [String.eqb x ?label] =>
          destruct (String.eqb_spec x label) as [->|_];
          [simpl in L; discriminate L|reflexivity]
      end.
Qed.

Lemma existsb_eqb_In (x : string) (l : list string) :
  existsb (String.eqb x) l = true <-> In x l.
Proof.
  rewrite existsb_exists. split.
  - intros [y [Hin Hy]]. apply String.eqb_eq in Hy. now subst.
  - intros Hin. exists x. split; [exact Hin|apply String.eqb_refl].
Qed.

Lemma onOriginalCheckbox_In (hidden : list string) (header h : string)
    (checked : bool) :
  In h (onOriginalCheckbox hidden header checked)
  <-> if String.eqb h header then checked = false else In h hidden.
Proof.
  unfold onOriginalCheckbox. destruct (String.eqb_spec h header) as [->|Hne].
  - destruct checked.
    + rewrite filter_In, String.eqb_refl. simpl. split; [intros [_ H]|]; discriminate.
    + destruct (existsb (fun h0 => String.eqb h0 header) hidden) eqn:E.
      * split; [reflexivity|]. intros _.
        apply existsb_exists in E. destruct E as [y [Hin Hy]].
        apply String.eqb_eq in Hy. now subst.
      * split; [reflexivity|]. intros _. apply in_or_app. right. now left.
  - destruct checked.
    + rewrite filter_In. split; [tauto|]. intros H. split; [exact H|].
      apply negb_true_iff. now apply String.eqb_neq.
    + destruct (existsb (fun h0 => String.eqb h0 header) hidden); [tauto|].
      rewrite in_app_iff. simpl. split; [|tauto].
      intros [H|[H|[]]]; [exact H|congruence].
Qed.

Lemma original_switch cfg header checked :
  lookup lensedHeaderMap header = absent ->
  forall x,
    isHidden {| hiddenColumns := onOriginalCheckbox (hiddenColumns cfg) header checked;
                lensedColumns := lensedColumns cfg |} x
    = if String.eqb x header then negb checked else isHidden cfg x.
Proof.
  intros Hh x. unfold isHidden. cbn [hiddenColumns lensedColumns].
  destruct (String.eqb_spec x header) as [->|Hne].
  - rewrite Hh.
    pose proof (onOriginalCheckbox_In (hiddenColumns cfg) header header checked) as H.
    rewrite String.eqb_refl in H.
    destruct (existsb (String.eqb header)
                      (onOriginalCheckbox (hiddenColumns cfg) header checked)) eqn:E.
    + apply existsb_eqb_In in E. apply H in E. now subst.
    + destruct checked; [reflexivity|]. exfalso.
      assert (E' : existsb (String.eqb header)
                     (onOriginalCheckbox (hiddenColumns cfg) header false) = true).
      { apply existsb_eqb_In. now apply H. }
      congruence.
  - destruct (lookup lensedHeaderMap x); try reflexivity.
    pose proof (onOriginalCheckbox_In (hiddenColumns cfg) header x checked) as H.
    apply String.eqb_neq in Hne. rewrite Hne in H.
    destruct (existsb (String.eqb x) (hiddenColumns cfg)) eqn:E.
    + apply existsb_eqb_In. apply H. now apply existsb_eqb_In.
    + destruct (existsb (String.eqb x)
                  (onOriginalCheckbox (hiddenColumns cfg) header checked)) eqn:E';
        [|reflexivity].
      apply existsb_eqb_In in E'. apply H in E'. apply existsb_eqb_In in E'.
      congruence.
Qed.

(** X15. Ticking or unticking the checkbox of a lensed column leaves the page as
    the next visibility pass will: on tables that a pass has gone over, the
    handler gives the tables that a pass with the changed settings gives. *)
Theorem lensed_checkbox_agrees_with_pass (cfg : settings) (key : string)
    (checked : bool) (page : list dom_table) :
  In key lensed_keys ->
  snd (onLensedCheckbox cfg key checked (map (applyColumnVisibility cfg) page))
  = map (applyColumnVisibility (fst (onLensedCheckbox cfg key checked page))) page.
Proof.
  intros Hkey.
  assert (Hk : exists headerText, lookup headerMap key = own headerText).
  { simpl in Hkey.
    repeat (destruct Hkey as [<-|Hkey]; [eexists; reflexivity|]). contradiction. }
  destruct Hk as [headerText Hk].
  unfold onLensedCheckbox, applyLensedColumnVisibility. cbn [fst snd].
  rewrite Hk, map_map. apply map_ext. intros t.
  apply show_columns_after. now apply lensed_switch.
Qed.

Lemma lensed_checkbox_example :
  snd (onLensedCheckbox settings_hidden_list "apptCalls" false
         (map (applyColumnVisibility settings_hidden_list) [table_hidden_list]))
  = map (applyColumnVisibility
           (fst (onLensedCheckbox settings_hidden_list "apptCalls" false
                   [table_hidden_list])))
        [table_hidden_list].
Proof.
  apply (lensed_checkbox_agrees_with_pass settings_hidden_list "apptCalls" false
           [table_hidden_list]).
  simpl. auto.
Defined.

Lemma original_header_is_absent (allHeaders : list string) (header : string) :
  In header (originalHeaders allHeaders) ->
  ~ In header Object_prototype ->
  lookup lensedHeaderMap header = absent.
Proof.
  intros Ho Hp. unfold originalHeaders in Ho. apply filter_In in Ho.
  destruct Ho as [_ Ho]. unfold lookup.
  destruct (Map_get lensedHeaderMap header) as [k|] eqn:E.
  - exfalso. apply Map_get_In in E. simpl in E.
    repeat (destruct E as [E|E]; [injection E as <- <-; discriminate Ho|]).
    contradiction.
  - destruct (existsb (String.eqb header) Object_prototype) eqn:Ex; [|reflexivity].
    apply existsb_eqb_In in Ex. contradiction.
Qed.

(** X16. Ticking or unticking the checkbox of an original column leaves the page
    as the next visibility pass will, for every header that the panel offers
    as an original column, but for a header text that is a name objects
    inherit: on tables that a pass has gone over, the handler gives the
    tables that a pass with the changed settings gives. *)
Theorem original_checkbox_agrees_with_pass (cfg : settings)
    (allHeaders : list string) (header : string) (checked : bool)
    (page : list dom_table) :
  In header (originalHeaders allHeaders) ->
  ~ In header Object_prototype ->
  snd (onOriginalCheckbox_page cfg header checked
         (map (applyColumnVisibility cfg) page))
  = map (applyColumnVisibility (fst (onOriginalCheckbox_page cfg header checked page)))
        page.
Proof.
  intros Ho Hp.
  pose proof (original_header_is_absent allHeaders header Ho Hp) as Hh.
  unfold onOriginalCheckbox_page, applyOriginalColumnVisibility. cbn [fst snd].
  rewrite map_map. apply map_ext. intros t.
  apply show_columns_after. now apply original_switch.
Qed.

Lemma original_checkbox_example :
  snd (onOriginalCheckbox_page settings_hidden_list "List" true
         (map (applyColumnVisibility settings_hidden_list) [table_hidden_list]))
  = map (applyColumnVisibility
           (fst (onOriginalCheckbox_page settings_hidden_list "List" true
                   [table_hidden_list])))
        [table_hidden_list].
Proof.
  apply (original_checkbox_agrees_with_pass settings_hidden_list
           ["User"; "List"; "Dialed"; "APPT"; "APPT%(C)"] "List" true
           [table_hidden_list]).
  - simpl. auto.
  - simpl. intuition discriminate.
Defined.

(* ================================================================== *)
(** ** Injection and removal on the cells of the page *)
(* ================================================================== *)

Lemma processTable_dom_plan cfg (t : dom_table) (flag : bool) :
  processTable_dom cfg t flag
  = match dom_thead t with
    | None => (t, flag)
    | Some headerCells =>
        match injection_plan cfg (map text_of headerCells) with
        | None => (t, flag)
        | Some insertions =>
            ({| dom_thead := Some (inject_header_dom insertions headerCells);
                dom_tbody := map (inject_row_dom insertions) (dom_tbody t) |},
             true)
        end
    end.
Proof.
  unfold processTable_dom, injection_plan.
  destruct (dom_thead t) as [headerCells|]; [|reflexivity].
  rewrite map_map.
  destruct (already_injected (map (fun th => trim (text_of th)) headerCells));
    [reflexivity|].
  match goal with |- context [if ?b then (t, flag) else _] => destruct b end;
    [reflexivity|].
  match goal with |- context [(List.length ?l =? 0)%nat] =>
    destruct (List.length l =? 0)%nat end; reflexivity.
Qed.

Lemma processTable_plan cfg (t : table) (flag : bool) :
  processTable cfg t flag
  = match thead t with
    | None => (t, flag)
    | Some headerCells =>
        match injection_plan cfg headerCells with
        | None => (t, flag)
        | Some insertions =>
            ({| thead := Some (inject_header insertions headerCells);
                tbody := map (inject_row insertions) (tbody t) |},
             true)
        end
    end.
Proof.
  unfold processTable, injection_plan.
  destruct (thead t) as [headerCells|]; [|reflexivity].
  destruct (already_injected (map trim headerCells)); [reflexivity|].
  match goal with |- context [if ?b then (t, flag) else _] => destruct b end;
    [reflexivity|].
  match goal with |- context [(List.length ?l =? 0)%nat] =>
    destruct (List.length l =? 0)%nat end; reflexivity.
Qed.

Lemma at_index_app_length {A : Type} (pre : list A) (e : A) (rest : list A) :
  at_index (pre ++ e :: rest) (Z.of_nat (List.length pre)) = Some e.
Proof.
  unfold at_index.
  destruct (Z.of_nat (List.length pre) <? 0) eqn:E; [apply Z.ltb_lt in E; lia|].
  rewrite Nat2Z.id, nth_error_app2; [|lia].
  now rewrite Nat.sub_diag.
Qed.

(** The elements of a live row whose original cells are, in their order, the
    cells of the array. *)
Lemma element_of_live (live : list cell) :
  forall pre cells,
    filter is_original live
    = snapshot_from (Z.of_nat (List.length pre)) (map text_of cells) ->
    map text_of (map (element_of (pre ++ cells)) live) = map innerText live
    /\ filter not_calc (map (element_of (pre ++ cells)) live) = filter not_calc cells
    /\ (forallb not_calc cells = true ->
        map insight_calc_col (map (element_of (pre ++ cells)) live)
        = map (fun c => negb (is_original c)) live
        /\ forall e, In e (map (element_of (pre ++ cells)) live) ->
                     insight_calc_col e = true -> e = createElement (text_of e)).
Proof.
  induction live as [|[o s] live IH]; intros pre cells H.
  - simpl in H. destruct cells as [|e cells]; [|discriminate H].
    simpl. repeat split; try reflexivity. intros e [].
  - destruct o as [i|].
    + change (filter is_original ({| origin := Some i; innerText := s |} :: live))
        with ({| origin := Some i; innerText := s |} :: filter is_original live) in H.
      destruct cells as [|e cells]; [discriminate H|].
      simpl in H. injection H as Hi Hs Hrest. subst i s.
      assert (Hpre : (pre ++ e :: cells = (pre ++ [e]) ++ cells)%list)
        by (now rewrite <- app_assoc).
      assert (Hlen : Z.of_nat (List.length (pre ++ [e])) = Z.of_nat (List.length pre) + 1)
        by (rewrite length_app; simpl; lia).
      rewrite <- Hlen in Hrest.
      destruct (IH (pre ++ [e])%list cells Hrest) as [H1 [H2 H3]].
      rewrite <- Hpre in H1, H2, H3.
      assert (He : element_of (pre ++ e :: cells)
                     {| origin := Some (Z.of_nat (List.length pre));
                        innerText := text_of e |} = e).
      { unfold element_of. cbn [origin]. now rewrite at_index_app_length. }
      cbn [map]. rewrite He. cbn [innerText]. split; [now rewrite H1|].
      split.
      * cbn [filter]. rewrite H2. reflexivity.
      * intros Hp. cbn [forallb] in Hp. apply andb_true_iff in Hp.
        destruct Hp as [Hpe Hpc]. destruct (H3 Hpc) as [H4 H5]. split.
        -- cbn [map]. rewrite H4. unfold is_original at 1. cbn [origin negb].
           unfold not_calc in Hpe. apply negb_true_iff in Hpe. now rewrite Hpe.
        -- intros e' [<-|Hin] Hc; [|now apply H5].
           unfold not_calc in Hpe. rewrite Hc in Hpe. discriminate Hpe.
    + change (filter is_original ({| origin := None; innerText := s |} :: live))
        with (filter is_original live) in H.
      destruct (IH pre cells H) as [H1 [H2 H3]].
      assert (He : element_of (pre ++ cells) {| origin := None; innerText := s |}
                   = createElement s) by reflexivity.
      cbn [map]. rewrite He. cbn [innerText]. split; [simpl; now rewrite H1|].
      split.
      * cbn [filter]. unfold not_calc at 1. simpl. exact H2.
      * intros Hp. destruct (H3 Hp) as [H4 H5]. split.
        -- cbn [map]. now rewrite H4.
        -- intros e' [<-|Hin] Hc; [reflexivity|now apply H5].
Qed.

Lemma originals_of_header insertions texts :
  filter is_original (inject_header_live insertions texts) = snapshot_from 0 texts.
Proof.
  pose proof (fold_insert_facts headerText insertions (snapshot texts))
    as [_ [Horig _]].
  fold (inject_header_live insertions texts) in Horig.
  rewrite Horig. apply originals_snapshot_from.
Qed.

Lemma originals_of_row insertions texts :
  filter is_original (inject_row_live insertions texts) = snapshot_from 0 texts.
Proof.
  pose proof (fold_insert_facts (fun ins => formatPct (calculate ins texts))
                insertions (snapshot texts)) as [_ [Horig _]].
  fold (inject_row_live insertions texts) in Horig.
  rewrite Horig. apply originals_snapshot_from.
Qed.

Lemma inject_header_dom_facts insertions headerCells :
  map text_of (inject_header_dom insertions headerCells)
  = inject_header insertions (map text_of headerCells)
  /\ filter not_calc (inject_header_dom insertions headerCells)
     = filter not_calc headerCells.
Proof.
  destruct (element_of_live (inject_header_live insertions (map text_of headerCells))
              [] headerCells (originals_of_header _ _)) as [H1 [H2 _]].
  split; [exact H1|exact H2].
Qed.

Lemma inject_row_dom_facts insertions cells :
  map text_of (inject_row_dom insertions cells)
  = inject_row insertions (map text_of cells)
  /\ filter not_calc (inject_row_dom insertions cells) = filter not_calc cells.
Proof.
  unfold inject_row_dom, inject_row. rewrite length_map.
  destruct (List.length cells =? 0)%nat; [split; reflexivity|].
  destruct (element_of_live (inject_row_live insertions (map text_of cells))
              [] cells (originals_of_row _ _)) as [H1 [H2 _]].
  split; [exact H1|exact H2].
Qed.

(** The texts that [processTable] leaves in the cells of the page are those
    of [processTable] on the table of the texts. *)
Lemma processTable_dom_texts cfg (t : dom_table) (flag : bool) :
  texts_of_table (fst (processTable_dom cfg t flag))
  = fst (processTable cfg (texts_of_table t) flag)
  /\ snd (processTable_dom cfg t flag)
     = snd (processTable cfg (texts_of_table t) flag).
Proof.
  rewrite processTable_dom_plan, processTable_plan.
  change (thead (texts_of_table t)) with (option_map (map text_of) (dom_thead t)).
  change (tbody (texts_of_table t)) with (map (map text_of) (dom_tbody t)).
  destruct (dom_thead t) as [headerCells|]; cbn [option_map]; [|split; reflexivity].
  destruct (injection_plan cfg (map text_of headerCells)) as [insertions|];
    [|split; reflexivity].
  split; [|reflexivity]. unfold texts_of_table. cbn [fst dom_thead dom_tbody option_map].
  f_equal.
  - f_equal. apply (inject_header_dom_facts insertions headerCells).
  - rewrite !map_map. apply map_ext. intros cells.
    apply (inject_row_dom_facts insertions cells).
Qed.

Lemma remove_calc_processTable cfg (t : dom_table) (flag : bool) :
  remove_calc (fst (processTable_dom cfg t flag)) = remove_calc t.
Proof.
  rewrite processTable_dom_plan.
  destruct (dom_thead t) as [headerCells|] eqn:Ht; [|reflexivity].
  destruct (injection_plan cfg (map text_of headerCells)) as [insertions|];
    [|reflexivity].
  unfold remove_calc. cbn [fst dom_thead dom_tbody option_map]. rewrite Ht.
  cbn [option_map]. f_equal.
  - f_equal. apply (inject_header_dom_facts insertions headerCells).
  - rewrite map_map. apply map_ext. intros cells.
    apply (inject_row_dom_facts insertions cells).
Qed.

Lemma filter_all {A : Type} (p : A -> bool) (l : list A) :
  forallb p l = true -> filter p l = l.
Proof.
  induction l as [|x l IH]; simpl; [reflexivity|].
  intros H. apply andb_true_iff in H. destruct H as [Hx Hl].
  now rewrite Hx, IH.
Qed.

Lemma remove_calc_pristine (t : dom_table) : pristine t -> remove_calc t = t.
Proof.
  intros [Hh Hb]. destruct t as [h b]. unfold remove_calc. cbn [dom_thead dom_tbody] in *.
  f_equal.
  - destruct h as [h|]; [|reflexivity]. cbn [option_map]. f_equal.
    now apply filter_all, Hh.
  - rewrite <- (map_id b) at 2. apply map_ext_in. intros cells Hin.
    now apply filter_all, Hb.
Qed.

Lemma origins_insertAfter k (n1 n2 : cell) :
  origin n1 = origin n2 ->
  forall r1 r2, map origin r1 = map origin r2 ->
                map origin (insertAfter k n1 r1) = map origin (insertAfter k n2 r2).
Proof.
  intros Hn. induction r1 as [|c1 r1 IH]; intros [|c2 r2] H; simpl in H;
    try discriminate H.
  - simpl. now rewrite Hn.
  - injection H as Hc Hr. simpl.
    assert (E : is_origin k c1 = is_origin k c2) by (unfold is_origin; now rewrite Hc).
    rewrite E. destruct (is_origin k c2); simpl.
    + now rewrite Hc, Hn, Hr.
    + now rewrite Hc, (IH r2 Hr).
Qed.

Lemma origins_fold (mk1 mk2 : insertion -> string) (insertions : list insertion) :
  forall r1 r2,
    map origin r1 = map origin r2 ->
    map origin
      (fold_left
         (fun row ins =>
            insertAfter (afterIdx ins) {| origin := None; innerText := mk1 ins |} row)
         insertions r1)
    = map origin
        (fold_left
           (fun row ins =>
              insertAfter (afterIdx ins) {| origin := None; innerText := mk2 ins |} row)
           insertions r2).
Proof.
  induction insertions as [|ins insertions IH]; intros r1 r2 H; simpl; [exact H|].
  apply IH. now apply origins_insertAfter.
Qed.

Lemma origins_snapshot_from {i} (l1 l2 : list string) :
  List.length l1 = List.length l2 ->
  map origin (snapshot_from i l1) = map origin (snapshot_from i l2).
Proof.
  revert i l2. induction l1 as [|x l1 IH]; intros i [|y l2] H; simpl in *;
    try discriminate H; [reflexivity|].
  f_equal. apply IH. now injection H.
Qed.

Lemma origins_header_row insertions (headerTexts texts : list string) :
  List.length texts = List.length headerTexts ->
  map origin (inject_row_live insertions texts)
  = map origin (inject_header_live insertions headerTexts).
Proof.
  intros H. unfold inject_row_live, inject_header_live.
  apply (origins_fold (fun ins => formatPct (calculate ins texts)) headerText).
  now apply origins_snapshot_from.
Qed.

Lemma created_as_origins (live : list cell) :
  map (fun c => negb (is_original c)) live
  = map (fun o => match o with Some _ => false | None => true end) (map origin live).
Proof.
  rewrite map_map. apply map_ext. intros [[i|] s]; reflexivity.
Qed.

Lemma injection_plan_nil cfg : injection_plan cfg [] = None.
Proof. reflexivity. Qed.

Lemma forallb_not_calc (l : list element) :
  forallb not_calc l = forallb negb (map insight_calc_col l).
Proof. induction l as [|e l IH]; simpl; [reflexivity|]. now rewrite IH. Qed.

Lemma classes_of_header insertions headerCells :
  forallb not_calc headerCells = true ->
  map insight_calc_col (inject_header_dom insertions headerCells)
  = map (fun c => negb (is_original c))
        (inject_header_live insertions (map text_of headerCells))
  /\ forall e, In e (inject_header_dom insertions headerCells) ->
               insight_calc_col e = true -> e = createElement (text_of e).
Proof.
  intros Hp.
  destruct (element_of_live (inject_header_live insertions (map text_of headerCells))
              [] headerCells (originals_of_header _ _)) as [_ [_ H3]].
  exact (H3 Hp).
Qed.

Lemma classes_of_row insertions cells :
  forallb not_calc cells = true ->
  map insight_calc_col (map (element_of cells)
                            (inject_row_live insertions (map text_of cells)))
  = map (fun c => negb (is_original c))
        (inject_row_live insertions (map text_of cells))
  /\ forall e, In e (map (element_of cells)
                         (inject_row_live insertions (map text_of cells))) ->
               insight_calc_col e = true -> e = createElement (text_of e).
Proof.
  intros Hp.
  destruct (element_of_live (inject_row_live insertions (map text_of cells))
              [] cells (originals_of_row _ _)) as [_ [_ H3]].
  exact (H3 Hp).
Qed.

Lemma aligned_after_pass cfg (headerCells cells : list element) :
  map insight_calc_col cells = map insight_calc_col headerCells ->
  List.length (displayed_by cfg headerCells cells)
  = List.length (displayed_by cfg headerCells headerCells)
  /\ map insight_calc_col (displayed_by cfg headerCells cells)
     = map insight_calc_col (displayed_by cfg headerCells headerCells)
  /\ map display_none (displayed_by cfg headerCells cells)
     = map display_none (displayed_by cfg headerCells headerCells).
Proof.
  intros H.
  assert (Hlen : List.length cells = List.length headerCells).
  { apply (f_equal (@List.length bool)) in H. now rewrite !length_map in H. }
  destruct (displayed_by_facts cfg headerCells cells) as [T1 [C1 D1]].
  destruct (displayed_by_facts cfg headerCells headerCells) as [T2 [C2 D2]].
  split.
  { apply (f_equal (@List.length string)) in T1, T2.
    rewrite !length_map in T1, T2. congruence. }
  split; [congruence|].
  rewrite D1, D2, Hlen.
  rewrite !skipn_all2 by (rewrite length_map; lia). reflexivity.
Qed.

(** X17. After a scan, a table whose rows had as many cells as its header row and
    that held no cell of the script keeps its columns whole: every body row
    is as long as the header row, a cell is a derived cell exactly under a
    derived header, and it is hidden exactly when the header above it is. *)
Theorem scan_keeps_columns_whole (cfg : settings) (t : dom_table) (flag : bool)
    (headerCells : list element) :
  pristine t ->
  dom_thead t = Some headerCells ->
  (forall cells, In cells (dom_tbody t) ->
                 List.length cells = List.length headerCells) ->
  exists headerCells',
    dom_thead (applyColumnVisibility cfg
                 (fst (processTable_dom (lensedColumns cfg) t flag)))
    = Some headerCells'
    /\ forall cells',
         In cells' (dom_tbody (applyColumnVisibility cfg
                                 (fst (processTable_dom (lensedColumns cfg) t flag)))) ->
         List.length cells' = List.length headerCells'
         /\ map insight_calc_col cells' = map insight_calc_col headerCells'
         /\ map display_none cells' = map display_none headerCells'.
Proof.
  intros [Hph Hpb] Ht Hrect.
  specialize (Hph headerCells Ht).
  rewrite processTable_dom_plan, Ht.
  destruct (injection_plan (lensedColumns cfg) (map text_of headerCells))
    as [insertions|] eqn:Hplan; cbn [fst].
  - erewrite applyColumnVisibility_rows; [|reflexivity]. cbn [dom_thead dom_tbody].
    eexists. split; [reflexivity|].
    intros cells' Hin. rewrite map_map in Hin. apply in_map_iff in Hin.
    destruct Hin as [cells [<- Hin]].
    apply aligned_after_pass.
    assert (Hne : (List.length cells =? 0)%nat = false).
    { rewrite (Hrect cells Hin). destruct headerCells as [|th headerCells];
        [now rewrite injection_plan_nil in Hplan|reflexivity]. }
    unfold inject_row_dom. rewrite Hne.
    destruct (classes_of_row insertions cells (Hpb cells Hin)) as [Hc _].
    destruct (classes_of_header insertions headerCells Hph) as [Hh _].
    rewrite Hc, Hh, !created_as_origins. f_equal.
    apply origins_header_row. rewrite !length_map. now apply Hrect.
  - rewrite (applyColumnVisibility_rows cfg t headerCells Ht). cbn [dom_thead dom_tbody].
    eexists. split; [reflexivity|].
    intros cells' Hin. apply in_map_iff in Hin. destruct Hin as [cells [<- Hin]].
    apply aligned_after_pass.
    assert (Hall : forall l : list element,
               forallb not_calc l = true ->
               map insight_calc_col l = repeat false (List.length l)).
    { induction l as [|e l IH]; simpl; [reflexivity|].
      intros H. apply andb_true_iff in H. destruct H as [He Hl].
      unfold not_calc in He. apply negb_true_iff in He. now rewrite He, IH. }
    rewrite (Hall cells (Hpb cells Hin)), (Hall headerCells Hph).
    now rewrite (Hrect cells Hin).
Qed.

Lemma dom_scenario1_pristine : pristine dom_scenario1.
Proof.
  split.
  - intros headerCells [= <-]. reflexivity.
  - intros cells [<-|[]]. reflexivity.
Qed.

Lemma scan_keeps_columns_whole_example :
  exists headerCells',
    dom_thead (applyColumnVisibility settings_no_appt_calls
                 (fst (processTable_dom (lensedColumns settings_no_appt_calls)
                                        dom_scenario1 false)))
    = Some headerCells'
    /\ map text_of headerCells'
       = ["User"; "List"; "Dialed"; "Contacts"; "Status 'APPT"; "APPT%(C)";
          "LXFER"; "LXFER%(C)"; "LXFER%(D)"; "All Success"; "SUCCESS%(C)";
          "SUCCESS%(D)"]
    /\ forall cells',
         In cells' (dom_tbody (applyColumnVisibility settings_no_appt_calls
                                 (fst (processTable_dom
                                         (lensedColumns settings_no_appt_calls)
                                         dom_scenario1 false)))) ->
         map display_none cells' = map display_none headerCells'.
Proof.
  destruct (scan_keeps_columns_whole settings_no_appt_calls dom_scenario1 false
              (map (fun s => {| insight_calc_col := false; text_of := s;
                                display_none := false |})
                   ["User"; "List"; "Dialed"; "Contacts"; "Status 'APPT";
                    "LXFER"; "All Success"])
              dom_scenario1_pristine eq_refl)
    as [headerCells' [Hh Hrows]].
  - intros cells [<-|[]]. reflexivity.
  - exists headerCells'. split; [exact Hh|]. split.
    + vm_compute in Hh. injection Hh as <-. reflexivity.
    + intros cells' Hin. now apply Hrows.
Defined.

(* ================================================================== *)
(** ** Scan, removal and refresh *)
(* ================================================================== *)

Lemma displayed_by_nil cfg headerCells : displayed_by cfg headerCells [] = [].
Proof. now destruct headerCells. Qed.

Lemma displayed_by_removed cfg headerCells cells :
  map text_of (filter not_calc (displayed_by cfg headerCells cells))
  = map text_of (filter not_calc cells)
  /\ forallb not_calc (displayed_by cfg headerCells cells) = forallb not_calc cells.
Proof.
  revert cells. induction headerCells as [|th headerCells IH]; intros [|c cells];
    try (split; reflexivity).
  destruct (IH cells) as [H1 H2].
  cbn [displayed_by filter forallb].
  change (not_calc (set_display (isHidden cfg (trim (text_of th))) c))
    with (not_calc c).
  rewrite H2. split; [|reflexivity].
  destruct (not_calc c); cbn [map]; now rewrite H1.
Qed.

Lemma texts_of_removed (live : list cell) :
  forall cells : list element,
    map insight_calc_col cells = map (fun c => negb (is_original c)) live ->
    map text_of cells = map innerText live ->
    map text_of (filter not_calc cells) = map innerText (filter is_original live).
Proof.
  induction live as [|c live IH]; intros [|e cells] Hc Ht; simpl in Hc, Ht;
    try discriminate Hc; [reflexivity|].
  injection Hc as He Hc. injection Ht as Hte Ht.
  cbn [filter]. unfold not_calc at 1. rewrite He, negb_involutive.
  destruct (is_original c); cbn [map]; [rewrite Hte|]; now rewrite (IH cells Hc Ht).
Qed.

Lemma rebuild_as_created (live : list cell) :
  forall pre cells,
    map insight_calc_col cells = map (fun c => negb (is_original c)) live ->
    map text_of cells = map innerText live ->
    filter is_original live
    = snapshot_from (Z.of_nat (List.length pre)) (map text_of (filter not_calc cells)) ->
    map (element_of (pre ++ filter not_calc cells)) live = map as_created cells.
Proof.
  induction live as [|[o s] live IH]; intros pre [|e cells] Hc Ht Hs; simpl in Hc, Ht;
    try discriminate Hc; [reflexivity|].
  injection Hc as He Hc. injection Ht as Hte Ht.
  destruct o as [i|].
  - assert (Hn : not_calc e = true) by (unfold not_calc; now rewrite He).
    cbn [filter] in *. rewrite Hn in *.
    change (filter is_original ({| origin := Some i; innerText := s |} :: live))
      with ({| origin := Some i; innerText := s |} :: filter is_original live) in Hs.
    simpl in Hs. injection Hs as Hi _ Hrest. subst i.
    assert (Hpre : (pre ++ e :: filter not_calc cells
                    = (pre ++ [e]) ++ filter not_calc cells)%list)
      by (now rewrite <- app_assoc).
    assert (Hlen : Z.of_nat (List.length (pre ++ [e])) = Z.of_nat (List.length pre) + 1)
      by (rewrite length_app; simpl; lia).
    rewrite <- Hlen in Hrest.
    pose proof (IH (pre ++ [e])%list cells Hc Ht Hrest) as IH'.
    rewrite <- Hpre in IH'. cbn [map]. rewrite IH'. f_equal.
    unfold element_of. cbn [origin]. rewrite at_index_app_length.
    unfold as_created. unfold not_calc in Hn. apply negb_true_iff in Hn.
    now rewrite Hn.
  - assert (Hn : not_calc e = false) by (unfold not_calc; now rewrite He).
    cbn [filter] in *. rewrite Hn in *.
    change (filter is_original ({| origin := None; innerText := s |} :: live))
      with (filter is_original live) in Hs.
    cbn [map]. rewrite (IH pre cells Hc Ht Hs). f_equal.
    unfold element_of, as_created. cbn [origin innerText].
    unfold is_original in He. cbn [origin negb] in He. rewrite He.
    cbn [innerText] in Hte. now rewrite Hte.
Qed.

Lemma as_created_fixed (cells : list element) :
  (forall e, In e cells -> insight_calc_col e = true -> e = createElement (text_of e)) ->
  map as_created cells = cells.
Proof.
  intros H. rewrite <- (map_id cells) at 2. apply map_ext_in. intros e Hin.
  unfold as_created. destruct (insight_calc_col e) eqn:E; [|reflexivity].
  symmetry. now apply H.
Qed.

Lemma displayed_by_as_created cfg (headerCells cells : list element) :
  (forall e, In e cells -> insight_calc_col e = true -> e = createElement (text_of e)) ->
  displayed_by cfg (map as_created (displayed_by cfg headerCells headerCells))
               (map as_created (displayed_by cfg headerCells cells))
  = displayed_by cfg headerCells cells.
Proof.
  revert cells. induction headerCells as [|th headerCells IH]; intros cells H.
  - simpl. destruct cells; simpl; [reflexivity|].
    change (as_created e :: map as_created cells) with (map as_created (e :: cells)).
    now apply as_created_fixed.
  - destruct cells as [|c cells]; [reflexivity|].
    cbn [displayed_by map]. rewrite IH by (intros e Hin; apply H; now right).
    f_equal. unfold as_created, set_display, createElement. simpl.
    destruct (insight_calc_col th), (insight_calc_col c) eqn:Ec; simpl;
      try reflexivity; now rewrite ?Ec.
Qed.

(** What a scan makes of a table. *)
Lemma scan_after_removal cfg (t : dom_table) (flag flag' : bool) :
  pristine t ->
  let scanned :=
    applyColumnVisibility cfg (fst (processTable_dom (lensedColumns cfg) t flag)) in
  applyColumnVisibility cfg
    (fst (processTable_dom (lensedColumns cfg) (remove_calc scanned) flag'))
  = scanned
  /\ snd (processTable_dom (lensedColumns cfg) (remove_calc scanned) flag')
     = snd (processTable_dom (lensedColumns cfg) t flag').
Proof.
  intros Hp scanned. subst scanned.
  rewrite !processTable_dom_plan.
  destruct (dom_thead t) as [headerCells|] eqn:Ht.
  2:{ cbn [fst]. rewrite (applyColumnVisibility_no_header cfg t Ht).
      rewrite (remove_calc_pristine t Hp), Ht. cbn [fst snd].
      split; [now apply applyColumnVisibility_no_header|reflexivity]. }
  destruct Hp as [Hph Hpb]. specialize (Hph headerCells Ht).
  destruct (injection_plan (lensedColumns cfg) (map text_of headerCells))
    as [insertions|] eqn:Hplan; cbn [fst].
  - (* the table received columns *)
    rewrite (applyColumnVisibility_rows cfg
               {| dom_thead := Some (inject_header_dom insertions headerCells);
                  dom_tbody := map (inject_row_dom insertions) (dom_tbody t) |}
               (inject_header_dom insertions headerCells) eq_refl).
    cbn [dom_tbody].
    set (header' := inject_header_dom insertions headerCells).
    set (live := inject_header_live insertions (map text_of headerCells)).
    destruct (classes_of_header insertions headerCells Hph) as [Hclass Hcreated].
    fold header' live in Hclass, Hcreated.
    destruct (inject_header_dom_facts insertions headerCells) as [Htexts _].
    change (inject_header insertions (map text_of headerCells))
      with (map innerText live) in Htexts.
    fold header' in Htexts.
    destruct (displayed_by_facts cfg header' header') as [T [C _]].
    assert (Hq : map text_of (filter not_calc (displayed_by cfg header' header'))
                 = map text_of headerCells).
    { rewrite (texts_of_removed live) by congruence.
      unfold live. rewrite originals_of_header. apply innerText_snapshot_from. }
    unfold remove_calc. cbn [dom_thead dom_tbody option_map].
    rewrite Hq, Hplan. cbn [fst snd]. split; [|reflexivity].
    erewrite applyColumnVisibility_rows; [|reflexivity]. cbn [dom_tbody].
    assert (Hhead : inject_header_dom insertions
                      (filter not_calc (displayed_by cfg header' header'))
                    = map as_created (displayed_by cfg header' header')).
    { unfold inject_header_dom. rewrite Hq. fold live.
      apply (rebuild_as_created live []); [congruence|congruence|].
      rewrite Hq. apply originals_of_header. }
    rewrite Hhead. f_equal.
    + f_equal. now apply displayed_by_as_created.
    + rewrite !map_map. apply map_ext_in. intros cells Hin.
      destruct (List.length cells =? 0)%nat eqn:Hlen.
      * apply Nat.eqb_eq in Hlen. apply length_zero_iff_nil in Hlen. subst cells.
        change (inject_row_dom insertions []) with (@nil element).
        rewrite (displayed_by_nil cfg header'). cbn [filter].
        change (inject_row_dom insertions []) with (@nil element).
        apply displayed_by_nil.
      * set (rlive := inject_row_live insertions (map text_of cells)).
        set (row' := map (element_of cells) rlive).
        assert (Hrd : inject_row_dom insertions cells = row')
          by (unfold inject_row_dom; now rewrite Hlen).
        rewrite Hrd.
        destruct (classes_of_row insertions cells (Hpb cells Hin))
          as [Hrclass Hrcreated].
        fold rlive row' in Hrclass, Hrcreated.
        destruct (element_of_live rlive [] cells (originals_of_row _ _))
          as [Hrtexts _].
        change (map (element_of ([] ++ cells)) rlive) with row' in Hrtexts.
        destruct (displayed_by_facts cfg header' row') as [RT [RC _]].
        assert (Hrq : map text_of (filter not_calc (displayed_by cfg header' row'))
                      = map text_of cells).
        { rewrite (texts_of_removed rlive) by congruence.
          unfold rlive. rewrite originals_of_row. apply innerText_snapshot_from. }
        assert (Hrow : inject_row_dom insertions
                         (filter not_calc (displayed_by cfg header' row'))
                       = map as_created (displayed_by cfg header' row')).
        { unfold inject_row_dom.
          assert (Hl : List.length (filter not_calc (displayed_by cfg header' row'))
                       = List.length cells).
          { apply (f_equal (@List.length string)) in Hrq.
            now rewrite !length_map in Hrq. }
          rewrite Hl, Hlen, Hrq. fold rlive.
          apply (rebuild_as_created rlive []); [congruence|congruence|].
          rewrite Hrq. apply originals_of_row. }
        rewrite Hrow. now apply displayed_by_as_created.
  - (* the table was left as it is *)
    rewrite (applyColumnVisibility_rows cfg t headerCells Ht).
    assert (Hpr : pristine {| dom_thead := Some (displayed_by cfg headerCells headerCells);
                              dom_tbody := map (displayed_by cfg headerCells)
                                               (dom_tbody t) |}).
    { split; cbn [dom_thead dom_tbody].
      - intros h [= <-]. now rewrite (proj2 (displayed_by_removed cfg _ _)).
      - intros cells Hin. apply in_map_iff in Hin. destruct Hin as [c [<- Hin]].
        rewrite (proj2 (displayed_by_removed cfg _ _)). now apply Hpb. }
    rewrite (remove_calc_pristine _ Hpr). cbn [dom_thead].
    destruct (displayed_by_facts cfg headerCells headerCells) as [T _].
    rewrite T, Hplan. cbn [fst snd]. split; [|reflexivity].
    erewrite applyColumnVisibility_rows; [|reflexivity]. cbn [dom_tbody].
    f_equal.
    + f_equal. apply displayed_by_again.
    + rewrite map_map. apply map_ext. intros cells. apply displayed_by_again.
Qed.

Lemma processTable_dom_fst cfg (t : dom_table) (flag flag' : bool) :
  fst (processTable_dom cfg t flag) = fst (processTable_dom cfg t flag').
Proof.
  rewrite !processTable_dom_plan.
  destruct (dom_thead t) as [headerCells|]; [|reflexivity].
  now destruct (injection_plan cfg (map text_of headerCells)).
Qed.

Lemma pristine_remove_calc (t : dom_table) : pristine (remove_calc t).
Proof.
  assert (H : forall l : list element, forallb not_calc (filter not_calc l) = true).
  { induction l as [|e l IH]; simpl; [reflexivity|].
    destruct (not_calc e) eqn:E; simpl; [now rewrite E|exact IH]. }
  destruct t as [h b]. split; cbn [remove_calc dom_thead dom_tbody].
  - destruct h as [h|]; cbn [option_map]; [|discriminate].
    intros headerCells [= <-]. apply H.
  - intros cells Hin. apply in_map_iff in Hin. destruct Hin as [c [<- _]]. apply H.
Qed.

Lemma scan_tables_after_removal cfg (page : list dom_table) :
  (forall t, In t page -> pristine t) ->
  forall flag flag',
    scan_tables cfg (map remove_calc (fst (scan_tables cfg page flag))) flag'
    = scan_tables cfg page flag'.
Proof.
  induction page as [|t page IH]; intros Hp flag flag'; [reflexivity|].
  assert (Ht : pristine t) by (apply Hp; now left).
  assert (Hpage : forall t', In t' page -> pristine t') by (intros t' H; apply Hp; now right).
  cbn [scan_tables fst snd map].
  destruct (scan_after_removal cfg t flag flag' Ht) as [H1 H2].
  cbv zeta in H1, H2. rewrite H1, H2.
  rewrite (IH Hpage).
  now rewrite (processTable_dom_fst (lensedColumns cfg) t flag flag').
Qed.

Lemma scan_tables_displayed cfg (page : list dom_table) :
  forall flag,
    map (applyColumnVisibility cfg) (fst (scan_tables cfg page flag))
    = fst (scan_tables cfg page flag).
Proof.
  induction page as [|t page IH]; intros flag; [reflexivity|].
  cbn [scan_tables fst map]. now rewrite applyColumnVisibility_again, IH.
Qed.

Lemma texts_after_scan_and_removal cfg (page : list dom_table) :
  forall flag,
    map (fun t => texts_of_table (remove_calc t)) (fst (scan_tables cfg page flag))
    = map (fun t => texts_of_table (remove_calc t)) page.
Proof.
  induction page as [|t page IH]; intros flag; [reflexivity|].
  cbn [scan_tables fst map]. rewrite IH. f_equal.
  rewrite <- (remove_calc_processTable (lensedColumns cfg) t flag).
  set (t1 := fst (processTable_dom (lensedColumns cfg) t flag)).
  destruct (dom_thead t1) as [headerCells|] eqn:Ht.
  - rewrite (applyColumnVisibility_rows cfg t1 headerCells Ht).
    unfold texts_of_table, remove_calc. cbn [dom_thead dom_tbody option_map thead tbody].
    rewrite Ht. cbn [option_map]. f_equal.
    + f_equal. apply displayed_by_removed.
    + rewrite !map_map. apply map_ext. intros cells. apply displayed_by_removed.
  - now rewrite (applyColumnVisibility_no_header cfg t1 Ht).
Qed.

Lemma refresh_again (st : lens) : refresh (refresh st) = refresh st.
Proof.
  destruct st as [enabled cfg flag page].
  unfold refresh, removeInjectedColumns.
  cbn [lens_enabled lens_settings lens_columnsInjected lens_tables].
  destruct enabled; unfold scanAndInject;
    cbn [lens_enabled lens_settings lens_columnsInjected lens_tables negb].
  - rewrite scan_tables_after_removal; [reflexivity|].
    intros t Hin. apply in_map_iff in Hin. destruct Hin as [t0 [<- _]].
    apply pristine_remove_calc.
  - f_equal. rewrite map_map. apply map_ext. intros t.
    apply remove_calc_pristine, pristine_remove_calc.
Qed.

Lemma refresh_enabled (st : lens) :
  lens_enabled (refresh st) = lens_enabled st
  /\ lens_settings (refresh st) = lens_settings st.
Proof.
  destruct st as [[|] cfg flag page]; split; reflexivity.
Qed.

(** X18. The action refresh gives the same page when it is repeated: the removal
    takes away every cell that the scan created, and the scan of what is left
    creates them again, with the same display.  It changes neither the
    switch of the lens nor the settings, and with the lens off it only
    removes the cells of the class. *)
Theorem refresh_is_idempotent (st : lens) :
  refresh (refresh st) = refresh st
  /\ lens_enabled (refresh st) = lens_enabled st
  /\ lens_settings (refresh st) = lens_settings st
  /\ (lens_enabled st = false ->
      lens_tables (refresh st) = map remove_calc (lens_tables st)
      /\ lens_columnsInjected (refresh st) = false).
Proof.
  split; [apply refresh_again|].
  destruct (refresh_enabled st) as [He Hs].
  split; [exact He|]. split; [exact Hs|].
  intros E. unfold refresh, scanAndInject. cbn [removeInjectedColumns lens_enabled].
  rewrite E. split; reflexivity.
Qed.

Lemma refresh_is_idempotent_example :
  map texts_of_table
      (lens_tables (refresh {| lens_enabled := false;
                               lens_settings := settings_no_appt_calls;
                               lens_columnsInjected := true;
                               lens_tables := lens_tables (refresh lens_scenario1) |}))
  = map texts_of_table [dom_scenario1; table_hidden_list].
Proof.
  destruct (refresh_is_idempotent
              {| lens_enabled := false;
                 lens_settings := settings_no_appt_calls;
                 lens_columnsInjected := true;
                 lens_tables := lens_tables (refresh lens_scenario1) |})
    as [_ [_ [_ H]]].
  destruct (H eq_refl) as [H1 _]. rewrite H1. vm_compute. reflexivity.
Defined.

Lemma toggle_twice (st : lens) :
  lens_enabled st = true ->
  toggleInsightLens (toggleInsightLens st) = refresh st.
Proof.
  destruct st as [enabled cfg flag page]. cbn [lens_enabled]. intros ->.
  reflexivity.
Qed.

(** X19. With the lens on, switching it off and on again is a refresh; on a page
    that a refresh has left, it gives the same page back. *)
Theorem lens_off_and_on_again (st : lens) :
  lens_enabled st = true ->
  toggleInsightLens (toggleInsightLens st) = refresh st
  /\ toggleInsightLens (toggleInsightLens (refresh st)) = refresh st.
Proof.
  intros E. split; [now apply toggle_twice|].
  rewrite toggle_twice; [apply refresh_again|].
  destruct (refresh_enabled st) as [He _]. congruence.
Qed.

Lemma lens_off_and_on_again_example :
  toggleInsightLens (toggleInsightLens (refresh lens_scenario1))
  = refresh lens_scenario1.
Proof.
  apply (lens_off_and_on_again lens_scenario1). reflexivity.
Defined.

(** X20. With the lens off, switching it on and off again on a page that holds no
    cell of the script gives back every text of the page; the lens is off and
    nothing is reported as injected. *)
Theorem lens_on_and_off_restores_texts (st : lens) :
  lens_enabled st = false ->
  (forall t, In t (lens_tables st) -> pristine t) ->
  let st' := toggleInsightLens (toggleInsightLens st) in
  map texts_of_table (lens_tables st') = map texts_of_table (lens_tables st)
  /\ lens_enabled st' = false
  /\ lens_columnsInjected st' = false
  /\ forall t, In t (lens_tables st') -> pristine t.
Proof.
  destruct st as [enabled cfg flag page]. cbn [lens_enabled lens_tables].
  intros -> Hp.
  unfold toggleInsightLens, scanAndInject, removeInjectedColumns.
  cbn [lens_enabled lens_settings lens_columnsInjected lens_tables negb].
  split; [|split; [reflexivity|split; [reflexivity|]]].
  - rewrite map_map. rewrite (texts_after_scan_and_removal cfg page flag).
    apply map_ext_in. intros t Hin. now rewrite (remove_calc_pristine t (Hp t Hin)).
  - intros t Hin. apply in_map_iff in Hin. destruct Hin as [t0 [<- _]].
    apply pristine_remove_calc.
Qed.

Lemma table_hidden_list_pristine : pristine table_hidden_list.
Proof.
  split.
  - intros headerCells [= <-]. reflexivity.
  - intros cells [<-|[<-|[]]]; reflexivity.
Qed.

Lemma lens_on_and_off_example :
  map texts_of_table
      (lens_tables
         (toggleInsightLens
            (toggleInsightLens
               {| lens_enabled := false;
                  lens_settings := settings_no_appt_calls;
                  lens_columnsInjected := false;
                  lens_tables := [dom_scenario1; table_hidden_list] |})))
  = map texts_of_table [dom_scenario1; table_hidden_list].
Proof.
  apply (lens_on_and_off_restores_texts
           {| lens_enabled := false;
              lens_settings := settings_no_appt_calls;
              lens_columnsInjected := false;
              lens_tables := [dom_scenario1; table_hidden_list] |} eq_refl).
  intros t [<-|[<-|[]]];
    [exact dom_scenario1_pristine|exact table_hidden_list_pristine].
Defined.

(** X21. Apply and Save with the lens on is a refresh with the settings of the
    panel: the visibility pass that follows the scan changes nothing.  With
    the lens off it removes the cells of the class and applies the
    visibility of the panel to what is left. *)
Theorem applySettingsFromPanel_is_a_refresh (panel : settings) (st : lens) :
  (lens_enabled st = true ->
   applySettingsFromPanel panel st
   = refresh {| lens_enabled := true;
                lens_settings := panel;
                lens_columnsInjected := lens_columnsInjected st;
                lens_tables := lens_tables st |})
  /\ (lens_enabled st = false ->
      applySettingsFromPanel panel st
      = {| lens_enabled := false;
           lens_settings := panel;
           lens_columnsInjected := false;
           lens_tables :=
             map (fun t => applyColumnVisibility panel (remove_calc t))
                 (lens_tables st) |}).
Proof.
  destruct st as [enabled cfg flag page]. cbn [lens_enabled lens_tables].
  split; intros ->;
    unfold applySettingsFromPanel, refresh, scanAndInject, removeInjectedColumns;
    cbn [lens_enabled lens_settings lens_columnsInjected lens_tables negb].
  - now rewrite scan_tables_displayed.
  - now rewrite map_map.
Qed.

Lemma applySettingsFromPanel_example :
  applySettingsFromPanel settings_hidden_list lens_scenario1
  = refresh {| lens_enabled := true;
               lens_settings := settings_hidden_list;
               lens_columnsInjected := false;
               lens_tables := [dom_scenario1; table_hidden_list] |}.
Proof.
  apply (proj1 (applySettingsFromPanel_is_a_refresh settings_hidden_list
                  lens_scenario1)).
  reflexivity.
Defined.

(** X22. On the cells of the page, [processTable] writes the texts that
    [processTable] gives on the table of the texts and sets the global the
    same way; every cell it adds has the class [insight-calc-col] and the
    cells that were there stay as they are, in their order, so that the
    removal of the cells of the class gives back a table that held none. *)
Theorem processTable_dom_adds_marked_cells (cfg : INSIGHT_CONFIG.lensedColumns)
    (t : dom_table) (flag : bool) :
  texts_of_table (fst (processTable_dom cfg t flag))
  = fst (processTable cfg (texts_of_table t) flag)
  /\ snd (processTable_dom cfg t flag) = snd (processTable cfg (texts_of_table t) flag)
  /\ remove_calc (fst (processTable_dom cfg t flag)) = remove_calc t
  /\ (pristine t -> remove_calc (fst (processTable_dom cfg t flag)) = t).
Proof.
  destruct (processTable_dom_texts cfg t flag) as [Ht Hf].
  split; [exact Ht|]. split; [exact Hf|].
  split; [apply remove_calc_processTable|].
  intros Hp. rewrite remove_calc_processTable. now apply remove_calc_pristine.
Qed.

Lemma processTable_dom_example :
  thead (texts_of_table
           (fst (processTable_dom INSIGHT_CONFIG.defaults dom_scenario1 false)))
  = Some ["User"; "List"; "Dialed"; "Contacts"; "Status 'APPT"; "APPT%(C)";
          "APPT%(D)"; "LXFER"; "LXFER%(C)"; "LXFER%(D)"; "All Success";
          "SUCCESS%(C)"; "SUCCESS%(D)"]
  /\ remove_calc (fst (processTable_dom INSIGHT_CONFIG.defaults dom_scenario1 false))
     = dom_scenario1.
Proof.
  destruct (processTable_dom_adds_marked_cells INSIGHT_CONFIG.defaults
              dom_scenario1 false) as [_ [_ [_ H]]].
  split; [vm_compute; reflexivity|].
  apply H. exact dom_scenario1_pristine.
Defined.

(** A column headed constructor: its checkbox shows it, the next pass hides
    it again. *)
Lemma inherited_header_checkbox :
  map (fun t => map (map display_none) (dom_tbody t))
      (snd (onOriginalCheckbox_page settings_hidden_list "constructor" true
              (map (applyColumnVisibility settings_hidden_list)
                   [table_constructor])))
  = [[[false]]]
  /\ map (fun t => map (map display_none) (dom_tbody t))
         (map (applyColumnVisibility
                 (fst (onOriginalCheckbox_page settings_hidden_list
                         "constructor" true [table_constructor])))
              [table_constructor])
     = [[[true]]].
Proof. split; vm_compute; reflexivity. Qed.

(* ================================================================== *)
(** ** The checkboxes of the settings panel *)
(* ================================================================== *)

Lemma collect_unchecked (hidden headers : list string) :
  map cb_data (filter (fun cb => negb (cb_checked cb))
                      (buildOriginalCheckboxes hidden headers))
  = filter (fun header => existsb (String.eqb header) hidden) headers.
Proof.
  induction headers as [|h headers IH]; simpl; [reflexivity|].
  rewrite negb_involutive.
  destruct (existsb (String.eqb h) hidden); simpl; now rewrite IH.
Qed.

(** X23. Apply and Save on a panel that was opened and left untouched keeps the
    six switches, and keeps as hidden exactly the hidden columns whose header
    the panel offers: a hidden column that is not on the page, or whose
    header holds %(C) or %(D), is no longer listed. *)
Theorem apply_untouched_panel (cfg : settings) (headerRows : list (list string)) :
  let cfg' := collectSettings (createSettingsPanel cfg headerRows) cfg in
  lensedColumns cfg' = lensedColumns cfg
  /\ NoDup (hiddenColumns cfg')
  /\ forall header,
       In header (hiddenColumns cfg')
       <-> In header (hiddenColumns cfg)
           /\ In header (originalHeaders (getAllColumnHeaders headerRows)).
Proof.
  intros cfg'. subst cfg'. unfold collectSettings, createSettingsPanel.
  cbn [hiddenColumns lensedColumns lensed_checkboxes original_checkboxes].
  rewrite collect_unchecked. split; [|split].
  - destruct (lensedColumns cfg) as [a b c d e f]. reflexivity.
  - apply NoDup_filter. unfold originalHeaders. apply NoDup_filter.
    destruct (headers_of_rows headerRows []) as [Hnd _].
    apply Hnd. constructor.
  - intros header. rewrite filter_In, existsb_eqb_In. tauto.
Qed.

(* ================================================================== *)
(** ** The global [columnsInjected] *)
(* ================================================================== *)

Lemma existsb_calc_map (l : list element) :
  existsb insight_calc_col l = existsb (fun b => b) (map insight_calc_col l).
Proof. induction l as [|e l IH]; simpl; [reflexivity|]. now rewrite IH. Qed.

Lemma existsb_calc_pristine (l : list element) :
  forallb not_calc l = true -> existsb insight_calc_col l = false.
Proof.
  induction l as [|e l IH]; simpl; [reflexivity|].
  intros H. apply andb_true_iff in H. destruct H as [He Hl].
  unfold not_calc in He. apply negb_true_iff in He. now rewrite He, IH.
Qed.

Lemma has_calc_pristine (t : dom_table) : pristine t -> has_calc t = false.
Proof.
  intros [Hh Hb]. unfold has_calc.
  assert (E : existsb (existsb insight_calc_col) (dom_tbody t) = false).
  { induction (dom_tbody t) as [|cells rows IH]; simpl; [reflexivity|].
    rewrite (existsb_calc_pristine cells) by (apply Hb; now left).
    apply IH. intros c Hc. apply Hb. now right. }
  rewrite E. destruct (dom_thead t) as [headerCells|]; [|reflexivity].
  now rewrite (existsb_calc_pristine headerCells (Hh _ eq_refl)).
Qed.

Lemma has_calc_displayed cfg (t : dom_table) :
  has_calc (applyColumnVisibility cfg t) = has_calc t.
Proof.
  destruct (dom_thead t) as [headerCells|] eqn:Ht.
  - rewrite (applyColumnVisibility_rows cfg t headerCells Ht).
    unfold has_calc. cbn [dom_thead dom_tbody]. rewrite Ht.
    assert (E : forall cells,
               existsb insight_calc_col (displayed_by cfg headerCells cells)
               = existsb insight_calc_col cells).
    { intros cells. rewrite !existsb_calc_map.
      now rewrite (proj1 (proj2 (displayed_by_facts cfg headerCells cells))). }
    rewrite E. f_equal.
    induction (dom_tbody t) as [|cells rows IH]; simpl; [reflexivity|].
    now rewrite E, IH.
  - now rewrite (applyColumnVisibility_no_header cfg t Ht).
Qed.

Lemma injection_plan_nonempty cfg headerTexts insertions :
  injection_plan cfg headerTexts = Some insertions -> insertions <> [].
Proof.
  unfold injection_plan.
  destruct (already_injected (map trim headerTexts)); [discriminate|].
  match goal with |- context [if ?b then None else _] => destruct b end;
    [discriminate|].
  match goal with |- context [(List.length ?l =? 0)%nat] =>
    destruct (List.length l =? 0)%nat eqn:E end; [discriminate|].
  intros [= <-] Hnil. apply (f_equal (@List.length insertion)) in Hnil.
  rewrite length_sort_desc in Hnil. simpl in Hnil. rewrite Hnil in E.
  discriminate E.
Qed.

Lemma injected_header_has_calc insertions headerCells :
  insertions <> [] ->
  forallb not_calc headerCells = true ->
  existsb insight_calc_col (inject_header_dom insertions headerCells) = true.
Proof.
  intros Hne Hp.
  destruct (classes_of_header insertions headerCells Hp) as [Hc _].
  rewrite existsb_calc_map, Hc.
  set (live := inject_header_live insertions (map text_of headerCells)).
  assert (Hlen : List.length live
                 = (List.length headerCells + List.length insertions)%nat).
  { pose proof (fold_insert_facts headerText insertions
                  (snapshot (map text_of headerCells))) as [H _].
    fold (inject_header_live insertions (map text_of headerCells)) in H.
    fold live in H. rewrite H. unfold snapshot.
    now rewrite length_snapshot_from, length_map. }
  assert (Horig : List.length (filter is_original live) = List.length headerCells).
  { unfold live. rewrite originals_of_header.
    now rewrite length_snapshot_from, length_map. }
  assert (Hlt : (List.length (filter is_original live) < List.length live)%nat).
  { rewrite Horig, Hlen. destruct insertions; [contradiction|simpl; lia]. }
  clear - Hlt. induction live as [|c live IH]; simpl in *; [lia|].
  destruct (is_original c); simpl in *; [|reflexivity].
  apply IH. lia.
Qed.

Lemma processTable_dom_flag cfg (t : dom_table) (flag : bool) :
  pristine t ->
  snd (processTable_dom cfg t flag) = flag || has_calc (fst (processTable_dom cfg t flag)).
Proof.
  intros Hp. rewrite processTable_dom_plan.
  destruct (dom_thead t) as [headerCells|] eqn:Ht.
  - destruct (injection_plan cfg (map text_of headerCells)) as [insertions|] eqn:Hplan;
      cbn [fst snd].
    + unfold has_calc. cbn [dom_thead].
      rewrite injected_header_has_calc.
      * now rewrite orb_true_r.
      * now apply (injection_plan_nonempty cfg (map text_of headerCells)).
      * now apply (proj1 Hp).
    + now rewrite (has_calc_pristine t Hp), orb_false_r.
  - cbn [fst snd]. now rewrite (has_calc_pristine t Hp), orb_false_r.
Qed.

Lemma scan_tables_flag cfg (page : list dom_table) :
  (forall t, In t page -> pristine t) ->
  forall flag,
    snd (scan_tables cfg page flag)
    = flag || existsb has_calc (fst (scan_tables cfg page flag)).
Proof.
  induction page as [|t page IH]; intros Hp flag; simpl.
  - now rewrite orb_false_r.
  - rewrite IH by (intros t' H; apply Hp; now right).
    rewrite has_calc_displayed.
    rewrite (processTable_dom_flag (lensedColumns cfg) t flag) by (apply Hp; now left).
    now rewrite orb_assoc.
Qed.

(** X24. After a refresh the global [columnsInjected], which the popup is told
    when it asks for the status, is true exactly when some table of the page
    holds a cell of the script. *)
Theorem columnsInjected_after_refresh (st : lens) :
  lens_columnsInjected (refresh st) = existsb has_calc (lens_tables (refresh st)).
Proof.
  destruct st as [enabled cfg flag page].
  assert (Hp : forall t, In t (map remove_calc page) -> pristine t).
  { intros t Hin. apply in_map_iff in Hin. destruct Hin as [t0 [<- _]].
    apply pristine_remove_calc. }
  unfold refresh, removeInjectedColumns.
  cbn [lens_enabled lens_settings lens_columnsInjected lens_tables].
  destruct enabled; unfold scanAndInject;
    cbn [lens_enabled lens_settings lens_columnsInjected lens_tables negb].
  - now rewrite (scan_tables_flag cfg _ Hp false).
  - symmetry. clear - Hp. induction (map remove_calc page) as [|t l IH]; simpl;
      [reflexivity|].
    rewrite (has_calc_pristine t) by (apply Hp; now left).
    apply IH. intros t' H. apply Hp. now right.
Qed.

